(** * pet-on-desk: motion configuration, fallback tweens, idle engine and
      input frame scheduler

    A shallow embedding of the TypeScript sources

      - [src/lib/motion/config.ts]: the data model and [cloneMotionConfig],
        the tween presets ([applyFrame], [applyTweenPreset]), the
        validator ([validateMotionConfig], [resolveMotionConfig]) and the
        loader ([loadMotionConfigFromUrl]),
      - the motion engine ([handleInput], [maybePlayIdle],
        [triggerFallbackTween], [playMotionOrFallback],
        [disposeMotionEngine], [motionMapBindings]),
      - the [PetStage] component (the input queue and its flush once per
        animation frame, [handleMouseMove]),
      - [src/lib/settings.ts] (the normalisers),
        [src/lib/windowInteraction.ts] and
        [src/lib/motion/modelAdapter.ts] (the lists of names),

    together with the properties the specification states about them.

    Modelling conventions.

    - A JavaScript value that can reach the validator is a [jsval]: the JSON
      values, [undefined] and the non-finite numbers.  An object is the list
      of its own enumerable properties, under distinct names, in
      [Object.entries] order.  A property write under a computed name is
      [writeProp]: a map insert, except under the name [__proto__], where
      a JavaScript write adds no own property.  [cloneMotionConfig] is
      handed the default configuration and what the validator returned,
      whose key maps have no property of that name, and its writes are map
      inserts.
    - A finite JavaScript number is a rational ([Q]); arithmetic is exact.
      The tween presets, which use [Math.sin] and [Math.PI], are stated over
      the real numbers, with [Math.PI] the floating-point number it is
      and [Math.sin] the sine.  IEEE-754 rounding of the arithmetic is
      not modelled.
    - A string is a [string], a sequence of code units below 256; [trim]
      removes the white space among them (tab, line feed, vertical tab,
      form feed, carriage return, space, no-break space).
    - A property read on [null] or [undefined] raises a [TypeError]: reads
      live in a monad with an exceptional outcome, so that "never raises" is
      a theorem and not an artefact of the embedding.
    - [Date.now ()], [performance.now ()], [Math.random ()] and the answer of
      the rendering runtime are inputs of the functions that use them. *)

From Stdlib Require Import ZArith QArith Qround Qminmax String Ascii List Lia.
From Stdlib Require Import DecimalString.
From Stdlib Require Import Reals Lra.
From Stdlib Require Qabs Lqa Qreals Machin.
From stdpp Require Import gmap strings list.

Local Open Scope string_scope.
Set Warnings "-register-all".

(* ===================================================================== *)
(** * JavaScript values                                                   *)
(* ===================================================================== *)

Module Js.

Inductive jsval : Type :=
| JUndefined
| JNull
| JBool (b : bool)
| JNum (q : Q)                       (* a finite number *)
| JNonFinite                         (* NaN, Infinity, -Infinity *)
| JStr (s : string)
| JArr (items : list jsval)
| JObj (entries : list (string * jsval)).

(** Result of running code that may raise. *)
Inductive outcome (A : Type) : Type :=
| Ret (a : A)
| Throw (e : string).
Arguments Ret {A} a.
Arguments Throw {A} e.

(** ** Strings *)

(** The white space and line terminators of ECMAScript among the code
    units below 256: tab, line feed, vertical tab, form feed, carriage
    return, space and no-break space. *)
Definition is_ws (c : ascii) : bool :=
  let n := nat_of_ascii c in
  (Nat.eqb n 9 || Nat.eqb n 10 || Nat.eqb n 11 || Nat.eqb n 12
   || Nat.eqb n 13 || Nat.eqb n 32 || Nat.eqb n 160)%bool.

Fixpoint trimStart (s : string) : string :=
  match s with
  | EmptyString => EmptyString
  | String c r => if is_ws c then trimStart r else s
  end.

Fixpoint trimEnd (s : string) : string :=
  match s with
  | EmptyString => EmptyString
  | String c r =>
      match trimEnd r with
      | EmptyString => if is_ws c then EmptyString else String c EmptyString
      | r' => String c r'
      end
  end.

(** [String.prototype.trim] *)
Definition trim (s : string) : string := trimEnd (trimStart s).

Definition isEmpty (s : string) : bool :=
  match s with EmptyString => true | _ => false end.

(** Template literal [`${n}`] for a non-negative integer index. *)
Definition showNat (n : nat) : string :=
  NilEmpty.string_of_uint (Nat.to_uint n).

(** ** Numbers *)

(** [Number.isInteger] on a finite number. *)
Definition isInteger (q : Q) : bool :=
  (Qnum q mod Zpos (Qden q) =? 0)%Z.

(** [min <= q && q <= max], i.e. the negation of [q < min || q > max]. *)
Definition inRange (q lo hi : Q) : bool :=
  (Qle_bool lo q && Qle_bool q hi)%bool.

(** [Math.min (max, Math.max (min, value))] *)
Definition clamp (value lo hi : Q) : Q :=
  Qmin hi (Qmax lo value).

(** ** Objects *)

Fixpoint assoc (k : string) (es : list (string * jsval)) : option jsval :=
  match es with
  | [] => None
  | (k', v) :: r => if String.eqb k k' then Some v else assoc k r
  end.

(** The property read [v.k] (for the property names the program uses,
    none of which lives on a prototype). *)
Definition getProp (v : jsval) (k : string) : outcome jsval :=
  match v with
  | JUndefined | JNull =>
      Throw ("TypeError: cannot read properties of null or undefined: " +:+ k)
  | JObj es =>
      Ret (match assoc k es with Some x => x | None => JUndefined end)
  | _ => Ret JUndefined
  end.

(** The write [obj[key] = value] on a plain object, seen on the own
    properties of [obj]: a property is added or replaced, except under
    the name [__proto__].  There the write goes to the setter that
    [Object.prototype] has for that name, which ignores a value that is
    not an object and otherwise replaces the prototype: either way no own
    property appears. *)
Definition writeProp {A} (obj : gmap string A) (key : string) (value : A)
    : gmap string A :=
  if String.eqb key "__proto__" then obj else <[key := value]> obj.

(** [typeof value === "object" && value !== null && !Array.isArray (value)] *)
Definition isObject (v : jsval) : bool :=
  match v with JObj _ => true | _ => false end.

Definition isUndefined (v : jsval) : bool :=
  match v with JUndefined => true | _ => false end.

(** [Array.isArray (value)] *)
Definition isArray (v : jsval) : bool :=
  match v with JArr _ => true | _ => false end.

(** [Object.entries (value)], for a value that passed [isObject]. *)
Definition objectEntries (v : jsval) : list (string * jsval) :=
  match v with JObj es => es | _ => [] end.

(** The elements of a value that passed [Array.isArray]. *)
Definition arrayItems (v : jsval) : list jsval :=
  match v with JArr items => items | _ => [] end.

(** The elements of an array with their indices, as [forEach] visits them. *)
Definition indexed {A} (xs : list A) : list (nat * A) :=
  List.combine (seq 0 (length xs)) xs.

(** The last [n] elements of a list. *)
Definition takeLast {A} (n : nat) (l : list A) : list A :=
  drop (length l - n) l.

(** [value === 1] *)
Definition strictEqOne (v : jsval) : bool :=
  match v with JNum q => Qeq_bool q 1 | _ => false end.

End Js.

Export Js.

(* ===================================================================== *)
(** * The configuration data model ([config.ts])                          *)
(* ===================================================================== *)

Module Config.

Inductive TweenPreset : Type := bounce | shake | nod.

(** [InputAction]: the tagged union on [kind]; optional fields are
    [option]s ([None] is [undefined]). *)
Inductive InputAction : Type :=
| Motion (group : string) (index priority cooldownMs : option Q)
| Expression (name : string) (cooldownMs : option Q)
| Tween (preset : TweenPreset) (strength cooldownMs : option Q)
| Combo (ruleId : string) (cooldownMs : option Q).

(** [ExecutableInputAction] is [InputAction] without [Combo]; TypeScript
    erases the distinction at run time, where [isCombo] tells them apart. *)
Definition isCombo (a : InputAction) : bool :=
  match a with Combo _ _ => true | _ => false end.

Record ComboRule : Type := mkComboRule {
  rule_id : string;
  rule_sequence : list string;
  rule_withinMs : Q;
  rule_action : InputAction;
  rule_cooldownMs : option Q;
}.

Record IdleEntry : Type := mkIdleEntry {
  entry_action : InputAction;
  entry_weight : option Q;
}.

Record IdleConfig : Type := mkIdleConfig {
  idle_enabled : bool;
  idle_afterMs : Q;
  idle_intervalMs : option Q;
  idle_actions : list IdleEntry;
}.

(** [MotionConfig]; the field [version] has the singleton type [1] and is
    not stored. *)
Record MotionConfig : Type := mkMotionConfig {
  keyMap : gmap string InputAction;
  comboRules : list ComboRule;
  idle : IdleConfig;
}.

(** [cloneAction], on the content of the action. *)
Definition cloneAction (action : InputAction) : InputAction :=
  match action with
  | Motion group index priority cooldownMs =>
      Motion group index priority cooldownMs
  | Expression name cooldownMs => Expression name cooldownMs
  | Tween preset strength cooldownMs => Tween preset strength cooldownMs
  | Combo ruleId cooldownMs => Combo ruleId cooldownMs
  end.

(** [cloneMotionConfig], on the content of the configuration (object
    identity is the subject of module [CloneHeap] below). *)
Definition cloneMotionConfig (config : MotionConfig) : MotionConfig :=
  {| keyMap :=
       foldl (fun km '(input, action) => <[input := cloneAction action]> km)
             ∅ (map_to_list (keyMap config));
     comboRules :=
       map (fun rule =>
              {| rule_id := rule_id rule;
                 rule_sequence := rule_sequence rule;
                 rule_withinMs := rule_withinMs rule;
                 rule_action := cloneAction (rule_action rule);
                 rule_cooldownMs := rule_cooldownMs rule |})
           (comboRules config);
     idle :=
       {| idle_enabled := idle_enabled (idle config);
          idle_afterMs := idle_afterMs (idle config);
          idle_intervalMs := idle_intervalMs (idle config);
          idle_actions :=
            map (fun entry =>
                   {| entry_action := cloneAction (entry_action entry);
                      entry_weight := entry_weight entry |})
                (idle_actions (idle config)) |} |}.

Definition defaultMotionConfig : MotionConfig :=
  {| keyMap :=
       <["KeyA" := Motion "tap_left" (Some 0%Q) (Some 2%Q) (Some 120%Q)]>
       (<["KeyD" := Motion "tap_right" (Some 0%Q) (Some 2%Q) (Some 120%Q)]>
       (<["MouseLeft" := Tween bounce (Some (8 # 10)%Q) (Some 80%Q)]>
       (<["KeyS" := Expression "smile" (Some 800%Q)]>
       (<["KeyQ" := Combo "left-right-burst" (Some 200%Q)]> ∅))));
     comboRules :=
       [ {| rule_id := "left-right-burst";
            rule_sequence := ["KeyA"; "KeyD"];
            rule_withinMs := 250%Q;
            rule_action := Motion "combo_burst" None (Some 3%Q) (Some 500%Q);
            rule_cooldownMs := Some 700%Q |} ];
     idle :=
       {| idle_enabled := true;
          idle_afterMs := 8000%Q;
          idle_intervalMs := Some 6000%Q;
          idle_actions :=
            [ {| entry_action := Motion "idle_1" None None None;
                 entry_weight := Some 3%Q |};
              {| entry_action := Motion "idle_2" None None None;
                 entry_weight := Some 2%Q |};
              {| entry_action := Expression "blink" None;
                 entry_weight := Some 1%Q |} ] |} |}.

End Config.

Export Config.

(* ===================================================================== *)
(** * The validator ([validator.ts])                                      *)
(* ===================================================================== *)

Module Validator.

(** Code that appends to the shared [errors] array and may raise: the
    value computed, paired with the messages pushed, or an exception.
    The array is only ever appended to, and read once, at the end of
    [validateMotionConfig]. *)
Definition M (A : Type) : Type := outcome (A * list string).

Definition ret {A} (a : A) : M A := Ret (a, []).

Definition bind {A B} (m : M A) (k : A -> M B) : M B :=
  match m with
  | Ret (a, es) =>
      match k a with
      | Ret (b, es') => Ret (b, (es ++ es')%list)
      | Throw e => Throw e
      end
  | Throw e => Throw e
  end.

(** [errors.push (message)] *)
Definition push (message : string) : M unit := Ret (tt, [message]).

(** The property read [v.k]. *)
Definition get (v : jsval) (k : string) : M jsval :=
  match getProp v k with
  | Ret x => ret x
  | Throw e => Throw e
  end.

Notation "'let*' x := m 'in' k" := (bind m (fun x => k))
  (at level 10, x name, m at level 100, k at level 200, only parsing).
Notation "m ;;; k" := (bind m (fun _ => k))
  (at level 100, k at level 200, right associativity, only parsing).

(** [for (const x of xs) { acc = body (acc, x) }] *)
Fixpoint forEach {A S} (body : S -> A -> M S) (xs : list A) (acc : S) : M S :=
  match xs with
  | [] => ret acc
  | x :: r => let* acc' := body acc x in forEach body r acc'
  end.

Definition VALID_TWEEN_PRESETS : list (string * TweenPreset) :=
  [("bounce", bounce); ("shake", shake); ("nod", nod)].

Definition presetName (p : TweenPreset) : string :=
  match p with bounce => "bounce" | shake => "shake" | nod => "nod" end.

Definition asNonEmptyString (value : jsval) : option string :=
  match value with
  | JStr s =>
      let trimmed := trim s in
      if isEmpty trimmed then None else Some trimmed
  | _ => None
  end.

Definition asIntegerInRange (value : jsval) (min max : Q) : option Q :=
  match value with
  | JNum q => if (isInteger q && inRange q min max)%bool then Some q else None
  | _ => None
  end.

Definition asNumberInRange (value : jsval) (min max : Q) : option Q :=
  match value with
  | JNum q => if inRange q min max then Some q else None
  | _ => None
  end.

Definition parseCooldown (value : jsval) (path : string) : M (option Q) :=
  if isUndefined value then ret None
  else
    match asIntegerInRange value 0 60000 with
    | None =>
        push (path +:+ ".cooldownMs must be an integer between 0 and 60000.") ;;;
        ret None
    | Some cooldownMs => ret (Some cooldownMs)
    end.

(** The recurring pattern
    [let x; if (raw !== undefined) { const value = conv (raw);
       if (value === null) errors.push (message); else x = value; }]. *)
Definition optionalField (raw : jsval) (conv : jsval -> option Q)
    (message : string) : M (option Q) :=
  if isUndefined raw then ret None
  else
    match conv raw with
    | None => push message ;;; ret None
    | Some value => ret (Some value)
    end.

Definition parseMotionAction (raw : jsval) (path : string)
    : M (option InputAction) :=
  let* rawGroup := get raw "group" in
  match asNonEmptyString rawGroup with
  | None => push (path +:+ ".group must be a non-empty string.") ;;; ret None
  | Some group =>
      let* rawIndex := get raw "index" in
      let* index := optionalField rawIndex (fun v => asIntegerInRange v 0 1024)
                 (path +:+ ".index must be an integer between 0 and 1024.") in
      let* rawPriority := get raw "priority" in
      let* priority := optionalField rawPriority (fun v => asIntegerInRange v 0 10)
                    (path +:+ ".priority must be an integer between 0 and 10.") in
      let* rawCooldown := get raw "cooldownMs" in
      let* cooldownMs := parseCooldown rawCooldown path in
      ret (Some (Motion group index priority cooldownMs))
  end.

(** [typeof raw.preset === "string" &&
     VALID_TWEEN_PRESETS.includes (raw.preset)] *)
Definition asPreset (value : jsval) : option TweenPreset :=
  match value with
  | JStr s => snd <$> List.find (fun p => String.eqb s (fst p)) VALID_TWEEN_PRESETS
  | _ => None
  end.

Definition parseTweenAction (raw : jsval) (path : string)
    : M (option InputAction) :=
  let* rawPreset := get raw "preset" in
  match asPreset rawPreset with
  | None =>
      push (path +:+ ".preset must be one of: bounce, shake, nod.") ;;; ret None
  | Some preset =>
      let* rawStrength := get raw "strength" in
      let* strength := optionalField rawStrength
                    (fun v => asNumberInRange v (5 # 100) 3)
                    (path +:+ ".strength must be a number between 0.05 and 3.") in
      let* rawCooldown := get raw "cooldownMs" in
      let* cooldownMs := parseCooldown rawCooldown path in
      ret (Some (Tween preset strength cooldownMs))
  end.

Definition parseAction (raw : jsval) (path : string) (allowCombo : bool)
    : M (option InputAction) :=
  if negb (isObject raw) then
    push (path +:+ " must be an object.") ;;; ret None
  else
    let* rawKind := get raw "kind" in
    match asNonEmptyString rawKind with
    | None => push (path +:+ ".kind must be a non-empty string.") ;;; ret None
    | Some kind =>
        if String.eqb kind "motion" then parseMotionAction raw path
        else if String.eqb kind "expression" then
          let* rawName := get raw "name" in
          match asNonEmptyString rawName with
          | None =>
              push (path +:+ ".name must be a non-empty string.") ;;; ret None
          | Some name =>
              let* rawCooldown := get raw "cooldownMs" in
              let* cooldownMs := parseCooldown rawCooldown path in
              ret (Some (Expression name cooldownMs))
          end
        else if String.eqb kind "tween" then parseTweenAction raw path
        else if String.eqb kind "combo" then
          if negb allowCombo then
            push (path +:+ ".kind=combo is not allowed in this context.") ;;;
            ret None
          else
            let* rawRuleId := get raw "ruleId" in
            match asNonEmptyString rawRuleId with
            | None =>
                push (path +:+ ".ruleId must be a non-empty string.") ;;;
                ret None
            | Some ruleId =>
                let* rawCooldown := get raw "cooldownMs" in
                let* cooldownMs := parseCooldown rawCooldown path in
                ret (Some (Combo ruleId cooldownMs))
            end
        else
          push (path +:+
                ".kind must be one of: motion, expression, tween, combo.") ;;;
          ret None
    end.

(** One iteration of the [for ... of Object.entries (raw)] loop of
    [parseKeyMap]; the state is the local [keyMap] object. *)
Definition parseKeyMapEntry (keyMap : gmap string InputAction)
    (entry : string * jsval) : M (gmap string InputAction) :=
  let '(input, actionRaw) := entry in
  let inputKey := trim input in
  if isEmpty inputKey then
    push "keyMap contains an empty input key." ;;; ret keyMap
  else
    let* parsed := parseAction actionRaw ("keyMap." +:+ inputKey) true in
    match parsed with
    | None => ret keyMap
    | Some action => ret (writeProp keyMap inputKey action)
    end.

Definition parseKeyMap (raw : jsval) : M (gmap string InputAction) :=
  let fallback := keyMap (cloneMotionConfig defaultMotionConfig) in
  if negb (isObject raw) then
    push "keyMap must be an object." ;;; ret fallback
  else
    let* keyMap := forEach parseKeyMapEntry (objectEntries raw) ∅ in
    if Nat.eqb (size keyMap) 0 then
      push "keyMap must contain at least one valid input action." ;;;
      ret fallback
    else ret keyMap.

(** One iteration of the [raw.forEach] of [parseComboRules]; the state is
    the pair of the local [comboRules] array and the [idSet]. *)
Definition parseComboRule (st : list ComboRule * gset string)
    (ix : nat * jsval) : M (list ComboRule * gset string) :=
  let '(comboRules, idSet) := st in
  let '(index, item) := ix in
  let path := "comboRules[" +:+ showNat index +:+ "]" in
  if negb (isObject item) then
    push (path +:+ " must be an object.") ;;; ret st
  else
    let* rawId := get item "id" in
    match asNonEmptyString rawId with
    | None => push (path +:+ ".id must be a non-empty string.") ;;; ret st
    | Some id =>
        if bool_decide (id ∈ idSet) then
          push (path +:+ ".id must be unique, duplicate: " +:+ id +:+ ".") ;;;
          ret st
        else
          let* rawSequence := get item "sequence" in
          if (negb (isArray rawSequence)
              || Nat.ltb (length (arrayItems rawSequence)) 2)%bool then
            push (path +:+ ".sequence must be an array with at least 2 inputs.") ;;;
            ret st
          else
            (* [.map (asNonEmptyString).filter (Boolean)] *)
            let sequence := omap asNonEmptyString (arrayItems rawSequence) in
            if negb (Nat.eqb (length sequence)
                             (length (arrayItems rawSequence))) then
              push (path +:+ ".sequence must contain only non-empty strings.") ;;;
              ret st
            else
              let* rawWithinMs := get item "withinMs" in
              match asIntegerInRange rawWithinMs 1 10000 with
              | None =>
                  push (path +:+
                        ".withinMs must be an integer between 1 and 10000.") ;;;
                  ret st
              | Some withinMs =>
                  let* rawAction := get item "action" in
                  let* action :=
                    parseAction rawAction (path +:+ ".action") false in
                  match action with
                  | Some action' =>
                      if isCombo action' then
                        push (path +:+
                              ".action must be motion/expression/tween.") ;;;
                        ret st
                      else
                        let* rawCooldown := get item "cooldownMs" in
                        let* cooldownMs := parseCooldown rawCooldown path in
                        ret ((comboRules ++
                              [ {| rule_id := id;
                                   rule_sequence := sequence;
                                   rule_withinMs := withinMs;
                                   rule_action := action';
                                   rule_cooldownMs := cooldownMs |} ])%list,
                             {[ id ]} ∪ idSet)
                  | None =>
                      push (path +:+
                            ".action must be motion/expression/tween.") ;;;
                      ret st
                  end
              end
    end.

Definition parseComboRules (raw : jsval) : M (list ComboRule) :=
  let fallback := comboRules (cloneMotionConfig defaultMotionConfig) in
  if isUndefined raw then ret fallback
  else if negb (isArray raw) then
    push "comboRules must be an array." ;;; ret fallback
  else
    let* st := forEach parseComboRule (indexed (arrayItems raw)) ([], ∅) in
    ret (fst st).

(** One iteration of the [raw.forEach] of [parseIdleActions]. *)
Definition parseIdleEntry (actions : list IdleEntry) (ix : nat * jsval)
    : M (list IdleEntry) :=
  let '(index, item) := ix in
  let path := "idle.actions[" +:+ showNat index +:+ "]" in
  if negb (isObject item) then
    push (path +:+ " must be an object.") ;;; ret actions
  else
    let* rawAction := get item "action" in
    let* action := parseAction rawAction (path +:+ ".action") false in
    match action with
    | Some action' =>
        if isCombo action' then
          push (path +:+ ".action must be motion/expression/tween.") ;;;
          ret actions
        else
          let* rawWeight := get item "weight" in
          let* weight :=
            optionalField rawWeight (fun v => asNumberInRange v (1 # 100) 100)
              (path +:+ ".weight must be a number between 0.01 and 100.") in
          ret (actions ++ [ {| entry_action := action';
                               entry_weight := weight |} ])%list
    | None =>
        push (path +:+ ".action must be motion/expression/tween.") ;;;
        ret actions
    end.

Definition parseIdleActions (raw : jsval) : M (list IdleEntry) :=
  let fallback := idle_actions (idle (cloneMotionConfig defaultMotionConfig)) in
  if (negb (isArray raw) || Nat.eqb (length (arrayItems raw)) 0)%bool then
    push "idle.actions must be a non-empty array." ;;; ret fallback
  else
    let* actions := forEach parseIdleEntry (indexed (arrayItems raw)) [] in
    if Nat.eqb (length actions) 0 then
      push "idle.actions has no valid entries." ;;; ret fallback
    else ret actions.

Definition parseIdleConfig (raw : jsval) : M IdleConfig :=
  let fallback := idle (cloneMotionConfig defaultMotionConfig) in
  if negb (isObject raw) then
    push "idle must be an object." ;;; ret fallback
  else
    let* rawEnabled := get raw "enabled" in
    let* enabled :=
      (if isUndefined rawEnabled then ret true
       else match rawEnabled with
            | JBool b => ret b
            | _ => push "idle.enabled must be a boolean." ;;; ret true
            end) in
    let* rawAfterMs := get raw "afterMs" in
    let afterMs := asIntegerInRange rawAfterMs 500 600000 in
    (match afterMs with
     | None => push "idle.afterMs must be an integer between 500 and 600000."
     | Some _ => ret tt
     end) ;;;
    let* rawIntervalMs := get raw "intervalMs" in
    let* intervalMs :=
      optionalField rawIntervalMs (fun v => asIntegerInRange v 100 600000)
        "idle.intervalMs must be an integer between 100 and 600000." in
    let* rawActions := get raw "actions" in
    let* actions := parseIdleActions rawActions in
    ret {| idle_enabled := enabled;
           idle_afterMs := default (idle_afterMs fallback) afterMs;
           idle_intervalMs := intervalMs;
           idle_actions := actions |}.

Record MotionConfigValidationResult : Type := mkResult {
  ok : bool;
  errors : list string;
  value : option MotionConfig;
}.

(** The part of [validateMotionConfig] that runs once the root is known
    to be an object. *)
Definition parseRoot (raw : jsval) : M MotionConfig :=
  let* rawVersion := get raw "version" in
  (if (negb (isUndefined rawVersion) && negb (strictEqOne rawVersion))%bool
   then push "version must be 1." else ret tt) ;;;
  let* rawKeyMap := get raw "keyMap" in
  let* keyMap := parseKeyMap rawKeyMap in
  let* rawComboRules := get raw "comboRules" in
  let* comboRules := parseComboRules rawComboRules in
  let* rawIdle := get raw "idle" in
  let* idle := parseIdleConfig rawIdle in
  ret {| keyMap := keyMap; comboRules := comboRules; idle := idle |}.

Definition validateMotionConfig (raw : jsval)
    : outcome MotionConfigValidationResult :=
  if negb (isObject raw) then
    Ret {| ok := false;
           errors := ["Motion config root must be an object."];
           value := None |}
  else
    match parseRoot raw with
    | Throw e => Throw e
    | Ret (value, errors) =>
        if Nat.ltb 0 (length errors) then
          Ret {| ok := false; errors := errors; value := None |}
        else
          Ret {| ok := true; errors := errors; value := Some value |}
    end.

(** [resolveMotionConfig]; the [console.error] line written on the
    fallback path is not part of the result. *)
Definition resolveMotionConfig (raw : jsval) : outcome MotionConfig :=
  match validateMotionConfig raw with
  | Throw e => Throw e
  | Ret result =>
      match ok result, value result with
      | true, Some value => Ret value
      | _, _ => Ret (cloneMotionConfig defaultMotionConfig)
      end
  end.

(** ** A configuration seen as a JavaScript value

    The object a [MotionConfig] is at run time, as the validator reads it
    when it is handed one: optional fields that are unset read as
    [undefined]. *)

Definition optNum (o : option Q) : jsval :=
  match o with Some q => JNum q | None => JUndefined end.

Definition actionToJs (a : InputAction) : jsval :=
  match a with
  | Motion group index priority cooldownMs =>
      JObj [("kind", JStr "motion"); ("group", JStr group);
            ("index", optNum index); ("priority", optNum priority);
            ("cooldownMs", optNum cooldownMs)]
  | Expression name cooldownMs =>
      JObj [("kind", JStr "expression"); ("name", JStr name);
            ("cooldownMs", optNum cooldownMs)]
  | Tween preset strength cooldownMs =>
      JObj [("kind", JStr "tween"); ("preset", JStr (presetName preset));
            ("strength", optNum strength); ("cooldownMs", optNum cooldownMs)]
  | Combo ruleId cooldownMs =>
      JObj [("kind", JStr "combo"); ("ruleId", JStr ruleId);
            ("cooldownMs", optNum cooldownMs)]
  end.

Definition ruleToJs (r : ComboRule) : jsval :=
  JObj [("id", JStr (rule_id r));
        ("sequence", JArr (map JStr (rule_sequence r)));
        ("withinMs", JNum (rule_withinMs r));
        ("action", actionToJs (rule_action r));
        ("cooldownMs", optNum (rule_cooldownMs r))].

Definition entryToJs (e : IdleEntry) : jsval :=
  JObj [("action", actionToJs (entry_action e));
        ("weight", optNum (entry_weight e))].

Definition idleToJs (i : IdleConfig) : jsval :=
  JObj [("enabled", JBool (idle_enabled i));
        ("afterMs", JNum (idle_afterMs i));
        ("intervalMs", optNum (idle_intervalMs i));
        ("actions", JArr (map entryToJs (idle_actions i)))].

Definition keyMapToJs (m : gmap string InputAction) : jsval :=
  JObj (map (fun '(k, a) => (k, actionToJs a)) (map_to_list m)).

Definition configToJs (c : MotionConfig) : jsval :=
  JObj [("version", JNum 1);
        ("keyMap", keyMapToJs (keyMap c));
        ("comboRules", JArr (map ruleToJs (comboRules c)));
        ("idle", idleToJs (idle c))].

(** ** Well-formed configurations

    The invariants of the data model, phrased with the validator's own
    field readers. *)

Definition validString (s : string) : Prop :=
  trim s = s /\ isEmpty s = false.

Definition validOpt (conv : jsval -> option Q) (o : option Q) : Prop :=
  match o with
  | None => True
  | Some q => conv (JNum q) = Some q
  end.

Definition validCooldown : option Q -> Prop :=
  validOpt (fun v => asIntegerInRange v 0 60000).

Definition wfAction (allowCombo : bool) (a : InputAction) : Prop :=
  match a with
  | Motion group index priority cooldownMs =>
      validString group /\
      validOpt (fun v => asIntegerInRange v 0 1024) index /\
      validOpt (fun v => asIntegerInRange v 0 10) priority /\
      validCooldown cooldownMs
  | Expression name cooldownMs => validString name /\ validCooldown cooldownMs
  | Tween preset strength cooldownMs =>
      validOpt (fun v => asNumberInRange v (5 # 100) 3) strength /\
      validCooldown cooldownMs
  | Combo ruleId cooldownMs =>
      allowCombo = true /\ validString ruleId /\ validCooldown cooldownMs
  end.

Definition wfRule (r : ComboRule) : Prop :=
  validString (rule_id r) /\
  2 <= length (rule_sequence r) /\
  Forall validString (rule_sequence r) /\
  asIntegerInRange (JNum (rule_withinMs r)) 1 10000 = Some (rule_withinMs r) /\
  wfAction false (rule_action r) /\
  validCooldown (rule_cooldownMs r).

Definition wfRules (rs : list ComboRule) : Prop :=
  Forall wfRule rs /\ NoDup (map rule_id rs).

Definition wfEntry (e : IdleEntry) : Prop :=
  wfAction false (entry_action e) /\
  validOpt (fun v => asNumberInRange v (1 # 100) 100) (entry_weight e).

Definition wfIdle (i : IdleConfig) : Prop :=
  asIntegerInRange (JNum (idle_afterMs i)) 500 600000 = Some (idle_afterMs i) /\
  validOpt (fun v => asIntegerInRange v 100 600000) (idle_intervalMs i) /\
  idle_actions i <> [] /\
  Forall wfEntry (idle_actions i).

Definition wfKeyMap (m : gmap string InputAction) : Prop :=
  m <> ∅ /\
  map_Forall
    (fun k a => (validString k /\ k <> "__proto__") /\ wfAction true a) m.

Definition wfConfig (c : MotionConfig) : Prop :=
  wfKeyMap (keyMap c) /\ wfRules (comboRules c) /\ wfIdle (idle c).

End Validator.

Export Validator.

(* ===================================================================== *)
(** * Object identity: [cloneMotionConfig] on a heap                      *)
(* ===================================================================== *)

(** Whether a clone shares objects with its original is a question about
    references, so the objects of a configuration are laid out in a heap.
    Strings, numbers and booleans are immutable values and are stored in
    the cell that holds them; every object and array is a cell of its own,
    referred to by its location. *)

Module CloneHeap.
Local Open Scope list_scope.

Abbreviation loc := nat (only parsing).

Inductive cell : Type :=
| CAction (a : InputAction)                    (* an action object *)
| CKeyMap (m : gmap string loc)                (* Record<string, InputAction> *)
| CStrings (l : list string)                   (* string[] *)
| CRule (id : string) (sequence : loc) (withinMs : Q) (action : loc)
        (cooldownMs : option Q)                (* a ComboRule *)
| CArray (l : list loc)                        (* an array of objects *)
| CEntry (action : loc) (weight : option Q)    (* an IdleEntry *)
| CIdle (enabled : bool) (afterMs : Q) (intervalMs : option Q)
        (actions : loc)                        (* the IdleConfig *)
| CConfig (keyMap comboRules idle : loc).      (* the MotionConfig *)

Abbreviation heap := (list cell) (only parsing).

(** A new object: a fresh location, the next free one. *)
Definition alloc (h : heap) (c : cell) : heap * loc := (h ++ [c], length h).

(** ** Reading a configuration off the heap

    [None] when the cells do not have the shape of the TypeScript types. *)

Definition decodeAction (h : heap) (l : loc) : option InputAction :=
  match h !! l with Some (CAction a) => Some a | _ => None end.

Definition decodeMap (h : heap) (m : gmap string loc)
    : option (gmap string InputAction) :=
  if decide (map_Forall (fun _ la => is_Some (decodeAction h la)) m)
  then Some (omap (decodeAction h) m) else None.

Definition decodeKeyMap (h : heap) (l : loc)
    : option (gmap string InputAction) :=
  match h !! l with Some (CKeyMap m) => decodeMap h m | _ => None end.

Definition decodeStrings (h : heap) (l : loc) : option (list string) :=
  match h !! l with Some (CStrings s) => Some s | _ => None end.

Definition decodeRule (h : heap) (l : loc) : option ComboRule :=
  match h !! l with
  | Some (CRule id ls w la cd) =>
      s ← decodeStrings h ls;
      a ← decodeAction h la;
      Some {| rule_id := id; rule_sequence := s; rule_withinMs := w;
              rule_action := a; rule_cooldownMs := cd |}
  | _ => None
  end.

Definition decodeEntry (h : heap) (l : loc) : option IdleEntry :=
  match h !! l with
  | Some (CEntry la w) =>
      a ← decodeAction h la;
      Some {| entry_action := a; entry_weight := w |}
  | _ => None
  end.

Definition decodeArray {A} (dec : heap -> loc -> option A) (h : heap)
    (l : loc) : option (list A) :=
  match h !! l with Some (CArray ls) => mapM (dec h) ls | _ => None end.

Definition decodeIdle (h : heap) (l : loc) : option IdleConfig :=
  match h !! l with
  | Some (CIdle en af iv lacts) =>
      acts ← decodeArray decodeEntry h lacts;
      Some {| idle_enabled := en; idle_afterMs := af;
              idle_intervalMs := iv; idle_actions := acts |}
  | _ => None
  end.

Definition decodeConfig (h : heap) (l : loc) : option MotionConfig :=
  match h !! l with
  | Some (CConfig lkm lrules lidle) =>
      km ← decodeKeyMap h lkm;
      rules ← decodeArray decodeRule h lrules;
      i ← decodeIdle h lidle;
      Some {| keyMap := km; comboRules := rules; idle := i |}
  | _ => None
  end.

(** ** The clone

    Each object literal and each [{}] or [[...]] of the source allocates.
    [None] is the [TypeError] of reading a field of something that is not
    the object the type promises. *)

(** [cloneAction (action)]: a new object with the same fields. *)
Definition cloneAction (h : heap) (l : loc) : option (heap * loc) :=
  match h !! l with
  | Some (CAction a) => Some (alloc h (CAction (Config.cloneAction a)))
  | _ => None
  end.

(** [for (const [input, action] of Object.entries (config.keyMap))
       keyMap[input] = cloneAction (action);]
    The object [keyMap] under construction has no alias until the loop
    ends; it is carried as a value and stored then. *)
Fixpoint cloneBindings (es : list (string * loc)) (h : heap)
    (keyMap : gmap string loc) : option (heap * gmap string loc) :=
  match es with
  | [] => Some (h, keyMap)
  | (input, la) :: r =>
      '(h1, la') ← cloneAction h la;
      cloneBindings r h1 (<[input := la']> keyMap)
  end.

(** [xs.map (f)] for an [f] that allocates. *)
Fixpoint cloneEach (f : heap -> loc -> option (heap * loc)) (ls : list loc)
    (h : heap) : option (heap * list loc) :=
  match ls with
  | [] => Some (h, [])
  | l :: r =>
      '(h1, l') ← f h l;
      '(h2, r') ← cloneEach f r h1;
      Some (h2, l' :: r')
  end.

(** The callback of [config.comboRules.map]. *)
Definition cloneRule (h : heap) (l : loc) : option (heap * loc) :=
  match h !! l with
  | Some (CRule id ls w la cd) =>
      match h !! ls with
      | Some (CStrings s) =>
          let '(h1, ls') := alloc h (CStrings s) in      (* [...rule.sequence] *)
          '(h2, la') ← cloneAction h1 la;
          Some (alloc h2 (CRule id ls' w la' cd))
      | _ => None
      end
  | _ => None
  end.

(** The callback of [config.idle.actions.map]. *)
Definition cloneEntry (h : heap) (l : loc) : option (heap * loc) :=
  match h !! l with
  | Some (CEntry la w) =>
      '(h1, la') ← cloneAction h la;
      Some (alloc h1 (CEntry la' w))
  | _ => None
  end.

Definition cloneMotionConfig (h : heap) (config : loc) : option (heap * loc) :=
  match h !! config with
  | Some (CConfig lkm lrules lidle) =>
      match h !! lkm, h !! lrules, h !! lidle with
      | Some (CKeyMap m), Some (CArray rules), Some (CIdle en af iv lacts) =>
          match h !! lacts with
          | Some (CArray entries) =>
              '(h1, keyMap) ← cloneBindings (map_to_list m) h ∅;
              let '(h2, lkm') := alloc h1 (CKeyMap keyMap) in
              '(h3, rules') ← cloneEach cloneRule rules h2;
              let '(h4, lrules') := alloc h3 (CArray rules') in
              '(h5, entries') ← cloneEach cloneEntry entries h4;
              let '(h6, lacts') := alloc h5 (CArray entries') in
              let '(h7, lidle') := alloc h6 (CIdle en af iv lacts') in
              Some (alloc h7 (CConfig lkm' lrules' lidle'))
          | _ => None
          end
      | _, _, _ => None
      end
  | _ => None
  end.

(** [contains h2 base ext]: the heap [h2] holds the cells [ext] at the
    locations [base], [base + 1], ... *)
Definition contains (h2 : heap) (base : nat) (ext : list cell) : Prop :=
  forall i c, ext !! i = Some c -> h2 !! (base + i) = Some c.

(** The references a cell holds, and the objects reachable from one. *)
Definition refs (c : cell) : list loc :=
  match c with
  | CAction _ | CStrings _ => []
  | CKeyMap m => (map_to_list m).*2
  | CRule _ ls _ la _ => [ls; la]
  | CArray ls => ls
  | CEntry la _ => [la]
  | CIdle _ _ _ lacts => [lacts]
  | CConfig lkm lrules lidle => [lkm; lrules; lidle]
  end.

Inductive reachable (h : heap) (root : loc) : loc -> Prop :=
| reach_root : reachable h root root
| reach_step l c l' :
    reachable h root l -> h !! l = Some c -> l' ∈ refs c ->
    reachable h root l'.

(** [deepClone h root c h' root']: in the heap [h'], the object [root']
    is a deep clone of the configuration [c] that [root] is in [h].
    - both read as [c];
    - no object reachable from the clone existed in [h];
    - overwriting any object reachable from the clone, with anything,
      leaves the original reading as [c];
    - more generally the original reads as [c] in every heap that agrees
      with [h] on the locations of [h]. *)
Definition deepClone (h : heap) (root : loc) (c : MotionConfig)
    (h' : heap) (root' : loc) : Prop :=
  decodeConfig h' root' = Some c /\
  decodeConfig h' root = Some c /\
  (forall l, reachable h' root' l -> length h <= l /\ h !! l = None) /\
  (forall l v, reachable h' root' l ->
     decodeConfig (<[l := v]> h') root = Some c) /\
  (forall h2, (forall l, l < length h -> h2 !! l = h !! l) ->
     decodeConfig h2 root = Some c).

(** An example heap: a configuration with one binding, one combo rule and
    one idle entry. *)
Definition exampleHeap : heap :=
  [ CAction (Motion "tap_left" (Some 0%Q) (Some 2%Q) (Some 120%Q));  (* 0 *)
    CKeyMap {[ "KeyA" := 0 ]};                                        (* 1 *)
    CStrings ["KeyA"; "KeyD"];                                        (* 2 *)
    CAction (Motion "combo_burst" None (Some 3%Q) (Some 500%Q));      (* 3 *)
    CRule "left-right-burst" 2 250%Q 3 (Some 700%Q);                  (* 4 *)
    CArray [4];                                                       (* 5 *)
    CAction (Expression "blink" None);                                (* 6 *)
    CEntry 6 (Some 1%Q);                                              (* 7 *)
    CArray [7];                                                       (* 8 *)
    CIdle true 8000%Q (Some 6000%Q) 8;                                (* 9 *)
    CConfig 1 5 9 ].                                                  (* 10 *)

Definition exampleConfig : MotionConfig :=
  {| keyMap := {[ "KeyA" := Motion "tap_left" (Some 0%Q) (Some 2%Q) (Some 120%Q) ]};
     comboRules :=
       [ {| rule_id := "left-right-burst";
            rule_sequence := ["KeyA"; "KeyD"];
            rule_withinMs := 250%Q;
            rule_action := Motion "combo_burst" None (Some 3%Q) (Some 500%Q);
            rule_cooldownMs := Some 700%Q |} ];
     idle :=
       {| idle_enabled := true;
          idle_afterMs := 8000%Q;
          idle_intervalMs := Some 6000%Q;
          idle_actions :=
            [ {| entry_action := Expression "blink" None;
                 entry_weight := Some 1%Q |} ] |} |}.

End CloneHeap.

(* ===================================================================== *)
(** * The motion engine ([handleInput], idle timer, fallback tween)       *)
(* ===================================================================== *)

Module MotionEngine.

(** ** Helpers *)

Definition lerp (from to t : Q) : Q := (from + (to - from) * t)%Q.

Definition easeOutCubic (t : Q) : Q := (1 - (1 - t) ^ 3)%Q.

Definition easeInOutQuad (t : Q) : Q :=
  if Qlt_le_dec t (1 # 2) then (2 * t * t)%Q
  else (1 - ((-2 * t + 2) ^ 2) / 2)%Q.

Definition keyAliases (key : string) : list string :=
  if String.eqb key "ArrowLeft" then ["LeftArrow"]
  else if String.eqb key "LeftArrow" then ["ArrowLeft"]
  else if String.eqb key "ArrowRight" then ["RightArrow"]
  else if String.eqb key "RightArrow" then ["ArrowRight"]
  else [].

(** [String.prototype.toLowerCase] on a code unit below 256: the
    letters A to Z and the capital letters from 192 to 222 (215, the
    multiplication sign, is not one) are 32 below their small letters. *)
Definition lowerChar (c : ascii) : ascii :=
  let n := nat_of_ascii c in
  if (Nat.leb 65 n && Nat.leb n 90)%bool then ascii_of_nat (n + 32)
  else if (Nat.leb 192 n && Nat.leb n 222 && negb (Nat.eqb n 215))%bool
       then ascii_of_nat (n + 32)
  else c.

Fixpoint toLowerCase (s : string) : string :=
  match s with
  | EmptyString => EmptyString
  | String c r => String (lowerChar c) (toLowerCase r)
  end.

(** [s.includes (sub)] *)
Fixpoint includes (s sub : string) : bool :=
  if String.prefix sub s then true
  else match s with
       | EmptyString => false
       | String _ r => includes r sub
       end.

Definition normalizeMouseBinding (button : option string) : option string :=
  match button with
  | None => None
  | Some b =>
      if isEmpty b then None
      else
        let normalized := toLowerCase b in
        if includes normalized "left" then Some "MouseLeft"
        else if includes normalized "right" then Some "MouseRight"
        else if includes normalized "middle" then Some "MouseMiddle"
        else None
  end.

(** The [MotionMap]: an object used as a map from binding names (and the
    reserved names [idle] and [idleTimeoutMs]) to values. *)
Abbreviation MotionMap := (gmap string jsval) (only parsing).

Fixpoint resolveCandidates (motionMap : MotionMap) (candidates : list string)
    : option string :=
  match candidates with
  | [] => None
  | key :: r =>
      match motionMap !! key with
      | Some (JStr mapped) =>
          if isEmpty (trim mapped) then resolveCandidates motionMap r
          else Some (trim mapped)
      | _ => resolveCandidates motionMap r
      end
  end.

Definition resolveBindingMotion (motionMap : MotionMap) (binding : string)
    : option string :=
  resolveCandidates motionMap (binding :: keyAliases binding).

Record IdleCandidate : Type := mkIdleCandidate {
  motion : string;
  weight : Q;
}.

(** One iteration of the loop of [parseIdleCandidates]. *)
Definition parseIdleCandidate (item : jsval) : option IdleCandidate :=
  match item with
  | JStr s =>
      if isEmpty (trim s) then None
      else Some {| motion := trim s; weight := 1 |}
  | JObj es =>
      (* [candidate.motion ?? candidate.name] *)
      let motionRaw :=
        match assoc "motion" es with
        | None | Some JUndefined | Some JNull =>
            match assoc "name" es with Some v => v | None => JUndefined end
        | Some v => v
        end in
      match motionRaw with
      | JStr s =>
          if isEmpty (trim s) then None
          else
            let weight :=
              match assoc "weight" es with
              | Some (JNum w) => clamp w (1 # 100) 100
              | _ => 1%Q
              end in
            Some {| motion := trim s; weight := weight |}
      | _ => None
      end
  | _ => None
  end.

Definition parseIdleCandidates (motionMap : MotionMap) : list IdleCandidate :=
  match motionMap !! "idle" with
  | Some (JArr raw) => omap parseIdleCandidate raw
  | _ => []
  end.

Definition DEFAULT_IDLE_TIMEOUT_MS : Q := 8000.

(** [Math.round] *)
Definition round (q : Q) : Q := inject_Z (Qfloor (q + (1 # 2))).

Definition resolveIdleTimeout (motionMap : MotionMap) : Q :=
  match motionMap !! "idleTimeoutMs" with
  | Some (JNum v) => round (clamp v 2000 60000)
  | _ => DEFAULT_IDLE_TIMEOUT_MS
  end.

(** The loop of [pickWeightedIdleMotion]. *)
Fixpoint drawTicket (candidates : list IdleCandidate) (ticket : Q)
    : option string :=
  match candidates with
  | [] => None
  | item :: r =>
      let ticket' := (ticket - weight item)%Q in
      if Qle_bool ticket' 0 then Some (motion item) else drawTicket r ticket'
  end.

(** [pickWeightedIdleMotion]; [random] is the value of [Math.random ()]. *)
Definition pickWeightedIdleMotion (candidates : list IdleCandidate)
    (random : Q) : option string :=
  match candidates with
  | [] => None
  | _ =>
      let totalWeight :=
        fold_left (fun sum item => (sum + weight item)%Q) candidates 0%Q in
      if Qle_bool totalWeight 0 then
        motion <$>
          candidates !! Z.to_nat (Qfloor (random * inject_Z (Z.of_nat (length candidates))))
      else
        match drawTicket candidates (random * totalWeight)%Q with
        | Some m => Some m
        | None => motion <$> last candidates
        end
  end.

(** ** State *)

(** The part of the model the engine writes: [scale], [rotation],
    [position]. *)
Record Transform : Type := mkTransform {
  scaleX : Q;
  scaleY : Q;
  rotation : Q;
  x : Q;
  y : Q;
}.

Record EngineState : Type := mkEngineState {
  lastInputAt : Q;
  lastIdleAt : Q;
  idleTimerId : Z;
  fallbackRafId : option nat;
  idlePlaying : bool;
  disposed : bool;
  settings : MotionMap;          (* [settings.motionMap] *)
}.

(** What the closure [animate] of one fallback tween captured. *)
Record Tween : Type := mkTween {
  origin : Transform;
  peak : Transform;
  startAt : Q;
}.

(** The world of one model: its transform, its [EngineState] object and
    whether [engineStateMap] holds it, the callbacks waiting for the next
    animation frame, the running interval timers, and the console.  A
    model has one state object at a time: after [disposeMotionEngine],
    [ensureEngineState] makes a new one. *)
Record World : Type := mkWorld {
  model : Transform;
  state : EngineState;
  registered : bool;
  rafQueue : list (nat * Tween);
  nextRafId : nat;
  intervals : list Z;
  nextTimerId : Z;
  console : list string;
}.

Definition setModel (w : World) (m : Transform) : World :=
  {| model := m; state := state w; registered := registered w;
     rafQueue := rafQueue w; nextRafId := nextRafId w;
     intervals := intervals w; nextTimerId := nextTimerId w;
     console := console w |}.

Definition setState (w : World) (s : EngineState) : World :=
  {| model := model w; state := s; registered := registered w;
     rafQueue := rafQueue w; nextRafId := nextRafId w;
     intervals := intervals w; nextTimerId := nextTimerId w;
     console := console w |}.

Definition setFallbackRafId (s : EngineState) (id : option nat) : EngineState :=
  {| lastInputAt := lastInputAt s; lastIdleAt := lastIdleAt s;
     idleTimerId := idleTimerId s; fallbackRafId := id;
     idlePlaying := idlePlaying s; disposed := disposed s;
     settings := settings s |}.

Definition setIdlePlaying (s : EngineState) (b : bool) : EngineState :=
  {| lastInputAt := lastInputAt s; lastIdleAt := lastIdleAt s;
     idleTimerId := idleTimerId s; fallbackRafId := fallbackRafId s;
     idlePlaying := b; disposed := disposed s; settings := settings s |}.

Definition setLastIdleAt (s : EngineState) (t : Q) : EngineState :=
  {| lastInputAt := lastInputAt s; lastIdleAt := t;
     idleTimerId := idleTimerId s; fallbackRafId := fallbackRafId s;
     idlePlaying := idlePlaying s; disposed := disposed s;
     settings := settings s |}.

Definition setLastInputAt (s : EngineState) (t : Q) : EngineState :=
  {| lastInputAt := t; lastIdleAt := lastIdleAt s;
     idleTimerId := idleTimerId s; fallbackRafId := fallbackRafId s;
     idlePlaying := idlePlaying s; disposed := disposed s;
     settings := settings s |}.

Definition setSettings (s : EngineState) (m : MotionMap) : EngineState :=
  {| lastInputAt := lastInputAt s; lastIdleAt := lastIdleAt s;
     idleTimerId := idleTimerId s; fallbackRafId := fallbackRafId s;
     idlePlaying := idlePlaying s; disposed := disposed s; settings := m |}.

(** [console.warn] / [console.error] *)
Definition log (w : World) (line : string) : World :=
  {| model := model w; state := state w; registered := registered w;
     rafQueue := rafQueue w; nextRafId := nextRafId w;
     intervals := intervals w; nextTimerId := nextTimerId w;
     console := (console w ++ [line])%list |}.

(** [requestAnimationFrame (animate)]: the callback is queued under a new
    id, which is returned. *)
Definition requestAnimationFrame (w : World) (tw : Tween) : World * nat :=
  ({| model := model w; state := state w; registered := registered w;
      rafQueue := (rafQueue w ++ [(nextRafId w, tw)])%list;
      nextRafId := S (nextRafId w);
      intervals := intervals w; nextTimerId := nextTimerId w;
      console := console w |},
   nextRafId w).

Definition cancelAnimationFrame (w : World) (id : nat) : World :=
  {| model := model w; state := state w; registered := registered w;
     rafQueue := List.filter (fun cb => negb (Nat.eqb (fst cb) id)) (rafQueue w);
     nextRafId := nextRafId w;
     intervals := intervals w; nextTimerId := nextTimerId w;
     console := console w |}.

(** ** The fallback tween *)

Definition upDuration : Q := 160.
Definition downDuration : Q := 220.

(** The frame callback [animate] of [triggerFallbackTween]. *)
Definition animate (tw : Tween) (now : Q) (w : World) : World :=
  if disposed (state w) then w
  else
    let o := origin tw in
    let p := peak tw in
    let elapsed := (now - startAt tw)%Q in
    if Qle_bool elapsed upDuration then
      let t := easeOutCubic (clamp (elapsed / upDuration) 0 1) in
      let w1 :=
        setModel w {| scaleX := lerp (scaleX o) (scaleX p) t;
                      scaleY := lerp (scaleY o) (scaleY p) t;
                      rotation := lerp (rotation o) (rotation p) t;
                      x := lerp (x o) (x p) t;
                      y := lerp (y o) (y p) t |} in
      let '(w2, id) := requestAnimationFrame w1 tw in
      setState w2 (setFallbackRafId (state w2) (Some id))
    else
      let downElapsed := (elapsed - upDuration)%Q in
      if Qle_bool downElapsed downDuration then
        let t := easeInOutQuad (clamp (downElapsed / downDuration) 0 1) in
        let w1 :=
          setModel w {| scaleX := lerp (scaleX p) (scaleX o) t;
                        scaleY := lerp (scaleY p) (scaleY o) t;
                        rotation := lerp (rotation p) (rotation o) t;
                        x := lerp (x p) (x o) t;
                        y := lerp (y p) (y o) t |} in
        let '(w2, id) := requestAnimationFrame w1 tw in
        setState w2 (setFallbackRafId (state w2) (Some id))
      else
        let w1 := setModel w o in
        setState w1 (setFallbackRafId (state w1) None).

(** [triggerFallbackTween (model, state, reason)]; [random] is the value
    of [Math.random ()] and [perfNow] that of [performance.now ()]. *)
Definition triggerFallbackTween (w : World) (reason : string)
    (random perfNow : Q) : World :=
  let w0 := log w ("[motion-engine] fallback tween: " +:+ reason) in
  let w1 :=
    match fallbackRafId (state w0) with
    | Some id =>
        let w' := cancelAnimationFrame w0 id in
        setState w' (setFallbackRafId (state w') None)
    | None => w0
    end in
  let o := model w1 in
  let direction := (if Qlt_le_dec (1 # 2) random then 1 else -1)%Q in
  let p := {| scaleX := (scaleX o * (1 + (8 # 100)))%Q;
              scaleY := (scaleY o * (1 - (6 # 100)))%Q;
              rotation := (rotation o + direction * (8 # 100))%Q;
              x := (x o + direction * 12)%Q;
              y := (y o - 6)%Q |} in
  let tw := {| origin := o; peak := p; startAt := perfNow |} in
  let '(w2, id) := requestAnimationFrame w1 tw in
  setState w2 (setFallbackRafId (state w2) (Some id)).

(** One animation frame of the browser at time [now]: the callbacks that
    were waiting run in order; those they request wait for the next
    frame. *)
Definition runAnimationFrame (now : Q) (w : World) : World :=
  let waiting := rafQueue w in
  let w0 :=
    {| model := model w; state := state w; registered := registered w;
       rafQueue := []; nextRafId := nextRafId w;
       intervals := intervals w; nextTimerId := nextTimerId w;
       console := console w |} in
  fold_left (fun acc cb => animate (snd cb) now acc) waiting w0.

(** ** Dispatch *)

(** What [await model.motion (name)] comes back with. *)
Inductive MotionAnswer : Type :=
| Started                 (* resolves to [true] *)
| NotStarted              (* resolves to [false] *)
| Raised.                 (* throws or rejects *)

(** The continuation of [playMotionOrFallback] after [await
    model.motion (motionName)], in whatever world it resumes. *)
Definition playMotionOrFallback_resume (w : World) (motionName reason : string)
    (answer : MotionAnswer) (random perfNow : Q) : World :=
  match answer with
  | Started => w
  | NotStarted =>
      let w1 := log w ("[motion-engine] motion returned false: " +:+ motionName) in
      triggerFallbackTween w1
        (reason +:+ " (" +:+ motionName +:+ " not started)") random perfNow
  | Raised =>
      let w1 := log w ("[motion-engine] motion failed: " +:+ motionName) in
      triggerFallbackTween w1
        (reason +:+ " (" +:+ motionName +:+ " failed)") random perfNow
  end.

(** [playMotionOrFallback (model, state, motionName, reason)], the call
    and its continuation run together; [answer] is the runtime's answer
    should [model.motion] be called. *)
Definition playMotionOrFallback (w : World) (motionName : option string)
    (reason : string) (answer : MotionAnswer) (random perfNow : Q) : World :=
  match motionName with
  | None => triggerFallbackTween w (reason +:+ " (no mapping)") random perfNow
  | Some name => playMotionOrFallback_resume w name reason answer random perfNow
  end.

(** ** Idle *)

(** [maybePlayIdle (model, state)]; [dateNow] is [Date.now ()] and
    [pick] the [Math.random ()] of the idle draw.  The boolean tells
    whether the call went past its guards and dispatched an idle
    action. *)
Definition maybePlayIdle (w : World) (dateNow pick : Q)
    (answer : MotionAnswer) (random perfNow : Q) : World * bool :=
  let s := state w in
  if (disposed s || idlePlaying s)%bool then (w, false)
  else
    let motionMap := settings s in
    let idleTimeout := resolveIdleTimeout motionMap in
    if Qlt_le_dec (dateNow - lastInputAt s) idleTimeout then (w, false)
    else if Qlt_le_dec (dateNow - lastIdleAt s) idleTimeout then (w, false)
    else
      let w1 := setState w (setLastIdleAt (setIdlePlaying s true) dateNow) in
      let idleMotion :=
        pickWeightedIdleMotion (parseIdleCandidates motionMap) pick in
      let w2 := playMotionOrFallback w1 idleMotion "idle" answer random perfNow in
      (setState w2 (setIdlePlaying (state w2) false), true).

(** ** Input *)

Record MotionEngineInputEvent : Type := mkEvent {
  ev_type : string;
  ev_keyCode : option string;
  ev_button : option string;
  ev_x : option Q;
  ev_y : option Q;
  ev_timestamp : option Q;       (* [None]: absent or not a finite number *)
}.

Definition IDLE_CHECK_INTERVAL_MS : Q := 1000.

(** [ensureEngineState (model, settings)]: the state held by
    [engineStateMap], or a new one with its idle timer. *)
Definition ensureEngineState (w : World) (motionMap : MotionMap)
    (dateNow : Q) : World :=
  if registered w then setState w (setSettings (state w) motionMap)
  else
    {| model := model w;
       state := {| lastInputAt := dateNow; lastIdleAt := 0;
                   idleTimerId := nextTimerId w; fallbackRafId := None;
                   idlePlaying := false; disposed := false;
                   settings := motionMap |};
       registered := true;
       rafQueue := rafQueue w; nextRafId := nextRafId w;
       intervals := (intervals w ++ [nextTimerId w])%list;
       nextTimerId := (nextTimerId w + 1)%Z;
       console := console w |}.

Definition isUserInputEvent (eventType : string) : bool :=
  (String.eqb eventType "KeyPress" || String.eqb eventType "KeyRelease"
   || String.eqb eventType "MouseMove" || String.eqb eventType "ButtonPress"
   || String.eqb eventType "ButtonRelease")%bool.

(** [handleInput (event, model, settings)] *)
Definition handleInput (event : MotionEngineInputEvent) (w : World)
    (motionMap : MotionMap) (dateNow : Q) (answer : MotionAnswer)
    (random perfNow : Q) : World :=
  let w0 := ensureEngineState w motionMap dateNow in
  let w1 := setState w0 (setSettings (state w0) motionMap) in
  let now := match ev_timestamp event with Some t => t | None => dateNow end in
  let w2 :=
    if isUserInputEvent (ev_type event)
    then setState w1 (setLastInputAt (state w1) now) else w1 in
  if String.eqb (ev_type event) "KeyPress" then
    match trim <$> ev_keyCode event with
    | Some keyCode =>
        if isEmpty keyCode then
          triggerFallbackTween w2 "keypress missing keyCode" random perfNow
        else
          let motionName := resolveBindingMotion motionMap keyCode in
          playMotionOrFallback w2 motionName ("keypress:" +:+ keyCode)
            answer random perfNow
    | None => triggerFallbackTween w2 "keypress missing keyCode" random perfNow
    end
  else if String.eqb (ev_type event) "ButtonPress" then
    let mouseBinding := normalizeMouseBinding (ev_button event) in
    let motionName :=
      match mouseBinding with
      | Some b => resolveBindingMotion motionMap b
      | None => None
      end in
    playMotionOrFallback w2 motionName
      ("mouse:" +:+
       match mouseBinding, ev_button event with
       | Some b, _ => b
       | None, Some b => b
       | None, None => "unknown"
       end)
      answer random perfNow
  else w2.

(** [disposeMotionEngine (model)] *)
Definition disposeMotionEngine (w : World) : World :=
  if negb (registered w) then w
  else
    let s := state w in
    let rafQueue' :=
      match fallbackRafId s with
      | Some id => List.filter (fun cb => negb (Nat.eqb (fst cb) id)) (rafQueue w)
      | None => rafQueue w
      end in
    {| model := model w;
       state := {| lastInputAt := lastInputAt s; lastIdleAt := lastIdleAt s;
                   idleTimerId := idleTimerId s;
                   fallbackRafId := fallbackRafId s;
                   idlePlaying := idlePlaying s; disposed := true;
                   settings := settings s |};
       registered := false;
       rafQueue := rafQueue';
       nextRafId := nextRafId w;
       intervals :=
         if (0 <=? idleTimerId s)%Z
         then List.filter (fun t => negb (Z.eqb t (idleTimerId s))) (intervals w)
         else intervals w;
       nextTimerId := nextTimerId w;
       console := console w |}.

(** ** What the settings panel reads from a motion map *)

Definition RESERVED_KEYS : list string := ["idle"; "idleTimeoutMs"].

(** [motionMapBindings (motionMap)]: the entries outside the reserved
    names whose value is a string. *)
Definition motionMapBindings (motionMap : MotionMap) : gmap string string :=
  foldl (fun acc entry =>
           match snd entry with
           | JStr value => writeProp acc (fst entry) value
           | _ => acc
           end)
        ∅
        (List.filter
           (fun entry => negb (existsb (String.eqb (fst entry)) RESERVED_KEYS))
           (map_to_list motionMap)).

Definition idleMotions (motionMap : MotionMap) : list IdleCandidate :=
  parseIdleCandidates motionMap.

(** [toIdleMotionItem (item)]: a candidate of weight 1 is written as its
    bare motion name. *)
Definition toIdleMotionItem (item : IdleCandidate) : jsval :=
  if Qeq_bool (weight item) 1 then JStr (motion item)
  else JObj [("motion", JStr (motion item)); ("weight", JNum (weight item))].

(** The frames the browser renders at the times [nows], in order. *)
Definition runAnimationFrames (nows : list Q) (w : World) : World :=
  fold_left (fun acc now => runAnimationFrame now acc) nows w.

(** ** Observations used by the properties *)

(** The world [w'] is just after a call of [triggerFallbackTween] with
    [reason]: the warning is the last console line, and the tween's first
    frame callback, which starts from the model's current transform, is
    the last one queued and is the one [state.fallbackRafId] names. *)
Definition fallbackTriggered (w' : World) (reason : string) : Prop :=
  last (console w') = Some ("[motion-engine] fallback tween: " +:+ reason) /\
  exists id tw,
    fallbackRafId (state w') = Some id /\
    last (rafQueue w') = Some (id, tw) /\
    origin tw = model w'.

(** At most one frame callback of a fallback tween waits, and it is the
    one [state.fallbackRafId] names. *)
Definition oneCallback (w : World) : Prop :=
  rafQueue w = [] \/
  exists id tw, rafQueue w = [(id, tw)] /\ fallbackRafId (state w) = Some id.

(** The idle timer of the engine's state runs, alone, exactly while the
    model is registered; timer ids are positive. *)
Definition oneTimer (w : World) : Prop :=
  (0 < nextTimerId w)%Z /\
  if registered w
  then intervals w = [idleTimerId (state w)] /\ (0 < idleTimerId (state w))%Z
  else intervals w = [].

(** The engine has its callbacks and its timer under control: at most
    one callback waits, one timer runs while the model is registered, and
    nothing waits or runs for a model that is not registered. *)
Definition engineInv (w : World) : Prop :=
  oneCallback w /\ oneTimer w /\ (registered w = false -> rafQueue w = []).

(** The engine state of [w] is in use: it is not disposed, and no frame
    callback waits but the one of its tween in flight, if there is
    one. *)
Definition engineLive (w : World) : Prop :=
  disposed (state w) = false /\ oneCallback w.

(** The world [w'] shows a fallback tween that was started at time
    [perfNow] on a model whose transform was [before]:
    - the model has not moved yet, and the tween's frame callback is the
      only one waiting;
    - every frame rendered up to 160 ms after the start lifts the model;
    - the frame rendered 160 ms after the start shows it 6 above and 12
      beside where it was, tilted by 0.08, wider by 8% and flatter by 6%;
    - whatever frames are rendered in between, the first frame later than
      380 ms after the start puts the model back where it was before the
      tween and leaves no callback waiting. *)
Definition visibleTween (before : Transform) (w' : World) (perfNow : Q) : Prop :=
  model w' = before /\
  (exists id tw,
     rafQueue w' = [(id, tw)] /\ fallbackRafId (state w') = Some id /\
     origin tw = before) /\
  (forall now,
     (0 < now - perfNow)%Q -> (now - perfNow <= 160)%Q ->
     (y (model (runAnimationFrame now w')) < y before)%Q) /\
  (let shown := model (runAnimationFrame (perfNow + 160) w') in
   (y shown == y before - 6)%Q /\
   (Qabs.Qabs (x shown - x before) == 12)%Q /\
   (Qabs.Qabs (rotation shown - rotation before) == 8 # 100)%Q /\
   (scaleX shown == scaleX before * (108 # 100))%Q /\
   (scaleY shown == scaleY before * (94 # 100))%Q) /\
  (forall nows final,
     (380 < final - perfNow)%Q ->
     let w'' := runAnimationFrame final (runAnimationFrames nows w') in
     model w'' = before /\ rafQueue w'' = []).

(** Modelled from the spec: the dispatch of an [Expression] action, which
    no file under [src/] holds ([config.ts] declares the action and
    validates it, nothing dispatches it).  Section 4.6: the dispatcher
    calls the expression-apply capability with the name; a [false] return
    and a raised failure both count as dispatch failure; on a dispatch
    failure the dispatcher triggers the fallback tween with a reason
    string.  [answer] is what the capability comes back with, and the
    fallback tween is the engine's [triggerFallbackTween]. *)
Definition dispatchExpression (w : World) (name reason : string)
    (answer : MotionAnswer) (random perfNow : Q) : World :=
  match answer with
  | Started => w
  | NotStarted | Raised => triggerFallbackTween w reason random perfNow
  end.

Definition keyPress (keyCode : string) (timestamp : Q) : MotionEngineInputEvent :=
  {| ev_type := "KeyPress"; ev_keyCode := Some keyCode; ev_button := None;
     ev_x := None; ev_y := None; ev_timestamp := Some timestamp |}.

(** A model at rest, before the engine has seen it. *)
Definition restTransform : Transform :=
  {| scaleX := 1; scaleY := 1; rotation := 0; x := 0; y := 0 |}.

Definition freshWorld : World :=
  {| model := restTransform;
     state := {| lastInputAt := 0; lastIdleAt := 0; idleTimerId := (-1)%Z;
                 fallbackRafId := None; idlePlaying := false;
                 disposed := false; settings := ∅ |};
     registered := false;
     rafQueue := []; nextRafId := 1;
     intervals := []; nextTimerId := 1%Z;
     console := [] |}.

(** A registered engine whose motion map sets an idle timeout of two
    seconds; the last input came at time 1000000 and an idle action was
    dispatched at time 1010000. *)
Definition idleWorld : World :=
  {| model := restTransform;
     state := {| lastInputAt := 1000000; lastIdleAt := 1010000;
                 idleTimerId := 1%Z;
                 fallbackRafId := None; idlePlaying := false;
                 disposed := false;
                 settings := <["idleTimeoutMs" := JNum 2000]>
                             (<["idle" := JArr [JStr "idle_1"]]> ∅) |};
     registered := true;
     rafQueue := []; nextRafId := 1;
     intervals := [1%Z]; nextTimerId := 2%Z;
     console := [] |}.

(** Two key presses of the unmapped [KeyZ], the second one 160 ms after
    the first, when the first tween is at its peak; then frames until the
    second tween has ended. *)
Definition keyAMap : MotionMap := {[ "KeyA" := JStr "tap_left" ]}.

Definition afterFirstPress : World :=
  handleInput (keyPress "KeyZ" 0) freshWorld keyAMap 0 Started (3 # 4) 0.

Definition atFirstPeak : World := runAnimationFrame 160 afterFirstPress.

Definition afterSecondPress : World :=
  handleInput (keyPress "KeyZ" 160) atFirstPeak keyAMap 160 Started (3 # 4) 160.

Definition afterSecondTween : World :=
  runAnimationFrame 541 (runAnimationFrame 540
    (runAnimationFrame 320 afterSecondPress)).

End MotionEngine.

(* ===================================================================== *)
(** * The combo detector                                                  *)
(* ===================================================================== *)

Module ComboDetector.
Local Open Scope list_scope.

(** A discrete input with its timestamp. *)
Abbreviation ComboEvent := (string * Q)%type (only parsing).

(** Modelled from the spec: the comparison of the combo detector, which
    the sources declare (the type [ComboRule]) but do not implement.
    The buffer, most recent event first, is read against the rule's
    sequence, most recent input first; the timestamps of the matched
    events are returned, most recent first. *)
Fixpoint matchRecentFirst (recent : list ComboEvent) (sequence : list string)
    {struct sequence} : option (list Q) :=
  match sequence with
  | [] => Some []
  | s :: sequence' =>
      match recent with
      | [] => None
      | (input, t) :: recent' =>
          if String.eqb input s
          then cons t <$> matchRecentFirst recent' sequence'
          else None
      end
  end.

(** Modelled from the spec: a rule matches when the tail of the buffer
    equals its sequence and the span from the first to the last matched
    event is at most [withinMs].  The buffer is kept oldest first. *)
Definition ruleMatches (rule : ComboRule) (buffer : list ComboEvent) : bool :=
  match matchRecentFirst (rev buffer) (rev (rule_sequence rule)) with
  | Some (tLast :: earlier) =>
      Qle_bool (tLast - List.last earlier tLast) (rule_withinMs rule)
  | _ => false
  end.

(** Modelled from the spec: the capacity of the buffer, an implementation
    choice at least as large as the longest configured sequence. *)
Definition capacity (rules : list ComboRule) : nat :=
  list_max (map (fun r => length (rule_sequence r)) rules).

(** Modelled from the spec: one discrete input.  It is appended to the
    bounded buffer; the first rule in configuration order that matches
    is returned (its action is then dispatched, subject to the cooldown
    tracker) and the buffer is cleared; otherwise the buffer is kept. *)
Definition onDiscreteInput (rules : list ComboRule)
    (buffer : list ComboEvent) (event : ComboEvent)
    : option ComboRule * list ComboEvent :=
  let buffer' := takeLast (capacity rules) (buffer ++ [event]) in
  match List.find (fun r => ruleMatches r buffer') rules with
  | Some rule => (Some rule, [])
  | None => (None, buffer')
  end.

End ComboDetector.

(* ===================================================================== *)
(** * The input queue of [PetStage]                                       *)
(* ===================================================================== *)

Module FrameScheduler.
Import MotionEngine.
Local Open Scope list_scope.

Abbreviation GlobalInputPayload := MotionEngineInputEvent (only parsing).

(** The refs of the component that hold pending input, and the frame
    counter of the browser. *)
Record InputQueue : Type := mkInputQueue {
  pendingDiscreteInput : list GlobalInputPayload;
  pendingMouseMove : option GlobalInputPayload;
  inputFrame : option nat;
  nextFrameId : nat;
}.

Definition isMouseMove (payload : GlobalInputPayload) : bool :=
  String.eqb (ev_type payload) "MouseMove".

Definition scheduleInputFrame (q : InputQueue) : InputQueue :=
  match inputFrame q with
  | Some _ => q
  | None =>
      {| pendingDiscreteInput := pendingDiscreteInput q;
         pendingMouseMove := pendingMouseMove q;
         inputFrame := Some (nextFrameId q);
         nextFrameId := S (nextFrameId q) |}
  end.

(** The listener of ["global-input"]. *)
Definition onGlobalInput (q : InputQueue) (payload : GlobalInputPayload)
    : InputQueue :=
  if isMouseMove payload then
    scheduleInputFrame
      {| pendingDiscreteInput := pendingDiscreteInput q;
         pendingMouseMove := Some payload;
         inputFrame := inputFrame q;
         nextFrameId := nextFrameId q |}
  else
    let shifted :=
      if Nat.leb 120 (length (pendingDiscreteInput q))
      then tail (pendingDiscreteInput q)            (* [.shift ()] *)
      else pendingDiscreteInput q in
    scheduleInputFrame
      {| pendingDiscreteInput := shifted ++ [payload];
         pendingMouseMove := pendingMouseMove q;
         inputFrame := inputFrame q;
         nextFrameId := nextFrameId q |}.

(** What one run of [flushInputInAnimationFrame] does to the outside:
    the payloads handed to [handleInput], in order, and the position
    handed to [handleMouseMove]. *)
Record Flushed : Type := mkFlushed {
  handled : list GlobalInputPayload;
  focused : option (Q * Q);
}.

Definition flushInputInAnimationFrame (q : InputQueue) (hasModel : bool)
    : InputQueue * Flushed :=
  let emptied :=
    {| pendingDiscreteInput := []; pendingMouseMove := None;
       inputFrame := None; nextFrameId := nextFrameId q |} in
  if negb hasModel then (emptied, {| handled := []; focused := None |})
  else
    let discreteEvents := pendingDiscreteInput q in
    match pendingMouseMove q with
    | None => (emptied, {| handled := discreteEvents; focused := None |})
    | Some mousePayload =>
        (emptied,
         {| handled := discreteEvents ++ [mousePayload];
            focused :=
              match ev_x mousePayload, ev_y mousePayload with
              | Some px, Some py => Some (px, py)
              | _, _ => None
              end |})
    end.

(** A queue with nothing pending and no frame requested: the queue when
    the listener is attached, and after every flush. *)
Definition idleQueue (n : nat) : InputQueue :=
  {| pendingDiscreteInput := []; pendingMouseMove := None;
     inputFrame := None; nextFrameId := n |}.

Definition emptyQueue : InputQueue := idleQueue 1.

(** The events that arrive between two frames, in order. *)
Definition arrive (q : InputQueue) (payloads : list GlobalInputPayload)
    : InputQueue :=
  fold_left onGlobalInput payloads q.

(** What happens at the stage: an event arrives, or the browser renders a
    frame (and runs the flush if one was requested). *)
Inductive StageStep : Type :=
| Arrives (payload : GlobalInputPayload)
| Frame.

Definition stageStep (q : InputQueue) (s : StageStep) : InputQueue :=
  match s with
  | Arrives payload => onGlobalInput q payload
  | Frame =>
      match inputFrame q with
      | Some _ => fst (flushInputInAnimationFrame q true)
      | None => q
      end
  end.

End FrameScheduler.

(* ===================================================================== *)
(** * The tween presets ([tweenPresets.ts])                               *)
(* ===================================================================== *)

Module TweenPresets.
Local Open Scope R_scope.

(** The [origin] record and the frames computed from it. *)
Record Frame : Type := mkFrame {
  x : R;
  y : R;
  scaleX : R;
  scaleY : R;
  rotation : R;
}.

(** [Math.min (max, Math.max (min, value))] *)
Definition clamp (value min max : R) : R := Rmin max (Rmax min value).

Definition getDuration (preset : TweenPreset) : R :=
  match preset with
  | bounce => 340
  | shake => 260
  | nod => 320
  end.

(** [Math.PI]: not pi but the floating-point number nearest to it,
    3.141592653589793115997963..., which is this fraction and lies just
    below pi.  [Math.sin] is taken to be the sine; [Math.sin (Math.PI)]
    is then the small positive number that the program sees (it prints
    as 1.2246e-16), and not zero. *)
Definition Math_PI : R := 884279719003555 / 281474976710656.

Definition applyFrame (preset : TweenPreset) (t strength : R) (origin : Frame)
    : Frame :=
  match preset with
  | bounce =>
      let lift := sin (t * Math_PI) * 16 * strength in
      let squash := 1 - sin (t * Math_PI) * (8 / 100) * strength in
      let stretch := 1 + sin (t * Math_PI) * (6 / 100) * strength in
      let tilt := sin (t * Math_PI) * (3 / 100) * strength in
      {| x := x origin;
         y := y origin - lift;
         scaleX := scaleX origin * stretch;
         scaleY := scaleY origin * squash;
         rotation := rotation origin + tilt |}
  | shake =>
      let damp := 1 - t in
      let wave := sin (t * Math_PI * 10) in
      let waveRot := sin (t * Math_PI * 8) in
      {| x := x origin + wave * 14 * strength * damp;
         y := y origin;
         scaleX := scaleX origin * (1 + Rabs wave * (2 / 100) * strength * damp);
         scaleY := scaleY origin * (1 - Rabs wave * (2 / 100) * strength * damp);
         rotation := rotation origin + waveRot * (8 / 100) * strength * damp |}
  | nod =>
      let damp := 1 - t in
      let wave := sin (t * Math_PI * 2) in
      let lift := Rmax 0 wave * 7 * strength * damp in
      {| x := x origin;
         y := y origin + lift;
         scaleX := scaleX origin;
         scaleY := scaleY origin;
         rotation := rotation origin + wave * (14 / 100) * strength * damp |}
  end.

(** The strength [applyTweenPreset] passes on, for a finite
    [rawStrength]. *)
Definition effectiveStrength (rawStrength : R) : R :=
  clamp rawStrength (5 / 100) 3.

(** ** [applyTweenPreset] on one target

    The target has a position, a scale and a rotation, all finite.  An
    [ActiveTween] object is known by the number [tw_id]; what its closures
    captured never changes and is kept with it, its mutable fields are
    kept in the stage: [rafId] next to the entry of [activeTweens], and
    [cancelled] as membership in [cancelledTweens]. *)

Record ActiveTween : Type := mkActiveTween {
  tw_id : nat;
  tw_preset : TweenPreset;
  tw_strength : R;
  tw_origin : Frame;             (* what [restore] writes back *)
  tw_startedAt : R;
}.

Record Stage : Type := mkStage {
  target : Frame;
  activeTweens : option (ActiveTween * nat);   (* the target's entry, with its [rafId] *)
  cancelledTweens : list nat;
  rafQueue : list (nat * ActiveTween);         (* [tick] callbacks waiting for a frame *)
  nextRafId : nat;
  nextTweenId : nat;
}.

Definition cancelActiveTween (st : Stage) : Stage :=
  match activeTweens st with
  | None => st
  | Some (existing, rafId) =>
      {| target := tw_origin existing;                       (* existing.restore () *)
         activeTweens := None;                               (* activeTweens.delete *)
         cancelledTweens := tw_id existing :: cancelledTweens st;
         rafQueue :=
           List.filter (fun cb => negb (Nat.eqb (fst cb) rafId)) (rafQueue st);
         nextRafId := nextRafId st;
         nextTweenId := nextTweenId st |}
  end.

(** [applyTweenPreset (target, preset, rawStrength)]; [now] is
    [performance.now ()]. *)
Definition applyTweenPreset (st : Stage) (preset : TweenPreset)
    (rawStrength now : R) : Stage :=
  let strength := effectiveStrength rawStrength in
  let st1 := cancelActiveTween st in
  let active :=
    {| tw_id := nextTweenId st1; tw_preset := preset; tw_strength := strength;
       tw_origin := target st1; tw_startedAt := now |} in
  {| target := target st1;
     activeTweens := Some (active, nextRafId st1);
     cancelledTweens := cancelledTweens st1;
     rafQueue := (rafQueue st1 ++ [(nextRafId st1, active)])%list;
     nextRafId := S (nextRafId st1);
     nextTweenId := S (nextTweenId st1) |}.

(** The frame callback [tick] of the tween [active]. *)
Definition tick (active : ActiveTween) (now : R) (st : Stage) : Stage :=
  if existsb (Nat.eqb (tw_id active)) (cancelledTweens st) then st
  else
    let t :=
      clamp ((now - tw_startedAt active) / getDuration (tw_preset active)) 0 1 in
    let frame :=
      applyFrame (tw_preset active) t (tw_strength active) (tw_origin active) in
    if Rlt_dec t 1 then
      {| target := frame;
         activeTweens :=
           match activeTweens st with
           | Some (a, _) =>
               if Nat.eqb (tw_id a) (tw_id active)
               then Some (a, nextRafId st) else activeTweens st
           | None => None
           end;
         cancelledTweens := cancelledTweens st;
         rafQueue := (rafQueue st ++ [(nextRafId st, active)])%list;
         nextRafId := S (nextRafId st);
         nextTweenId := nextTweenId st |}
    else
      {| target := tw_origin active;                         (* restore () *)
         activeTweens := None;                               (* activeTweens.delete *)
         cancelledTweens := cancelledTweens st;
         rafQueue := rafQueue st;
         nextRafId := nextRafId st;
         nextTweenId := nextTweenId st |}.

(** One animation frame of the browser at time [now]: the callbacks that
    were waiting run in order; those they request wait for the next
    frame. *)
Definition runAnimationFrame (now : R) (st : Stage) : Stage :=
  fold_left (fun acc cb => tick (snd cb) now acc) (rafQueue st)
    {| target := target st; activeTweens := activeTweens st;
       cancelledTweens := cancelledTweens st; rafQueue := [];
       nextRafId := nextRafId st; nextTweenId := nextTweenId st |}.

(** What happens to a target: a preset tween is started on it, or the
    browser renders a frame. *)
Inductive StageEvent : Type :=
| Apply (preset : TweenPreset) (rawStrength now : R)
| FrameAt (now : R).

Definition stageEvent (st : Stage) (e : StageEvent) : Stage :=
  match e with
  | Apply preset rawStrength now => applyTweenPreset st preset rawStrength now
  | FrameAt now => runAnimationFrame now st
  end.

Definition stageRun (events : list StageEvent) (st : Stage) : Stage :=
  fold_left stageEvent events st.

(** The transform of a target that was never moved. *)
Definition restFrame : Frame :=
  {| x := 0; y := 0; scaleX := 1; scaleY := 1; rotation := 0 |}.

(** A target with the transform [origin] on which no tween was started
    yet. *)
Definition atRest (origin : Frame) : Stage :=
  {| target := origin; activeTweens := None; cancelledTweens := [];
     rafQueue := []; nextRafId := 1; nextTweenId := 1 |}.

End TweenPresets.

(* ===================================================================== *)
(** * Loading a configuration ([loadMotionConfigFromUrl])                 *)
(* ===================================================================== *)

Module Loader.

(** What [fetch (url)] and [response.json ()] come back with. *)
Inductive FetchAnswer : Type :=
| FetchRejected                                    (* [fetch] rejects *)
| Response (ok : bool) (status : nat) (json : option jsval).
                                                   (* [None]: [json ()] rejects *)

(** [loadMotionConfigFromUrl (url)]; the [console.error] line written on
    the fallback path is not part of the result. *)
Definition loadMotionConfigFromUrl (answer : FetchAnswer)
    : outcome MotionConfig :=
  match answer with
  | FetchRejected => Ret (cloneMotionConfig defaultMotionConfig)
  | Response false _ _ =>
      (* [throw new Error (`HTTP ${response.status}`)], caught below *)
      Ret (cloneMotionConfig defaultMotionConfig)
  | Response true _ None => Ret (cloneMotionConfig defaultMotionConfig)
  | Response true _ (Some raw) =>
      match resolveMotionConfig raw with
      | Ret config => Ret config
      | Throw _ => Ret (cloneMotionConfig defaultMotionConfig)   (* [catch] *)
      end
  end.

End Loader.

(* ===================================================================== *)
(** * The stored settings ([settings.ts])                                 *)
(* ===================================================================== *)

Module Settings.
Local Open Scope list_scope.

(** The [MotionMap], as the engine reads it. *)
Abbreviation MotionMap := (gmap string jsval) (only parsing).

(** [Object.entries (value)] of an object or of an array. *)
Definition ownEntries (v : jsval) : list (string * jsval) :=
  match v with
  | JObj es => es
  | JArr items => map (fun ix => (showNat (fst ix), snd ix)) (indexed items)
  | _ => []
  end.

(** The property read [v.k] on a value that is not [null] or
    [undefined], for the names the program reads (none of which is an
    index, [length], or lives on a prototype). *)
Definition ownProp (v : jsval) (k : string) : jsval :=
  match v with
  | JObj es => match assoc k es with Some x => x | None => JUndefined end
  | _ => JUndefined
  end.

(** The optional read [v?.k]. *)
Definition optProp (v : jsval) (k : string) : jsval :=
  match v with
  | JUndefined | JNull => JUndefined
  | _ => ownProp v k
  end.

(** [v === null || v === undefined], the test of [??]. *)
Definition nullish (v : jsval) : bool :=
  match v with JUndefined | JNull => true | _ => false end.

Definition DEFAULT_IDLE_TIMEOUT_MS : Q := 8000.

Definition RESERVED_MOTION_KEYS : list string := ["idle"; "idleTimeoutMs"].

Definition DEFAULT_MOTION_MAP : MotionMap :=
  <["KeyA" := JStr "tap_left"]>
  (<["LeftArrow" := JStr "tap_left"]>
  (<["ArrowLeft" := JStr "tap_left"]>
  (<["KeyD" := JStr "tap_right"]>
  (<["RightArrow" := JStr "tap_right"]>
  (<["ArrowRight" := JStr "tap_right"]>
  (<["MouseLeft" := JStr "tap"]>
  (<["idle" := JArr [JStr "idle_1"; JStr "idle_2"]]>
  (<["idleTimeoutMs" := JNum DEFAULT_IDLE_TIMEOUT_MS]> ∅)))))))).

(** [cloneIdleMotionItem]: a string as it is, anything else spread into
    a new object. *)
Definition cloneIdleMotionItem (item : jsval) : jsval :=
  match item with
  | JStr _ => item
  | _ => JObj (ownEntries item)
  end.

Definition cloneMotionMap (map : MotionMap) : MotionMap :=
  foldl (fun cloned entry =>
           match snd entry with
           | JArr value =>
               writeProp cloned (fst entry)
                 (JArr (List.map cloneIdleMotionItem value))
           | value => writeProp cloned (fst entry) value
           end)
        ∅ (map_to_list map).

Definition defaultBindingEntries : list (string * jsval) :=
  List.filter
    (fun entry =>
       (negb (existsb (String.eqb (fst entry)) RESERVED_MOTION_KEYS)
        && match snd entry with JStr _ => true | _ => false end)%bool)
    (map_to_list DEFAULT_MOTION_MAP).

Definition normalizeBindingMotion (value : jsval) : option string :=
  match value with
  | JStr s => if isEmpty (trim s) then None else Some (trim s)
  | JObj _ | JArr _ =>
      (* the old format [{ group, index?, direction? }] *)
      match ownProp value "group" with
      | JStr group => if isEmpty (trim group) then None else Some (trim group)
      | _ => None
      end
  | _ => None
  end.

(** One iteration of the loop of [normalizeIdleList]: what is pushed, if
    anything. *)
Definition normalizeIdleItem (item : jsval) : option jsval :=
  match item with
  | JStr s => if isEmpty (trim s) then None else Some (JStr (trim s))
  | JObj _ | JArr _ =>
      let motionRaw :=
        if nullish (ownProp item "motion") then ownProp item "name"
        else ownProp item "motion" in
      match motionRaw with
      | JStr s =>
          if isEmpty (trim s) then None
          else
            let motion := trim s in
            match ownProp item "weight" with
            | JNum w =>
                let weight := clamp w (1 # 100) 100 in
                (* [weight ? { motion, weight } : { motion }] *)
                if Qeq_bool weight 0 then Some (JObj [("motion", JStr motion)])
                else Some (JObj [("motion", JStr motion);
                                 ("weight", JNum weight)])
            | _ => Some (JObj [("motion", JStr motion)])
            end
      | _ => None
      end
  | _ => None
  end.

Definition normalizeIdleList (raw : jsval) : list jsval :=
  let fallback :=
    match DEFAULT_MOTION_MAP !! "idle" with
    | Some (JArr items) => List.map cloneIdleMotionItem items
    | _ => []
    end in
  match raw with
  | JArr items =>
      let idle := omap normalizeIdleItem items in
      if Nat.eqb (length idle) 0 then fallback else idle
  | _ => fallback
  end.

(** The state of the loop of [normalizeMotionMap]: the local [map],
    [hasBinding] and [idleTimeoutMs]. *)
Record MapLoop : Type := mkMapLoop {
  loop_map : MotionMap;
  loop_hasBinding : bool;
  loop_idleTimeoutMs : option Q;
}.

(** One iteration of the [for ... of entries] loop of
    [normalizeMotionMap]. *)
Definition normalizeMotionMapEntry (st : MapLoop) (entry : string * jsval)
    : MapLoop :=
  let binding := trim (fst entry) in
  let value := snd entry in
  if isEmpty binding then st
  else if String.eqb binding "idle" then
    {| loop_map := <["idle" := JArr (normalizeIdleList value)]> (loop_map st);
       loop_hasBinding := loop_hasBinding st;
       loop_idleTimeoutMs := loop_idleTimeoutMs st |}
  else if String.eqb binding "idleTimeoutMs" then
    match value with
    | JNum v =>
        {| loop_map := loop_map st;
           loop_hasBinding := loop_hasBinding st;
           loop_idleTimeoutMs :=
             Some (MotionEngine.round (clamp v 2000 60000)) |}
    | _ => st
    end
  else
    match normalizeBindingMotion value with
    | None => st
    | Some motion =>
        {| loop_map := writeProp (loop_map st) binding (JStr motion);
           loop_hasBinding := true;
           loop_idleTimeoutMs := loop_idleTimeoutMs st |}
    end.

Definition normalizeMotionMap (raw : jsval) : MotionMap :=
  match raw with
  | JObj _ | JArr _ =>
      let st :=
        foldl normalizeMotionMapEntry
          {| loop_map := ∅; loop_hasBinding := false;
             loop_idleTimeoutMs := None |}
          (ownEntries raw) in
      let map1 :=
        if loop_hasBinding st then loop_map st
        else foldl (fun map entry => writeProp map (fst entry) (snd entry))
               (loop_map st) defaultBindingEntries in
      (* [map.idle ?? raw.idle] *)
      let idleRaw :=
        match map1 !! "idle" with
        | Some v => if nullish v then ownProp raw "idle" else v
        | None => ownProp raw "idle"
        end in
      let map2 := <["idle" := JArr (normalizeIdleList idleRaw)]> map1 in
      match loop_idleTimeoutMs st with
      | Some idleTimeoutMs => <["idleTimeoutMs" := JNum idleTimeoutMs]> map2
      | None =>
          match ownProp raw "idleTimeoutMs" with
          | JNum v =>
              <["idleTimeoutMs" :=
                  JNum (MotionEngine.round (clamp v 2000 60000))]> map2
          | _ =>
              <["idleTimeoutMs" :=
                  match DEFAULT_MOTION_MAP !! "idleTimeoutMs" with
                  | Some (JNum v) => JNum v
                  | Some JNonFinite => JNonFinite
                  | _ => JNum DEFAULT_IDLE_TIMEOUT_MS
                  end]> map2
          end
      end
  | _ => cloneMotionMap DEFAULT_MOTION_MAP
  end.

Record DisplayProfile : Type := mkDisplayProfile {
  windowX : Q;
  windowY : Q;
  profile_scale : Q;
}.

Record PetSettings : Type := mkPetSettings {
  modelPath : string;
  scale : Q;
  pos_x : Q;
  pos_y : Q;
  motionMap : MotionMap;
}.

Definition DEFAULT_PET_SETTINGS : PetSettings :=
  {| modelPath := "/models/default/model.model3.json";
     scale := 1; pos_x := 0; pos_y := 0;
     motionMap := DEFAULT_MOTION_MAP |}.

(** One iteration of the loop of [normalizeDisplayProfiles]. *)
Definition normalizeDisplayProfile (profiles : gmap string DisplayProfile)
    (entry : string * jsval) : gmap string DisplayProfile :=
  let monitorKey := fst entry in
  let candidate := snd entry in
  match candidate with
  | JObj _ | JArr _ =>
      match ownProp candidate "windowX", ownProp candidate "windowY" with
      | JNum wx, JNum wy =>
          let scale :=
            match ownProp candidate "scale" with
            | JNum s => clamp s (2 # 10) 3
            | _ => scale DEFAULT_PET_SETTINGS
            end in
          writeProp profiles monitorKey
            {| windowX := MotionEngine.round wx;
               windowY := MotionEngine.round wy;
               profile_scale := scale |}
      | _, _ => profiles
      end
  | _ => profiles
  end.

Definition normalizeDisplayProfiles (raw : jsval) : gmap string DisplayProfile :=
  match raw with
  | JObj _ | JArr _ => foldl normalizeDisplayProfile ∅ (ownEntries raw)
  | _ => ∅
  end.

Definition normalizePetSettings (raw : jsval) : PetSettings :=
  {| modelPath :=
       match optProp raw "modelPath" with
       | JStr s =>
           if isEmpty (trim s) then modelPath DEFAULT_PET_SETTINGS else trim s
       | _ => modelPath DEFAULT_PET_SETTINGS
       end;
     scale :=
       match optProp raw "scale" with
       | JNum v => clamp v (2 # 10) 3
       | _ => scale DEFAULT_PET_SETTINGS
       end;
     pos_x :=
       match optProp (optProp raw "pos") "x" with
       | JNum v => clamp v (-600) 600
       | _ => pos_x DEFAULT_PET_SETTINGS
       end;
     pos_y :=
       match optProp (optProp raw "pos") "y" with
       | JNum v => clamp v (-600) 600
       | _ => pos_y DEFAULT_PET_SETTINGS
       end;
     motionMap := normalizeMotionMap (optProp raw "motionMap") |}.

Record WindowInteractionPrefs : Type := mkWindowInteractionPrefs {
  locked : bool;
  snapEnabled : bool;
  displayProfiles : gmap string DisplayProfile;
}.

Definition DEFAULT_WINDOW_INTERACTION_PREFS : WindowInteractionPrefs :=
  {| locked := true; snapEnabled := true; displayProfiles := ∅ |}.

Definition normalizeWindowInteractionPrefs (raw : jsval)
    : WindowInteractionPrefs :=
  {| locked :=
       match optProp raw "locked" with
       | JBool b => b
       | _ => locked DEFAULT_WINDOW_INTERACTION_PREFS
       end;
     snapEnabled :=
       match optProp raw "snapEnabled" with
       | JBool b => b
       | _ => snapEnabled DEFAULT_WINDOW_INTERACTION_PREFS
       end;
     displayProfiles := normalizeDisplayProfiles (optProp raw "displayProfiles") |}.

(** ** Settings seen as JavaScript values

    The object a [PetSettings] is at run time.  The properties of the
    motion map are enumerated in some order, [entries]. *)

Definition petSettingsToJs (s : PetSettings) (entries : list (string * jsval))
    : jsval :=
  JObj [("modelPath", JStr (modelPath s));
        ("scale", JNum (scale s));
        ("pos", JObj [("x", JNum (pos_x s)); ("y", JNum (pos_y s))]);
        ("motionMap", JObj entries)].

Definition displayProfileToJs (p : DisplayProfile) : jsval :=
  JObj [("windowX", JNum (windowX p)); ("windowY", JNum (windowY p));
        ("scale", JNum (profile_scale p))].

(** The object a [WindowInteractionPrefs] is at run time; the display
    profiles are enumerated in some order, [entries]. *)
Definition windowInteractionPrefsToJs (p : WindowInteractionPrefs)
    (entries : list (string * DisplayProfile)) : jsval :=
  JObj [("locked", JBool (locked p));
        ("snapEnabled", JBool (snapEnabled p));
        ("displayProfiles",
         JObj (List.map (fun e => (fst e, displayProfileToJs (snd e)))
                 entries))].

(** [entries] enumerates the properties of the object [m]: each once, in
    some order. *)
Definition enumerates {A} (entries : list (string * A)) (m : gmap string A)
    : Prop :=
  NoDup entries.*1 /\ list_to_map entries = m.

End Settings.

(* ===================================================================== *)
(** * Window placement ([windowInteraction.ts])                           *)
(* ===================================================================== *)

Module WindowInteraction.

Record WindowPosition : Type := mkWindowPosition {
  x : Q;
  y : Q;
}.

(** The fields of a [Monitor] the module reads: [workArea.position] and
    [workArea.size]. *)
Record Monitor : Type := mkMonitor {
  workArea_x : Q;
  workArea_y : Q;
  workArea_width : Q;
  workArea_height : Q;
}.

Record PhysicalSize : Type := mkPhysicalSize {
  width : Q;
  height : Q;
}.

Record Bounds : Type := mkBounds {
  left : Q;
  top : Q;
  right : Q;
  bottom : Q;
}.

Definition workAreaBounds (monitor : Monitor) (windowSize : PhysicalSize)
    : Bounds :=
  let left := workArea_x monitor in
  let top := workArea_y monitor in
  {| left := left;
     top := top;
     right := (left + workArea_width monitor - width windowSize)%Q;
     bottom := (top + workArea_height monitor - height windowSize)%Q |}.

Definition clampPositionToMonitor (position : WindowPosition)
    (monitor : Monitor) (windowSize : PhysicalSize) : WindowPosition :=
  let bounds := workAreaBounds monitor windowSize in
  {| x := MotionEngine.round (clamp (x position) (left bounds) (right bounds));
     y := MotionEngine.round (clamp (y position) (top bounds) (bottom bounds)) |}.

(** What [snapPositionToEdges] does on one axis: the coordinate, and
    whether it snapped; [lo] is the left or top bound, [hi] the right or
    bottom one. *)
Definition snapAxis (value lo hi threshold : Q) : Q * bool :=
  if Qlt_le_dec (Qabs.Qabs (value - lo)) threshold then (lo, true)
  else if Qlt_le_dec (Qabs.Qabs (hi - value)) threshold then (hi, true)
  else (value, false).

Record Snapped : Type := mkSnapped {
  snapped : bool;
  position : WindowPosition;
}.

Definition snapPositionToEdges (position : WindowPosition) (monitor : Monitor)
    (windowSize : PhysicalSize) (threshold : Q) : Snapped :=
  let bounds := workAreaBounds monitor windowSize in
  let sx := snapAxis (x position) (left bounds) (right bounds) threshold in
  let sy := snapAxis (y position) (top bounds) (bottom bounds) threshold in
  {| snapped := (snd sx || snd sy)%bool;
     position := {| x := MotionEngine.round (fst sx);
                    y := MotionEngine.round (fst sy) |} |}.

Definition positionsEqual (a b : WindowPosition) : bool :=
  (Qeq_bool (x a) (x b) && Qeq_bool (y a) (y b))%bool.

End WindowInteraction.

(* ===================================================================== *)
(** * The pointer focus of [PetStage] and the model root of the settings
      panel                                                               *)
(* ===================================================================== *)

Module PetStage.

(** [handleMouseMove (x, y)]: the point handed to [model.focus];
    [screenX], [screenY] are [window.screenX], [window.screenY] and
    [rendererWidth], [rendererHeight] the size of the renderer. *)
Definition handleMouseMove (x y screenX screenY rendererWidth rendererHeight : Q)
    : Q * Q :=
  let viewportWidth := Qmax rendererWidth 1 in
  let viewportHeight := Qmax rendererHeight 1 in
  let localX := (x - screenX)%Q in
  let localY := (y - screenY)%Q in
  let normalizedX := clamp ((localX / viewportWidth) * 2 - 1) (-1) 1 in
  let normalizedY := clamp ((localY / viewportHeight) * 2 - 1) (-1) 1 in
  ((localX + normalizedX * 20)%Q, (localY + normalizedY * 16)%Q).

End PetStage.

Module SettingsPanel.

(** [s.lastIndexOf (c)] for a one-character [c]: the index of the last
    occurrence, or -1. *)
Fixpoint lastIndexOf (c : ascii) (s : string) : Z :=
  match s with
  | EmptyString => (-1)%Z
  | String a r =>
      let i := lastIndexOf c r in
      if (0 <=? i)%Z then (i + 1)%Z
      else if Ascii.eqb a c then 0%Z else (-1)%Z
  end.

(** [dirname (path)] *)
Definition dirname (path : string) : string :=
  let separatorIndex :=
    Z.max (lastIndexOf "/" path) (lastIndexOf "\" path) in
  if (0 <? separatorIndex)%Z
  then String.substring 0 (Z.to_nat separatorIndex) path
  else path.

End SettingsPanel.

(* ===================================================================== *)
(** * Listing the motions and expressions of a model ([modelAdapter.ts])  *)
(* ===================================================================== *)

(** The model is seen as data: an object is its own properties.  The
    property names read here ([internalModel], [settings], [motions],
    [name], [group], ...) are not array indices and do not live on a
    prototype. *)
Module ModelAdapter.
Local Open Scope list_scope.

(** [typeof value === "object" && value !== null]: arrays included. *)
Definition isObject (value : jsval) : bool :=
  match value with JObj _ | JArr _ => true | _ => false end.

(** [readPath (root, path)] *)
Fixpoint readPath (cursor : jsval) (path : list string) : jsval :=
  match path with
  | [] => cursor
  | key :: rest =>
      match cursor with
      | JObj es =>
          match assoc key es with
          | Some value => readPath value rest
          | None => JUndefined                     (* [!(key in cursor)] *)
          end
      | _ => JUndefined
      end
  end.

(** A [Set<string>]: its elements in insertion order, each once. *)
Definition add (target : list string) (name : string) : list string :=
  if bool_decide (name ∈ target) then target else target ++ [name].

Definition addName (target : list string) (value : jsval) : list string :=
  match value with
  | JStr s =>
      let trimmed := trim s in
      if isEmpty trimmed then target else add target trimmed
  | _ => target
  end.

Definition addNameFromEntry (target : list string) (entry : jsval)
    : list string :=
  if negb (isObject entry) then target
  else
    let t1 := addName target (Settings.ownProp entry "name") in
    let t2 := addName t1 (Settings.ownProp entry "Name") in
    let t3 := addName t2 (Settings.ownProp entry "id") in
    let t4 := addName t3 (Settings.ownProp entry "Id") in
    let t5 := addName t4 (Settings.ownProp entry "group") in
    addName t5 (Settings.ownProp entry "Group").

Definition isDigit (c : ascii) : bool :=
  let n := nat_of_ascii c in (Nat.leb 48 n && Nat.leb n 57)%bool.

Fixpoint allDigits (s : string) : bool :=
  match s with
  | EmptyString => true
  | String c r => (isDigit c && allDigits r)%bool
  end.

(** [/^\d+$/.test (s)] *)
Definition isDigits (s : string) : bool :=
  (negb (isEmpty s) && allDigits s)%bool.

Definition collectRecordKeys (target : list string) (value : jsval)
    : list string :=
  match value with
  | JObj es =>
      fold_left
        (fun target key =>
           let trimmed := trim key in
           if isEmpty trimmed then target
           else if isDigits trimmed then target
           else add target trimmed)
        (List.map fst es) target
  | _ => target
  end.

Definition collectMotionsFromCandidate (target : list string)
    (candidate : jsval) : list string :=
  match candidate with
  | JArr items => fold_left addNameFromEntry items target
  | JObj es =>
      let target1 := collectRecordKeys target candidate in
      fold_left
        (fun target value =>
           match value with
           | JArr items => fold_left addNameFromEntry items target
           | _ => target
           end)
        (List.map snd es) target1
  | _ => target
  end.

Definition collectExpressionsFromCandidate (target : list string)
    (candidate : jsval) : list string :=
  match candidate with
  | JArr items =>
      fold_left
        (fun target item =>
           match item with
           | JStr _ => addName target item
           | _ => addNameFromEntry target item
           end)
        items target
  | JObj es =>
      let target1 := collectRecordKeys target candidate in
      fold_left
        (fun target value =>
           match value with
           | JArr items => fold_left addNameFromEntry items target
           | JObj _ => addNameFromEntry target value
           | _ => target
           end)
        (List.map snd es) target1
  | _ => target
  end.

Section Sorting.

(** [a.localeCompare (b)], by its sign; a total preorder that depends on
    the locale of the host. *)
Variable localeCompare : string -> string -> comparison.

Fixpoint insertSorted (x : string) (sorted : list string) : list string :=
  match sorted with
  | [] => [x]
  | y :: rest =>
      match localeCompare x y with
      | Lt => x :: y :: rest
      | _ => y :: insertSorted x rest
      end
  end.

(** [[...names].sort ((a, b) => a.localeCompare (b))]: a stable sort. *)
Definition uniqueSorted (names : list string) : list string :=
  fold_left (fun sorted x => insertSorted x sorted) names [].

(** [listMotions ()]; on a model that is data no read can raise, and the
    [catch] branch is not taken. *)
Definition listMotions (model : jsval) : list string :=
  let candidates :=
    [ readPath model ["internalModel"; "settings"; "motions"];
      readPath model ["internalModel"; "settings"; "Motions"];
      readPath model ["internalModel"; "settings"; "json"; "motions"];
      readPath model ["internalModel"; "motionManager"; "definitions"];
      readPath model ["internalModel"; "motionManager"; "_definitions"] ] in
  uniqueSorted (fold_left collectMotionsFromCandidate candidates []).

Definition listExpressions (model : jsval) : list string :=
  let candidates :=
    [ readPath model ["internalModel"; "settings"; "expressions"];
      readPath model ["internalModel"; "settings"; "Expressions"];
      readPath model ["internalModel"; "settings"; "json"; "expressions"];
      readPath model ["internalModel"; "motionManager"; "expressionManager";
                      "definitions"];
      readPath model ["internalModel"; "motionManager"; "expressionManager";
                      "settings"; "expressions"] ] in
  uniqueSorted (fold_left collectExpressionsFromCandidate candidates []).

End Sorting.

End ModelAdapter.

(* ===================================================================== *)
(** * Facts about strings and numbers                                     *)
(* ===================================================================== *)

Module JsFacts.

Lemma trimStart_head s c r : trimStart s = String c r -> is_ws c = false.
Proof.
  induction s as [|a s IH]; simpl; [discriminate|].
  destruct (is_ws a) eqn:Ha; [exact IH|].
  intros [= -> _]. exact Ha.
Qed.

Lemma trimEnd_head s c r : trimEnd s = String c r -> exists r0, s = String c r0.
Proof.
  destruct s as [|a s]; simpl; [discriminate|].
  destruct (trimEnd s); [destruct (is_ws a)|]; intros [= -> _]; eauto.
Qed.

Lemma trimEnd_idem s : trimEnd (trimEnd s) = trimEnd s.
Proof.
  induction s as [|a s IH]; simpl; [reflexivity|].
  destruct (trimEnd s) as [|b t] eqn:E.
  - destruct (is_ws a) eqn:Ha; simpl; [reflexivity|]. now rewrite Ha.
  - change (trimEnd (String a (String b t))) with
      (match trimEnd (String b t) with
       | EmptyString => if is_ws a then EmptyString else String a EmptyString
       | r' => String a r'
       end).
    now rewrite IH.
Qed.

Lemma trim_idem s : trim (trim s) = trim s.
Proof.
  unfold trim at 2 3.
  destruct (trimEnd (trimStart s)) as [|c r] eqn:E; [reflexivity|].
  destruct (trimEnd_head _ _ _ E) as [r0 E0].
  pose proof (trimStart_head _ _ _ E0) as Hc.
  unfold trim. simpl trimStart. rewrite Hc, <- E. apply trimEnd_idem.
Qed.

Lemma isInteger_inject_Z z : isInteger (inject_Z z) = true.
Proof. unfold isInteger; simpl. now rewrite Z.mod_1_r. Qed.

End JsFacts.

(* ===================================================================== *)
(** * The validator: totality, result shape, idempotence                  *)
(* ===================================================================== *)

Module ValidatorFacts.
Import JsFacts.

(** ** The monad *)

(** [returns m]: running [m] ends without an exception. *)
Definition returns {A} (m : M A) : Prop := exists a es, m = Ret (a, es).

Lemma returns_ret {A} (a : A) : returns (ret a).
Proof. now exists a, []. Qed.

Lemma returns_push s : returns (push s).
Proof. now exists tt, [s]. Qed.

Lemma returns_bind {A B} (m : M A) (k : A -> M B) :
  returns m -> (forall a, returns (k a)) -> returns (bind m k).
Proof.
  intros (a & es & ->) Hk. destruct (Hk a) as (b & es' & Hb).
  exists b, (es ++ es')%list. unfold bind. now rewrite Hb.
Qed.

Lemma returns_get_obj es k : returns (get (JObj es) k).
Proof. apply returns_ret. Qed.

Lemma returns_forEach {A S} (body : S -> A -> M S) xs :
  (forall s x, returns (body s x)) -> forall s, returns (forEach body xs s).
Proof.
  intros Hb. induction xs as [|x xs IH]; intros s; simpl.
  - apply returns_ret.
  - apply returns_bind; [apply Hb | apply IH].
Qed.

Lemma bind_ret_l {A B} (a : A) (k : A -> M B) : bind (ret a) k = k a.
Proof. unfold bind, ret. now destruct (k a) as [[b es]|e]. Qed.

(** A run that pushed nothing is made of runs that pushed nothing. *)
Lemma bind_ret_nil {A B} (m : M A) (k : A -> M B) b :
  bind m k = Ret (b, []) -> exists a, m = Ret (a, []) /\ k a = Ret (b, []).
Proof.
  unfold bind. destruct m as [[a es]|e]; [|discriminate].
  destruct (k a) as [[b' es']|e'] eqn:Hk; [|discriminate].
  intros [= -> H]. apply app_eq_nil in H as [-> ->]. eauto.
Qed.

Lemma push_then_not_nil {A} s (k : unit -> M A) b : bind (push s) k <> Ret (b, []).
Proof.
  unfold bind, push. destruct (k tt) as [[b' es']|e']; discriminate.
Qed.

Lemma push_not_nil s u : push s <> Ret (u, []).
Proof. discriminate. Qed.

Lemma ret_inv {A} (a b : A) es : ret a = Ret (b, es) -> a = b /\ es = [].
Proof. now intros [= -> <-]. Qed.

(** ** No parser raises *)

Ltac returns_tac :=
  repeat first
    [ apply returns_ret
    | apply returns_push
    | apply returns_get_obj
    | apply returns_bind; [|intros ?]
    | match goal with
      | |- returns (if ?b then _ else _) => destruct b
      | |- returns (match ?x with _ => _ end) => destruct x
      end ].

Lemma returns_parseCooldown v path : returns (parseCooldown v path).
Proof. unfold parseCooldown. returns_tac. Qed.

Lemma returns_optionalField v conv msg : returns (optionalField v conv msg).
Proof. unfold optionalField. returns_tac. Qed.

Lemma returns_parseMotionAction es path :
  returns (parseMotionAction (JObj es) path).
Proof.
  unfold parseMotionAction.
  repeat first [ apply returns_parseCooldown | apply returns_optionalField
               | progress returns_tac ].
Qed.

Lemma returns_parseTweenAction es path :
  returns (parseTweenAction (JObj es) path).
Proof.
  unfold parseTweenAction.
  repeat first [ apply returns_parseCooldown | apply returns_optionalField
               | progress returns_tac ].
Qed.

Lemma returns_parseAction raw path allowCombo :
  returns (parseAction raw path allowCombo).
Proof.
  unfold parseAction. destruct raw; simpl negb; cbv iota;
    repeat first [ apply returns_parseCooldown | apply returns_optionalField
                 | progress returns_tac ].
Qed.

Lemma returns_parseKeyMap raw : returns (parseKeyMap raw).
Proof.
  unfold parseKeyMap. destruct raw; simpl negb; cbv iota; returns_tac.
  apply returns_forEach. intros km [input actionRaw]. unfold parseKeyMapEntry.
  repeat first [ apply returns_parseAction | progress returns_tac ].
Qed.

Lemma returns_parseComboRule st ix : returns (parseComboRule st ix).
Proof.
  destruct st as [rules ids], ix as [index item]. unfold parseComboRule.
  destruct item; simpl negb; cbv iota;
    repeat first [ apply returns_parseCooldown | apply returns_parseAction
                 | apply returns_optionalField | progress returns_tac ].
Qed.

Lemma returns_parseComboRules raw : returns (parseComboRules raw).
Proof.
  unfold parseComboRules. returns_tac.
  apply returns_forEach, returns_parseComboRule.
Qed.

Lemma returns_parseIdleEntry acc ix : returns (parseIdleEntry acc ix).
Proof.
  destruct ix as [index item]. unfold parseIdleEntry.
  destruct item; simpl negb; cbv iota;
    repeat first [ apply returns_optionalField | apply returns_parseAction
                 | progress returns_tac ].
Qed.

Lemma returns_parseIdleActions raw : returns (parseIdleActions raw).
Proof.
  unfold parseIdleActions. returns_tac.
  apply returns_forEach, returns_parseIdleEntry.
Qed.

Lemma returns_parseIdleConfig raw : returns (parseIdleConfig raw).
Proof.
  unfold parseIdleConfig. destruct raw; simpl negb; cbv iota;
    repeat first [ apply returns_optionalField | apply returns_parseIdleActions
                 | progress returns_tac ].
Qed.

Lemma returns_parseRoot es : returns (parseRoot (JObj es)).
Proof.
  unfold parseRoot.
  repeat first [ apply returns_parseKeyMap | apply returns_parseComboRules
               | apply returns_parseIdleConfig | progress returns_tac ].
Qed.

(** ** Runs that pushed no error *)

Ltac inv_run :=
  repeat match goal with
  | H : bind (push _) _ = Ret (_, []) |- _ =>
      exfalso; exact (push_then_not_nil _ _ _ H)
  | H : push _ = Ret (_, []) |- _ => discriminate H
  | H : ret _ = Ret (_, _) |- _ => apply ret_inv in H as [H _]
  | H : get (JObj _) _ = Ret (_, _) |- _ =>
      unfold get in H; simpl getProp in H
  | H : bind _ _ = Ret (_, []) |- _ => apply bind_ret_nil in H as (? & ? & H)
  | H : (if ?b then _ else _) = Ret (_, []) |- _ => destruct b eqn:?
  | H : match ?x with _ => _ end = Ret (_, []) |- _ => destruct x eqn:?
  end.

Lemma asNonEmptyString_valid v s : asNonEmptyString v = Some s -> validString s.
Proof.
  destruct v; try discriminate. simpl.
  destruct (isEmpty (trim s0)) eqn:E; [discriminate|].
  intros [= <-]. split; [apply trim_idem | exact E].
Qed.

Lemma asNonEmptyString_JStr s : validString s -> asNonEmptyString (JStr s) = Some s.
Proof. intros [Ht He]. simpl. now rewrite Ht, He. Qed.

Lemma asIntegerInRange_JNum v lo hi q :
  asIntegerInRange v lo hi = Some q -> v = JNum q.
Proof.
  destruct v; try discriminate. simpl.
  destruct (isInteger q0 && inRange q0 lo hi)%bool; now intros [= <-].
Qed.

Lemma asNumberInRange_JNum v lo hi q :
  asNumberInRange v lo hi = Some q -> v = JNum q.
Proof.
  destruct v; try discriminate. simpl.
  destruct (inRange q0 lo hi); now intros [= <-].
Qed.

(** A field reader that only accepts finite numbers and returns them. *)
Definition numeric (conv : jsval -> option Q) : Prop :=
  forall v q, conv v = Some q -> v = JNum q.

Lemma numeric_int lo hi : numeric (fun v => asIntegerInRange v lo hi).
Proof. intros v q. apply asIntegerInRange_JNum. Qed.

Lemma numeric_num lo hi : numeric (fun v => asNumberInRange v lo hi).
Proof. intros v q. apply asNumberInRange_JNum. Qed.

Lemma optionalField_valid raw conv msg o :
  numeric conv -> optionalField raw conv msg = Ret (o, []) -> validOpt conv o.
Proof.
  intros Hn H. unfold optionalField in H. inv_run; subst; simpl; [exact I|].
  match goal with E : conv _ = Some _ |- _ =>
    pose proof (Hn _ _ E); subst; exact E end.
Qed.

Lemma optionalField_optNum conv msg o :
  validOpt conv o -> optionalField (optNum o) conv msg = ret o.
Proof.
  destruct o as [q|]; intros H; [|reflexivity].
  change (conv (JNum q) = Some q) in H.
  unfold optionalField. cbn [optNum isUndefined]. now rewrite H.
Qed.

Lemma parseCooldown_valid raw path o :
  parseCooldown raw path = Ret (o, []) -> validCooldown o.
Proof.
  intros H. unfold parseCooldown in H. inv_run; subst; simpl; [exact I|].
  match goal with E : asIntegerInRange _ _ _ = Some _ |- _ =>
    pose proof (asIntegerInRange_JNum _ _ _ _ E); subst; exact E end.
Qed.

Lemma parseCooldown_optNum path o :
  validCooldown o -> parseCooldown (optNum o) path = ret o.
Proof.
  destruct o as [q|]; intros H; [|reflexivity].
  change (asIntegerInRange (JNum q) 0 60000 = Some q) in H.
  unfold parseCooldown. cbn [optNum isUndefined]. now rewrite H.
Qed.

Ltac collect_valid :=
  repeat match goal with
  | H : Some _ = Some _ |- _ => injection H as <-
  | H : None = Some _ |- _ => discriminate H
  | H : ?x = ?y |- _ => is_var y; subst y
  | H : asNonEmptyString _ = Some _ |- _ => apply asNonEmptyString_valid in H
  | H : optionalField _ _ _ = Ret (_, []) |- _ =>
      apply optionalField_valid in H;
      [|first [apply numeric_int | apply numeric_num]]
  | H : parseCooldown _ _ = Ret (_, []) |- _ => apply parseCooldown_valid in H
  | H : negb _ = false |- _ => apply negb_false_iff in H
  end.

Lemma parseAction_wf raw path allowCombo a :
  parseAction raw path allowCombo = Ret (Some a, []) -> wfAction allowCombo a.
Proof.
  intros H. unfold parseAction, parseMotionAction, parseTweenAction in H.
  destruct raw; simpl negb in H; cbv iota in H; inv_run; collect_valid;
    simpl; auto.
Qed.

Lemma get_obj es k :
  get (JObj es) k = ret (match assoc k es with Some x => x | None => JUndefined end).
Proof. reflexivity. Qed.

Lemma asPreset_presetName p : asPreset (JStr (presetName p)) = Some p.
Proof. now destruct p. Qed.

Ltac run_fwd :=
  repeat first
    [ rewrite bind_ret_l
    | rewrite get_obj
    | rewrite asPreset_presetName
    | rewrite asNonEmptyString_JStr by first [assumption | split; reflexivity]
    | rewrite optionalField_optNum by assumption
    | rewrite parseCooldown_optNum by assumption
    | progress cbn [negb isObject isArray isUndefined assoc
                    String.eqb Ascii.eqb Bool.eqb andb orb fst snd] ].

Lemma parseAction_actionToJs a path allowCombo :
  wfAction allowCombo a ->
  parseAction (actionToJs a) path allowCombo = ret (Some a).
Proof.
  destruct a as [g i p c|n c|pr s c|r c]; simpl wfAction.
  - intros (Hg & Hi & Hp & Hc).
    unfold parseAction, actionToJs, parseMotionAction. now run_fwd.
  - intros (Hn & Hc).
    unfold parseAction, actionToJs. now run_fwd.
  - intros (Hs & Hc).
    unfold parseAction, actionToJs, parseTweenAction. now run_fwd.
  - intros (-> & Hr & Hc).
    unfold parseAction, actionToJs. now run_fwd.
Qed.

(** ** The key map *)

Lemma foldl_insert_lookup {A} (f : A -> A) (l : list (string * A))
    (acc : gmap string A) k :
  NoDup l.*1 ->
  foldl (fun m '(k, a) => <[k := f a]> m) acc l !! k =
  match (list_to_map l : gmap string A) !! k with
  | Some a => Some (f a)
  | None => acc !! k
  end.
Proof.
  revert acc. induction l as [|[k0 a0] l IH]; intros acc Hnd; simpl.
  - now rewrite lookup_empty.
  - inversion Hnd as [|? ? Hk0 Hnd']; subst. rewrite IH by assumption.
    destruct (decide (k = k0)) as [->|Hne].
    + rewrite (not_elem_of_list_to_map_1 _ _ Hk0).
      now rewrite !lookup_insert_eq.
    + rewrite !lookup_insert_ne by congruence. reflexivity.
Qed.

Lemma foldl_insert_map_to_list {A} (f : A -> A) (m : gmap string A) :
  (forall a, f a = a) ->
  foldl (fun m '(k, a) => <[k := f a]> m) ∅ (map_to_list m) = m.
Proof.
  intros Hf. apply map_eq. intros k.
  rewrite foldl_insert_lookup by apply NoDup_fst_map_to_list.
  rewrite list_to_map_to_list, lookup_empty.
  destruct (m !! k); [now rewrite Hf | reflexivity].
Qed.

Lemma cloneAction_id a : cloneAction a = a.
Proof. now destruct a. Qed.

Lemma cloneMotionConfig_id c : cloneMotionConfig c = c.
Proof.
  destruct c as [km rules [en af iv acts]]. unfold cloneMotionConfig. simpl.
  f_equal.
  - apply foldl_insert_map_to_list, cloneAction_id.
  - induction rules as [|[i s w a cd] rules IH]; simpl; [reflexivity|].
    now rewrite cloneAction_id, IH.
  - f_equal. induction acts as [|[a w] acts IH]; simpl; [reflexivity|].
    now rewrite cloneAction_id, IH.
Qed.

Definition wfBinding (k : string) (a : InputAction) : Prop :=
  (validString k /\ k <> "__proto__") /\ wfAction true a.

Lemma parseKeyMapEntry_wf acc entry km :
  parseKeyMapEntry acc entry = Ret (km, []) ->
  map_Forall wfBinding acc -> map_Forall wfBinding km /\ (acc <> ∅ -> km <> ∅).
Proof.
  destruct entry as [input actionRaw]. unfold parseKeyMapEntry.
  intros H Hacc. inv_run; subst.
  - match goal with E : parseAction _ _ _ = _ |- _ =>
      apply parseAction_wf in E end.
    unfold writeProp.
    destruct (String.eqb_spec (trim input) "__proto__") as [Hp|Hp];
      [now split|].
    split; [|intros _; apply insert_non_empty].
    apply map_Forall_insert_2; [|assumption].
    split; [|assumption].
    split; [split; [apply trim_idem | assumption] | exact Hp].
  - now split.
Qed.

Lemma forEach_parseKeyMapEntry_wf entries : forall acc km,
  forEach parseKeyMapEntry entries acc = Ret (km, []) ->
  map_Forall wfBinding acc -> map_Forall wfBinding km.
Proof.
  induction entries as [|e entries IH]; intros acc km H Hacc; simpl in H.
  - now apply ret_inv in H as [<- _].
  - apply bind_ret_nil in H as (acc' & H1 & H2).
    apply (IH _ _ H2). now apply (parseKeyMapEntry_wf _ _ _ H1).
Qed.

Lemma parseKeyMap_wf raw km : parseKeyMap raw = Ret (km, []) -> wfKeyMap km.
Proof.
  unfold parseKeyMap. intros H. inv_run; subst.
  match goal with E : (size _ =? 0)%nat = false |- _ =>
    apply Nat.eqb_neq in E; rename E into Hsz end.
  split.
  - intros ->. now rewrite map_size_empty in Hsz.
  - eapply forEach_parseKeyMapEntry_wf; [eassumption|]. apply map_Forall_empty.
Qed.

Lemma forEach_parseKeyMapEntry_toJs (l : list (string * InputAction)) :
  Forall (fun ka => wfBinding ka.1 ka.2) l ->
  forall acc,
    forEach parseKeyMapEntry (map (fun '(k, a) => (k, actionToJs a)) l) acc =
    ret (foldl (fun m '(k, a) => <[k := a]> m) acc l).
Proof.
  induction 1 as [|[k a] l [[[Ht He] Hp] Ha] _ IH]; intros acc; simpl;
    [reflexivity|].
  simpl in Ht, He, Hp, Ha. unfold parseKeyMapEntry at 1. rewrite Ht, He.
  rewrite parseAction_actionToJs by assumption.
  rewrite !bind_ret_l. unfold writeProp.
  apply String.eqb_neq in Hp. rewrite Hp. apply IH.
Qed.

Lemma parseKeyMap_keyMapToJs km :
  wfKeyMap km -> parseKeyMap (keyMapToJs km) = ret km.
Proof.
  intros [Hne Hall]. unfold parseKeyMap, keyMapToJs. simpl negb. cbv iota.
  simpl objectEntries. rewrite forEach_parseKeyMapEntry_toJs.
  - rewrite bind_ret_l.
    rewrite (foldl_insert_map_to_list (fun a => a)) by reflexivity.
    destruct (Nat.eqb (size km) 0) eqn:E; [|reflexivity].
    apply Nat.eqb_eq, map_size_empty_inv in E. contradiction.
  - apply Forall_forall. intros [k a] Hin.
    apply Hall, elem_of_map_to_list. exact Hin.
Qed.

(** ** Combo rules *)

(** Invariant of the [forEach] loop of [parseComboRules]. *)
Definition rulesInv (st : list ComboRule * gset string) : Prop :=
  wfRules st.1 /\ forall id, id ∈ st.2 <-> id ∈ map rule_id st.1.

Lemma omap_asNonEmptyString_valid items :
  Forall validString (omap asNonEmptyString items).
Proof.
  induction items as [|v items IH]; simpl; [constructor|].
  destruct (asNonEmptyString v) eqn:E; [|exact IH].
  constructor; [eapply asNonEmptyString_valid; eassumption | exact IH].
Qed.

Lemma omap_asNonEmptyString_JStr l :
  Forall validString l -> omap asNonEmptyString (map JStr l) = l.
Proof.
  induction 1 as [|s l [Ht He] _ IH]; [reflexivity|].
  simpl. rewrite Ht, He. f_equal. exact IH.
Qed.

Lemma wfAction_false_not_combo a : wfAction false a -> isCombo a = false.
Proof. destruct a; simpl; [reflexivity..|]. now intros [[=] _]. Qed.

Lemma parseComboRule_inv st ix st' :
  parseComboRule st ix = Ret (st', []) -> rulesInv st -> rulesInv st'.
Proof.
  destruct st as [rules ids], ix as [index item]. unfold parseComboRule.
  intros H [[Hwf Hnd] Hids]. simpl in Hwf, Hnd, Hids.
  inv_run. subst st'.
  repeat match goal with
  | E : parseAction _ _ _ = _ |- _ => apply parseAction_wf in E
  | E : parseCooldown _ _ = _ |- _ => apply parseCooldown_valid in E
  | E : asNonEmptyString _ = Some _ |- _ => apply asNonEmptyString_valid in E
  | E : bool_decide _ = false |- _ => apply bool_decide_eq_false in E
  | E : negb _ = false |- _ => apply negb_false_iff in E
  | E : (_ || _)%bool = false |- _ => apply orb_false_iff in E as [? ?]
  | E : (_ =? _)%nat = true |- _ => apply Nat.eqb_eq in E
  | E : (_ <? _)%nat = false |- _ => apply Nat.ltb_ge in E
  | E : Some _ = Some _ |- _ => injection E as ->
  end.
  split; simpl; [split|].
  - apply Forall_app; split; [assumption|]. constructor; [|constructor].
    unfold wfRule; simpl.
    split; [assumption|]. split; [lia|].
    split; [apply omap_asNonEmptyString_valid|].
    split; [|split; assumption].
    match goal with E : asIntegerInRange _ 1 10000 = Some _ |- _ =>
      pose proof (asIntegerInRange_JNum _ _ _ _ E); subst; exact E end.
  - rewrite map_app. simpl. apply NoDup_app. repeat split.
    + assumption.
    + intros y Hy Hy'. apply list_elem_of_singleton in Hy'. subst y.
      match goal with E : _ ∉ ids |- _ => apply E end. now apply Hids.
    + apply NoDup_singleton.
  - intros id'. rewrite map_app, elem_of_app, elem_of_union, elem_of_singleton.
    simpl. rewrite list_elem_of_singleton, Hids. tauto.
Qed.

Lemma forEach_parseComboRule_inv items : forall st st',
  forEach parseComboRule items st = Ret (st', []) -> rulesInv st -> rulesInv st'.
Proof.
  induction items as [|ix items IH]; intros st st' H Hst; simpl in H.
  - now apply ret_inv in H as [<- _].
  - apply bind_ret_nil in H as (st1 & H1 & H2).
    apply (IH _ _ H2). now apply (parseComboRule_inv _ _ _ H1).
Qed.

Lemma wfRules_default : wfRules (comboRules defaultMotionConfig).
Proof.
  split; simpl.
  - repeat constructor.
  - repeat constructor. intros H. inversion H.
Qed.

Lemma parseComboRules_wf raw rules :
  parseComboRules raw = Ret (rules, []) -> wfRules rules.
Proof.
  unfold parseComboRules. intros H. inv_run; subst.
  - rewrite cloneMotionConfig_id. apply wfRules_default.
  - match goal with E : forEach _ _ _ = _ |- _ =>
      apply forEach_parseComboRule_inv in E; [apply E|] end.
    split; simpl; [split; constructor|]. intros id. set_solver.
Qed.

Lemma parseComboRule_ruleToJs acc ids n r :
  wfRule r -> rule_id r ∉ ids ->
  parseComboRule (acc, ids) (n, ruleToJs r) =
  ret ((acc ++ [r])%list, {[ rule_id r ]} ∪ ids).
Proof.
  destruct r as [id sq w a cd].
  intros (Hid & Hlen & Hseq & Hw & Ha & Hcd) Hfresh.
  unfold parseComboRule, ruleToJs. cbn [rule_id rule_sequence rule_withinMs
    rule_action rule_cooldownMs] in *. run_fwd.
  rewrite (bool_decide_eq_false_2 _ Hfresh).
  run_fwd. cbn [arrayItems]. rewrite length_map.
  destruct (Nat.ltb_ge (length sq) 2) as [_ ->]; [|exact Hlen].
  rewrite omap_asNonEmptyString_JStr by assumption.
  rewrite Nat.eqb_refl. run_fwd. rewrite Hw. run_fwd.
  rewrite parseAction_actionToJs by assumption. run_fwd.
  now rewrite (wfAction_false_not_combo _ Ha); run_fwd.
Qed.

Lemma forEach_parseComboRule_toJs l : forall n acc ids,
  Forall wfRule l ->
  NoDup (map rule_id acc ++ map rule_id l) ->
  (forall id, id ∈ ids <-> id ∈ map rule_id acc) ->
  exists ids',
    forEach parseComboRule
      (List.combine (seq n (length l)) (map ruleToJs l)) (acc, ids) =
    ret ((acc ++ l)%list, ids').
Proof.
  induction l as [|r l IH]; intros n acc ids Hwf Hnd Hids;
    cbn [length seq List.combine map forEach].
  - exists ids. now rewrite app_nil_r.
  - inversion Hwf as [|? ? Hr Hl]; subst.
    rewrite parseComboRule_ruleToJs; [|assumption|].
    + rewrite bind_ret_l.
      destruct (IH (S n) (acc ++ [r])%list ({[ rule_id r ]} ∪ ids)) as [ids' E].
      * assumption.
      * rewrite map_app. simpl. now rewrite <- app_assoc.
      * intros id. rewrite map_app, elem_of_app, elem_of_union,
          elem_of_singleton. simpl. rewrite list_elem_of_singleton, Hids. tauto.
      * exists ids'. rewrite E. now rewrite <- app_assoc.
    + rewrite Hids. apply NoDup_app in Hnd as (_ & Hdisj & _).
      intros Hin. apply (Hdisj _ Hin). simpl. apply list_elem_of_here.
Qed.

Lemma parseComboRules_toJs rules :
  wfRules rules -> parseComboRules (JArr (map ruleToJs rules)) = ret rules.
Proof.
  intros [Hwf Hnd]. unfold parseComboRules. run_fwd.
  unfold indexed. cbn [arrayItems]. rewrite length_map.
  destruct (forEach_parseComboRule_toJs rules 0 [] ∅) as [ids' E];
    [assumption | exact Hnd | intros id; set_solver |].
  rewrite E. now rewrite bind_ret_l.
Qed.

(** ** The idle policy *)

Lemma parseIdleEntry_inv acc ix acc' :
  parseIdleEntry acc ix = Ret (acc', []) ->
  Forall wfEntry acc -> Forall wfEntry acc' /\ acc' <> [].
Proof.
  destruct ix as [index item]. unfold parseIdleEntry. intros H Hacc.
  inv_run. subst acc'.
  repeat match goal with
  | E : parseAction _ _ _ = _ |- _ => apply parseAction_wf in E
  | E : optionalField _ _ _ = _ |- _ =>
      apply optionalField_valid in E; [|apply numeric_num]
  | E : Some _ = Some _ |- _ => injection E as ->
  end.
  split; [|now destruct acc].
  apply Forall_app; split; [assumption|]. constructor; [|constructor].
  split; assumption.
Qed.

Lemma forEach_parseIdleEntry_inv items : forall acc acc',
  forEach parseIdleEntry items acc = Ret (acc', []) ->
  Forall wfEntry acc -> Forall wfEntry acc'.
Proof.
  induction items as [|ix items IH]; intros acc acc' H Hacc; simpl in H.
  - now apply ret_inv in H as [<- _].
  - apply bind_ret_nil in H as (acc1 & H1 & H2).
    apply (IH _ _ H2). now apply (parseIdleEntry_inv _ _ _ H1).
Qed.

Lemma parseIdleActions_wf raw actions :
  parseIdleActions raw = Ret (actions, []) ->
  actions <> [] /\ Forall wfEntry actions.
Proof.
  unfold parseIdleActions. intros H. inv_run; subst. split.
  - intros ->. discriminate.
  - eapply forEach_parseIdleEntry_inv; [eassumption | constructor].
Qed.

Lemma parseIdleEntry_entryToJs acc n e :
  wfEntry e -> parseIdleEntry acc (n, entryToJs e) = ret (acc ++ [e])%list.
Proof.
  destruct e as [a w]. intros [Ha Hw].
  unfold parseIdleEntry, entryToJs. cbn [entry_action entry_weight] in *.
  run_fwd.
  rewrite parseAction_actionToJs by assumption. run_fwd.
  now rewrite (wfAction_false_not_combo _ Ha); run_fwd.
Qed.

Lemma forEach_parseIdleEntry_toJs l : forall n acc,
  Forall wfEntry l ->
  forEach parseIdleEntry
    (List.combine (seq n (length l)) (map entryToJs l)) acc =
  ret (acc ++ l)%list.
Proof.
  induction l as [|e l IH]; intros n acc Hwf;
    cbn [length seq List.combine map forEach].
  - now rewrite app_nil_r.
  - inversion Hwf; subst. rewrite parseIdleEntry_entryToJs by assumption.
    rewrite bind_ret_l, IH by assumption. now rewrite <- app_assoc.
Qed.

Lemma parseIdleActions_toJs actions :
  actions <> [] -> Forall wfEntry actions ->
  parseIdleActions (JArr (map entryToJs actions)) = ret actions.
Proof.
  intros Hne Hwf. unfold parseIdleActions. cbn [isArray negb arrayItems orb].
  rewrite length_map. destruct actions as [|e l]; [contradiction|].
  cbn [length Nat.eqb]. unfold indexed. rewrite length_map.
  rewrite forEach_parseIdleEntry_toJs by assumption. now rewrite bind_ret_l.
Qed.

Lemma parseIdleConfig_wf raw i : parseIdleConfig raw = Ret (i, []) -> wfIdle i.
Proof.
  unfold parseIdleConfig. intros H. inv_run; subst;
    repeat match goal with
    | E : parseIdleActions _ = _ |- _ => apply parseIdleActions_wf in E as [? ?]
    | E : optionalField _ _ _ = _ |- _ =>
        apply optionalField_valid in E; [|apply numeric_int]
    | E : asIntegerInRange ?v 500 600000 = Some ?q |- _ =>
        lazymatch v with
        | JNum q => fail
        | _ => pose proof (asIntegerInRange_JNum _ _ _ _ E); subst
        end
    end;
    repeat split; simpl; assumption.
Qed.

Lemma parseIdleConfig_toJs i : wfIdle i -> parseIdleConfig (idleToJs i) = ret i.
Proof.
  destruct i as [en af iv acts]. intros (Haf & Hiv & Hne & Hacts).
  unfold parseIdleConfig, idleToJs. cbn [idle_enabled idle_afterMs
    idle_intervalMs idle_actions] in *. run_fwd. rewrite Haf. run_fwd.
  rewrite parseIdleActions_toJs by assumption. now run_fwd.
Qed.

(** ** Whole configurations *)

Lemma parseRoot_wf raw c : parseRoot raw = Ret (c, []) -> wfConfig c.
Proof.
  unfold parseRoot. intros H. inv_run; subst;
    repeat match goal with
    | E : parseKeyMap _ = _ |- _ => apply parseKeyMap_wf in E
    | E : parseComboRules _ = _ |- _ => apply parseComboRules_wf in E
    | E : parseIdleConfig _ = _ |- _ => apply parseIdleConfig_wf in E
    end; (split; [|split]); simpl; assumption.
Qed.

Lemma parseRoot_configToJs c : wfConfig c -> parseRoot (configToJs c) = ret c.
Proof.
  destruct c as [km rules i]. intros (Hkm & Hrules & Hi).
  unfold parseRoot, configToJs. cbn [keyMap comboRules idle] in *. run_fwd.
  change (strictEqOne (JNum 1)) with true. run_fwd.
  rewrite parseKeyMap_keyMapToJs by assumption. run_fwd.
  rewrite parseComboRules_toJs by assumption. run_fwd.
  rewrite parseIdleConfig_toJs by assumption. now run_fwd.
Qed.

Lemma wfConfig_default : wfConfig defaultMotionConfig.
Proof.
  apply parseRoot_wf with (raw := configToJs defaultMotionConfig).
  vm_compute. reflexivity.
Qed.

Lemma validateMotionConfig_configToJs c :
  wfConfig c ->
  validateMotionConfig (configToJs c) =
  Ret {| ok := true; errors := []; value := Some c |}.
Proof.
  intros Hc. unfold validateMotionConfig.
  change (negb (isObject (configToJs c))) with false. cbv iota.
  now rewrite (parseRoot_configToJs _ Hc).
Qed.

Lemma resolveMotionConfig_configToJs c :
  wfConfig c -> resolveMotionConfig (configToJs c) = Ret c.
Proof.
  intros Hc. unfold resolveMotionConfig.
  now rewrite (validateMotionConfig_configToJs _ Hc).
Qed.

(** The two shapes of a validation result. *)
Lemma validateMotionConfig_cases raw :
  (exists errs, errs <> [] /\
     validateMotionConfig raw =
     Ret {| ok := false; errors := errs; value := None |}) \/
  (exists c, wfConfig c /\
     validateMotionConfig raw =
     Ret {| ok := true; errors := []; value := Some c |}).
Proof.
  unfold validateMotionConfig.
  destruct raw as [| | | | | |items|es]; simpl negb; cbv iota;
    try (left; eexists; split; [|reflexivity]; discriminate).
  destruct (returns_parseRoot es) as (v & errs & E). rewrite E.
  destruct errs as [|e errs]; simpl.
  - right. exists v. split; [exact (parseRoot_wf _ _ E) | reflexivity].
  - left. eexists; split; [|reflexivity]. discriminate.
Qed.

(** C3. Validation is total and deterministic: on every JavaScript value,
    however malformed, [validateMotionConfig] returns a result record (it
    never raises), and equal inputs give equal results. *)
Theorem validateMotionConfig_total_deterministic (raw : jsval) :
  (exists result, validateMotionConfig raw = Ret result) /\
  (forall raw', raw' = raw ->
     validateMotionConfig raw' = validateMotionConfig raw).
Proof.
  split; [|now intros raw' ->].
  destruct (validateMotionConfig_cases raw) as [(errs & _ & E)|(c & _ & E)];
    rewrite E; eauto.
Qed.

(** C10. On every input the result of [validateMotionConfig] has [ok] true
    exactly when [errors] is empty, and carries a [value] exactly when [ok]
    is true. *)
Theorem validateMotionConfig_ok_iff_no_errors (raw : jsval) :
  exists result,
    validateMotionConfig raw = Ret result /\
    (ok result = true <-> errors result = []) /\
    (is_Some (value result) <-> ok result = true).
Proof.
  destruct (validateMotionConfig_cases raw) as [(errs & Hne & E)|(c & _ & E)];
    rewrite E; eexists; (split; [reflexivity|]); simpl.
  - split; split; first [discriminate | contradiction | intros [? [=]]].
  - split; split; eauto.
Qed.

(** C4. Normalisation is idempotent.  Resolving any input [x] returns a
    configuration [c]; handing [c] back to [resolveMotionConfig] returns
    [c] again, and [validateMotionConfig] accepts [c] with [ok] true, no
    error, and the value [c].  [c] is the validated value whenever
    validation of [x] succeeded (otherwise [ok] is false and [c] is the
    clone of the built-in default), so re-validating the configuration
    produced from an accepted input yields [ok] with an equal value. *)
Theorem resolveMotionConfig_idempotent (x : jsval) :
  exists result c,
    validateMotionConfig x = Ret result /\
    resolveMotionConfig x = Ret c /\
    (ok result = true /\ value result = Some c \/
     ok result = false /\ c = cloneMotionConfig defaultMotionConfig) /\
    resolveMotionConfig (configToJs c) = Ret c /\
    validateMotionConfig (configToJs c) =
      Ret {| ok := true; errors := []; value := Some c |}.
Proof.
  unfold resolveMotionConfig at 1.
  destruct (validateMotionConfig_cases x) as [(errs & Hne & E)|(c & Hwf & E)];
    rewrite E; eexists; eexists; (split; [reflexivity|]); simpl.
  - pose proof wfConfig_default as Hwf. rewrite <- cloneMotionConfig_id in Hwf.
    split; [reflexivity|]. split; [now right|].
    split; [apply resolveMotionConfig_configToJs, Hwf
           |apply validateMotionConfig_configToJs, Hwf].
  - split; [reflexivity|]. split; [now left|].
    split; [apply resolveMotionConfig_configToJs, Hwf
           |apply validateMotionConfig_configToJs, Hwf].
Qed.

End ValidatorFacts.

(* ===================================================================== *)
(** * [cloneMotionConfig] is a deep clone                                 *)
(* ===================================================================== *)

Module CloneHeapFacts.
Import CloneHeap.
Local Open Scope list_scope.

(** ** Heaps that hold given cells *)

Lemma contains_app_inv h2 b e1 e2 :
  contains h2 b (e1 ++ e2) ->
  contains h2 b e1 /\ contains h2 (b + length e1) e2.
Proof.
  intros H. split; intros i c Hi.
  - apply H. now apply lookup_app_l_Some.
  - rewrite <- Nat.add_assoc. apply H.
    rewrite lookup_app_r by lia. now replace (length e1 + i - length e1) with i by lia.
Qed.

Lemma contains_singleton h2 b c : contains h2 b [c] -> h2 !! b = Some c.
Proof. intros H. specialize (H 0 c eq_refl). now rewrite Nat.add_0_r in H. Qed.

Lemma contains_ext h ext : contains (h ++ ext) (length h) ext.
Proof.
  intros i c Hi. rewrite lookup_app_r by lia.
  now replace (length h + i - length h) with i by lia.
Qed.

Lemma contains_prefix h ext : contains (h ++ ext) 0 h.
Proof.
  intros i c Hi. change ((h ++ ext) !! i = Some c).
  now apply lookup_app_l_Some.
Qed.

Lemma contains_lookup h h2 l c :
  contains h2 0 h -> h !! l = Some c -> h2 !! l = Some c.
Proof. intros H. exact (H l c). Qed.

(** ** Decoding only reads the cells it reaches *)

Definition monotone {A} (D : heap -> loc -> option A) : Prop :=
  forall h h2 l x, D h l = Some x -> contains h2 0 h -> D h2 l = Some x.

Lemma decodeAction_monotone : monotone decodeAction.
Proof.
  intros h h2 l x. unfold decodeAction.
  destruct (h !! l) as [[]|] eqn:E; try discriminate.
  intros [= <-] Hc. now rewrite (contains_lookup _ _ _ _ Hc E).
Qed.

Lemma decodeStrings_monotone : monotone decodeStrings.
Proof.
  intros h h2 l x. unfold decodeStrings.
  destruct (h !! l) as [[]|] eqn:E; try discriminate.
  intros [= <-] Hc. now rewrite (contains_lookup _ _ _ _ Hc E).
Qed.

Lemma decodeMap_Some h m dm :
  decodeMap h m = Some dm <->
  dm = omap (decodeAction h) m /\
  map_Forall (fun _ la => is_Some (decodeAction h la)) m.
Proof.
  unfold decodeMap. case_decide as Hd; split.
  - now intros [= <-].
  - now intros [-> _].
  - discriminate.
  - now intros [_ ?].
Qed.

Lemma decodeMap_monotone h h2 m dm :
  decodeMap h m = Some dm -> contains h2 0 h -> decodeMap h2 m = Some dm.
Proof.
  intros [-> Hall]%decodeMap_Some Hc. apply decodeMap_Some. split.
  - apply map_eq. intros k. rewrite !lookup_omap.
    destruct (m !! k) as [la|] eqn:Ek; [|reflexivity]. simpl.
    destruct (Hall _ _ Ek) as [a Ha].
    now rewrite Ha, (decodeAction_monotone _ _ _ _ Ha Hc).
  - intros k la Ek. destruct (Hall _ _ Ek) as [a Ha].
    exists a. exact (decodeAction_monotone _ _ _ _ Ha Hc).
Qed.

Lemma decodeKeyMap_monotone : monotone decodeKeyMap.
Proof.
  intros h h2 l x. unfold decodeKeyMap.
  destruct (h !! l) as [[]|] eqn:E; try discriminate.
  intros Hm Hc. rewrite (contains_lookup _ _ _ _ Hc E). eapply decodeMap_monotone; eassumption.
Qed.

Lemma decodeRule_monotone : monotone decodeRule.
Proof.
  intros h h2 l x. unfold decodeRule.
  destruct (h !! l) as [[| | |id ls w la cd| | | |]|] eqn:E; try discriminate.
  destruct (decodeStrings h ls) as [s|] eqn:Es; [|discriminate].
  destruct (decodeAction h la) as [a|] eqn:Ea; [|discriminate].
  simpl. intros [= <-] Hc. rewrite (contains_lookup _ _ _ _ Hc E).
  rewrite (decodeStrings_monotone _ _ _ _ Es Hc).
  now rewrite (decodeAction_monotone _ _ _ _ Ea Hc).
Qed.

Lemma decodeEntry_monotone : monotone decodeEntry.
Proof.
  intros h h2 l x. unfold decodeEntry.
  destruct (h !! l) as [[| | | | |la w| |]|] eqn:E; try discriminate.
  destruct (decodeAction h la) as [a|] eqn:Ea; [|discriminate].
  simpl. intros [= <-] Hc. rewrite (contains_lookup _ _ _ _ Hc E).
  now rewrite (decodeAction_monotone _ _ _ _ Ea Hc).
Qed.

Lemma mapM_monotone {A} (D : heap -> loc -> option A) h h2 ls xs :
  monotone D -> mapM (D h) ls = Some xs -> contains h2 0 h ->
  mapM (D h2) ls = Some xs.
Proof.
  intros HD H Hc. apply mapM_Some in H. apply mapM_Some.
  eapply Forall2_impl; [exact H|]. intros l x Hx. exact (HD _ _ _ _ Hx Hc).
Qed.

Lemma decodeArray_monotone {A} (D : heap -> loc -> option A) :
  monotone D -> monotone (decodeArray D).
Proof.
  intros HD h h2 l x. unfold decodeArray.
  destruct (h !! l) as [[]|] eqn:E; try discriminate.
  intros Hm Hc. rewrite (contains_lookup _ _ _ _ Hc E). eapply mapM_monotone; eassumption.
Qed.

Lemma decodeIdle_monotone : monotone decodeIdle.
Proof.
  intros h h2 l x. unfold decodeIdle.
  destruct (h !! l) as [[| | | | | |en af iv lacts|]|] eqn:E; try discriminate.
  destruct (decodeArray decodeEntry h lacts) as [acts|] eqn:Ea; [|discriminate].
  simpl. intros [= <-] Hc. rewrite (contains_lookup _ _ _ _ Hc E).
  now rewrite (decodeArray_monotone _ decodeEntry_monotone _ _ _ _ Ea Hc).
Qed.

Lemma decodeConfig_monotone : monotone decodeConfig.
Proof.
  intros h h2 l x. unfold decodeConfig.
  destruct (h !! l) as [[| | | | | | |lkm lrules lidle]|] eqn:E;
    try discriminate.
  destruct (decodeKeyMap h lkm) as [km|] eqn:Ek; [|discriminate].
  destruct (decodeArray decodeRule h lrules) as [rs|] eqn:Er; [|discriminate].
  destruct (decodeIdle h lidle) as [i|] eqn:Ei; [|discriminate].
  simpl. intros [= <-] Hc. rewrite (contains_lookup _ _ _ _ Hc E).
  rewrite (decodeKeyMap_monotone _ _ _ _ Ek Hc).
  rewrite (decodeArray_monotone _ decodeRule_monotone _ _ _ _ Er Hc).
  now rewrite (decodeIdle_monotone _ _ _ _ Ei Hc).
Qed.

(** ** What each cloning function allocates *)

(** Every reference held by the cells [ext] points at or above [base]. *)
Definition freshRefs (base : nat) (ext : list cell) : Prop :=
  Forall (fun c => Forall (fun r => base <= r) (refs c)) ext.

(** [F] clones what [D] reads: it only appends cells, which refer to new
    cells only, and the new object reads back as the old one. *)
Definition clones {A} (F : heap -> loc -> option (heap * loc))
    (D : heap -> loc -> option A) : Prop :=
  forall h l x, D h l = Some x ->
    exists ext l',
      F h l = Some (h ++ ext, l') /\
      length h <= l' /\ freshRefs (length h) ext /\
      D (h ++ ext) l' = Some x.

Lemma freshRefs_weaken b b' ext : b <= b' -> freshRefs b' ext -> freshRefs b ext.
Proof.
  intros Hb H. eapply Forall_impl; [exact H|]. intros c Hc.
  eapply Forall_impl; [exact Hc|]. intros r. simpl. lia.
Qed.

Lemma freshRefs_app b e1 e2 :
  freshRefs b e1 -> freshRefs b e2 -> freshRefs b (e1 ++ e2).
Proof. intros. now apply Forall_app. Qed.

Lemma lookup_new (h : list cell) c : (h ++ [c]) !! length h = Some c.
Proof. rewrite lookup_app_r by lia. now rewrite Nat.sub_diag. Qed.

Lemma lookup_new_app (h : list cell) c ext :
  (h ++ c :: ext) !! length h = Some c.
Proof. rewrite lookup_app_r by lia. now rewrite Nat.sub_diag. Qed.

Lemma clones_cloneAction : clones cloneAction decodeAction.
Proof.
  intros h l a H. unfold decodeAction in H. unfold cloneAction.
  destruct (h !! l) as [[a'| | | | | | |]|]; try discriminate.
  injection H as ->. rewrite ValidatorFacts.cloneAction_id.
  exists [CAction a], (length h). repeat split.
  - lia.
  - repeat constructor.
  - unfold decodeAction. now rewrite lookup_new.
Qed.

Lemma clones_cloneRule : clones cloneRule decodeRule.
Proof.
  intros h l r H. unfold decodeRule in H. unfold cloneRule.
  destruct (h !! l) as [[| | |id ls w la cd| | | |]|]; try discriminate.
  unfold decodeStrings in H.
  destruct (h !! ls) as [[| |s| | | | |]|]; try discriminate.
  simpl in H. destruct (decodeAction h la) as [a|] eqn:Ea; [|discriminate].
  injection H as <-. unfold alloc.
  pose proof (decodeAction_monotone h (h ++ [CStrings s]) la a Ea
                (contains_prefix _ _)) as Ea1.
  destruct (clones_cloneAction _ _ _ Ea1) as (e & la' & -> & Hla' & Hfr & Hd).
  simpl. rewrite length_app in Hla', Hfr. simpl in Hla', Hfr.
  exists ([CStrings s] ++ e ++ [CRule id (length h) w la' cd]),
         (length ((h ++ [CStrings s]) ++ e)).
  rewrite <- !app_assoc. simpl. split; [reflexivity|].
  split; [rewrite !length_app; simpl; lia|]. split.
  - constructor; [constructor|]. apply freshRefs_app.
    + eapply freshRefs_weaken; [|exact Hfr]. lia.
    + repeat constructor; lia.
  - unfold decodeRule.
    replace (h ++ CStrings s :: e ++ [CRule id (length h) w la' cd])
      with ((h ++ CStrings s :: e) ++ [CRule id (length h) w la' cd])
      by now rewrite <- app_assoc.
    rewrite lookup_new. unfold decodeStrings.
    rewrite <- app_assoc. simpl. rewrite lookup_new_app. simpl.
    erewrite decodeAction_monotone; [reflexivity | exact Hd |].
    replace (h ++ CStrings s :: e ++ [CRule id (length h) w la' cd])
      with (((h ++ [CStrings s]) ++ e) ++ [CRule id (length h) w la' cd])
      by now rewrite <- !app_assoc.
    apply contains_prefix.
Qed.

Lemma clones_cloneEntry : clones cloneEntry decodeEntry.
Proof.
  intros h l x H. unfold decodeEntry in H. unfold cloneEntry.
  destruct (h !! l) as [[| | | | |la w| |]|]; try discriminate.
  destruct (decodeAction h la) as [a|] eqn:Ea; [|discriminate].
  injection H as <-. unfold alloc.
  destruct (clones_cloneAction _ _ _ Ea) as (e & la' & -> & Hla' & Hfr & Hd).
  simpl. exists (e ++ [CEntry la' w]), (length (h ++ e)).
  rewrite <- !app_assoc. split; [reflexivity|].
  split; [rewrite length_app; lia|]. split.
  - apply freshRefs_app; [exact Hfr|]. repeat constructor; lia.
  - unfold decodeEntry. rewrite app_assoc, lookup_new.
    erewrite decodeAction_monotone; [reflexivity | exact Hd |].
    apply contains_prefix.
Qed.

Lemma cloneEach_spec {A} F (D : heap -> loc -> option A) :
  clones F D -> monotone D ->
  forall ls h xs, mapM (D h) ls = Some xs ->
    exists ext ls',
      cloneEach F ls h = Some (h ++ ext, ls') /\
      Forall (fun l' => length h <= l') ls' /\
      freshRefs (length h) ext /\
      mapM (D (h ++ ext)) ls' = Some xs.
Proof.
  intros HF HD. induction ls as [|l ls IH]; intros h xs H.
  - injection H as <-. exists [], []. rewrite app_nil_r.
    repeat split; constructor.
  - apply mapM_Some in H. inversion H as [|? x ? xs' Hx Hxs]; subst.
    apply mapM_Some in Hxs.
    destruct (HF _ _ _ Hx) as (e1 & l' & E1 & Hl' & Hfr1 & Hd1).
    pose proof (mapM_monotone D h (h ++ e1) ls xs' HD Hxs
                  (contains_prefix _ _)) as Hxs1.
    destruct (IH _ _ Hxs1) as (e2 & ls' & E2 & Hls' & Hfr2 & Hd2).
    exists (e1 ++ e2), (l' :: ls').
    split; [simpl; rewrite E1; simpl; rewrite E2; simpl;
            now rewrite <- app_assoc|].
    rewrite length_app in Hls', Hfr2. split; [|split].
    + constructor; [exact Hl'|]. eapply Forall_impl; [exact Hls'|].
      intros r. simpl. lia.
    + apply freshRefs_app; [exact Hfr1|].
      eapply freshRefs_weaken; [|exact Hfr2]. lia.
    + apply mapM_Some. constructor.
      * eapply HD; [exact Hd1|]. rewrite app_assoc. apply contains_prefix.
      * apply mapM_Some. rewrite app_assoc. exact Hd2.
Qed.

(** ** The key map loop *)

Lemma decodeMap_insert h km dm k la a :
  decodeMap h km = Some dm -> decodeAction h la = Some a ->
  decodeMap h (<[k := la]> km) = Some (<[k := a]> dm).
Proof.
  intros [-> Hall]%decodeMap_Some Ha. apply decodeMap_Some. split.
  - symmetry. now apply omap_insert_Some.
  - apply map_Forall_insert_2; [now exists a | exact Hall].
Qed.

(** [das] lists the bindings [es] with their actions read off [h]. *)
Definition readsAs (h : heap) (es : list (string * loc))
    (das : list (string * InputAction)) : Prop :=
  Forall2 (fun e d => e.1 = d.1 /\ decodeAction h e.2 = Some d.2) es das.

Lemma readsAs_lookup h es das k :
  readsAs h es das ->
  (list_to_map das : gmap string InputAction) !! k =
  (list_to_map es : gmap string loc) !! k ≫= decodeAction h.
Proof.
  induction 1 as [|[k0 la] [k1 a] es das [Hk Ha] _ IH]; simpl in *.
  - now rewrite !lookup_empty.
  - subst k1. destruct (decide (k0 = k)) as [->|Hne].
    + now rewrite !lookup_insert_eq.
    + now rewrite !lookup_insert_ne.
Qed.

Lemma readsAs_fst h es das : readsAs h es das -> das.*1 = es.*1.
Proof.
  induction 1 as [|[k0 la] [k1 a] es das [Hk Ha] _ IH]; [reflexivity|].
  rewrite !fmap_cons, IH. simpl in *. now rewrite Hk.
Qed.

Lemma readsAs_exists h es :
  Forall (fun e => is_Some (decodeAction h e.2)) es -> exists das, readsAs h es das.
Proof.
  induction 1 as [|[k la] es [a Ha] _ [das IH]].
  - exists []. constructor.
  - exists ((k, a) :: das). constructor; [now split | exact IH].
Qed.

Lemma bindings_decoded h m dm :
  decodeMap h m = Some dm ->
  exists das, readsAs h (map_to_list m) das /\
    foldl (fun m '(k, a) => <[k := a]> m) ∅ das = dm.
Proof.
  intros [-> Hall]%decodeMap_Some.
  destruct (readsAs_exists h (map_to_list m)) as [das Hdas].
  { apply Forall_forall. intros [k la] Hin. apply (Hall k la).
    now apply elem_of_map_to_list. }
  exists das. split; [exact Hdas|]. apply map_eq. intros k.
  rewrite (ValidatorFacts.foldl_insert_lookup (fun a => a)).
  - rewrite (readsAs_lookup _ _ _ k Hdas), list_to_map_to_list.
    rewrite lookup_omap, lookup_empty.
    destruct (m !! k ≫= decodeAction h); reflexivity.
  - rewrite (readsAs_fst _ _ _ Hdas). apply NoDup_fst_map_to_list.
Qed.

Lemma cloneBindings_spec h0 es das :
  readsAs h0 es das ->
  forall e0 km dm,
    map_Forall (fun _ la => length h0 <= la) km ->
    decodeMap (h0 ++ e0) km = Some dm ->
    exists e1 km',
      cloneBindings es (h0 ++ e0) km = Some (h0 ++ e0 ++ e1, km') /\
      freshRefs (length h0) e1 /\
      map_Forall (fun _ la => length h0 <= la) km' /\
      decodeMap (h0 ++ e0 ++ e1) km' =
        Some (foldl (fun m '(k, a) => <[k := a]> m) dm das).
Proof.
  induction 1 as [|[k la] [k1 a] es das [Hk Ha] _ IH]; intros e0 km dm Hkm Hdm;
    simpl in *.
  - exists [], km. rewrite app_nil_r. repeat split; try assumption. constructor.
  - subst k1.
    pose proof (decodeAction_monotone h0 (h0 ++ e0) la a Ha
                  (contains_prefix _ _)) as Ha0.
    destruct (clones_cloneAction _ _ _ Ha0) as (e & la' & E & Hla' & Hfr & Hd).
    rewrite length_app in Hla', Hfr. rewrite <- app_assoc in E, Hd.
    destruct (IH (e0 ++ e) (<[k := la']> km) (<[k := a]> dm))
      as (e1 & km' & E1 & Hfr1 & Hkm' & Hdm').
    + apply map_Forall_insert_2; [lia | exact Hkm].
    + apply decodeMap_insert; [|exact Hd].
      eapply decodeMap_monotone; [exact Hdm|].
      rewrite (app_assoc h0 e0 e). apply contains_prefix.
    + exists (e ++ e1), km'. rewrite E. simpl.
      rewrite <- !app_assoc in E1, Hdm'. rewrite E1.
      repeat split; try assumption.
      apply freshRefs_app; [|exact Hfr1].
      eapply freshRefs_weaken; [|exact Hfr]. lia.
Qed.

(** ** The whole configuration *)

Lemma contains_of_prefix (h h2 : list cell) : h `prefix_of` h2 -> contains h2 0 h.
Proof. intros [ext ->]. apply contains_prefix. Qed.

Lemma lookup_new_prefix (h h2 : list cell) c :
  (h ++ [c]) `prefix_of` h2 -> h2 !! length h = Some c.
Proof. intros Hp. eapply prefix_lookup_Some; [apply lookup_new | exact Hp]. Qed.

Ltac solve_prefix :=
  repeat first [ reflexivity | apply prefix_app_r ].

Lemma decodeMap_empty h : decodeMap h ∅ = Some ∅.
Proof. apply decodeMap_Some. split; [now rewrite omap_empty | apply map_Forall_empty]. Qed.

Lemma freshRefs_keyMap b (km : gmap string loc) :
  map_Forall (fun _ la => b <= la) km -> freshRefs b [CKeyMap km].
Proof.
  intros H. constructor; [|constructor]. simpl.
  apply Forall_fmap. apply map_Forall_to_list in H.
  eapply Forall_impl; [exact H|]. now intros [k la].
Qed.

Lemma cloneMotionConfig_spec h root c :
  decodeConfig h root = Some c ->
  exists ext root',
    cloneMotionConfig h root = Some (h ++ ext, root') /\
    length h <= root' /\ freshRefs (length h) ext /\
    decodeConfig (h ++ ext) root' = Some c.
Proof.
  intros H. unfold decodeConfig in H. unfold cloneMotionConfig.
  destruct (h !! root) as [[| | | | | | |lkm lrules lidle]|]; try discriminate.
  destruct (decodeKeyMap h lkm) as [km|] eqn:Ekm; [|discriminate].
  destruct (decodeArray decodeRule h lrules) as [rs|] eqn:Ers; [|discriminate].
  destruct (decodeIdle h lidle) as [i|] eqn:Ei; [|discriminate].
  injection H as <-.
  unfold decodeKeyMap in Ekm.
  destruct (h !! lkm) as [[|m| | | | | |]|]; try discriminate.
  unfold decodeArray in Ers.
  destruct (h !! lrules) as [[| | | |rules| | |]|]; try discriminate.
  unfold decodeIdle in Ei.
  destruct (h !! lidle) as [[| | | | | |en af iv lacts|]|]; try discriminate.
  destruct (decodeArray decodeEntry h lacts) as [acts|] eqn:Eacts;
    [|discriminate].
  injection Ei as <-. unfold decodeArray in Eacts.
  destruct (h !! lacts) as [[| | | |entries| | |]|]; try discriminate.
  (* the key map *)
  destruct (bindings_decoded _ _ _ Ekm) as (das & Hdas & Hfold).
  destruct (cloneBindings_spec h _ _ Hdas [] ∅ ∅ (map_Forall_empty _)
              (decodeMap_empty _)) as (e1 & km' & E1 & Hfr1 & Hkm' & Hd1).
  rewrite app_nil_r in E1. simpl in E1, Hd1. rewrite Hfold in Hd1.
  rewrite E1. simpl. unfold alloc.
  set (h2 := (h ++ e1) ++ [CKeyMap km']).
  (* the combo rules *)
  assert (Hrs2 : mapM (decodeRule h2) rules = Some rs).
  { eapply mapM_monotone; [apply decodeRule_monotone | exact Ers |].
    apply contains_of_prefix. subst h2. solve_prefix. }
  destruct (cloneEach_spec _ _ clones_cloneRule decodeRule_monotone _ _ _ Hrs2)
    as (e3 & rules' & E3 & Hrules' & Hfr3 & Hd3).
  rewrite E3. simpl.
  set (h4 := (h2 ++ e3) ++ [CArray rules']).
  (* the idle entries *)
  assert (Hacts4 : mapM (decodeEntry h4) entries = Some acts).
  { eapply mapM_monotone; [apply decodeEntry_monotone | exact Eacts |].
    apply contains_of_prefix. subst h4 h2. solve_prefix. }
  destruct (cloneEach_spec _ _ clones_cloneEntry decodeEntry_monotone _ _ _ Hacts4)
    as (e5 & entries' & E5 & Hentries' & Hfr5 & Hd5).
  rewrite E5. simpl.
  set (h6 := (h4 ++ e5) ++ [CArray entries']).
  set (h7 := h6 ++ [CIdle en af iv (length (h4 ++ e5))]).
  set (hf := h7 ++ [CConfig (length (h ++ e1)) (length (h2 ++ e3)) (length h6)]).
  assert (Hlen2 : length h2 = length h + length e1 + 1)
    by (subst h2; rewrite !length_app; simpl; lia).
  assert (Hlen4 : length h4 = length h2 + length e3 + 1)
    by (subst h4; rewrite !length_app; simpl; lia).
  assert (Hlen6 : length h6 = length h4 + length e5 + 1)
    by (subst h6; rewrite !length_app; simpl; lia).
  assert (Hlen7 : length h7 = length h6 + 1)
    by (subst h7; rewrite !length_app; simpl; lia).
  exists (e1 ++ [CKeyMap km'] ++ e3 ++ [CArray rules'] ++ e5 ++
          [CArray entries'] ++ [CIdle en af iv (length (h4 ++ e5))] ++
          [CConfig (length (h ++ e1)) (length (h2 ++ e3)) (length h6)]),
         (length h7).
  assert (Hhf : hf = h ++ e1 ++ [CKeyMap km'] ++ e3 ++ [CArray rules'] ++ e5 ++
          [CArray entries'] ++ [CIdle en af iv (length (h4 ++ e5))] ++
          [CConfig (length (h ++ e1)) (length (h2 ++ e3)) (length h6)]).
  { subst hf h7 h6 h4 h2. now rewrite <- !app_assoc. }
  rewrite <- Hhf. split; [reflexivity|]. split; [lia|]. split.
  - rewrite Hlen2 in Hfr3, Hrules'. rewrite Hlen4 in Hfr5, Hentries'.
    repeat apply freshRefs_app.
    + exact Hfr1.
    + now apply freshRefs_keyMap.
    + eapply freshRefs_weaken; [|exact Hfr3]. lia.
    + constructor; [|constructor]. simpl.
      eapply Forall_impl; [exact Hrules'|]. intros r. simpl. lia.
    + eapply freshRefs_weaken; [|exact Hfr5]. lia.
    + constructor; [|constructor]. simpl.
      eapply Forall_impl; [exact Hentries'|]. intros r. simpl. lia.
    + repeat constructor. rewrite length_app. lia.
    + repeat constructor; rewrite ?length_app; lia.
  - unfold decodeConfig.
    rewrite (lookup_new_prefix h7 hf _) by (subst hf; solve_prefix).
    cbv beta iota.
    (* key map *)
    unfold decodeKeyMap.
    rewrite (lookup_new_prefix (h ++ e1) hf _)
      by (subst hf h7 h6 h4 h2; solve_prefix).
    cbv beta iota.
    erewrite decodeMap_monotone; [|exact Hd1|];
      [|apply contains_of_prefix; subst hf h7 h6 h4 h2; solve_prefix].
    cbn [mbind option_bind].
    (* combo rules *)
    unfold decodeArray at 1.
    rewrite (lookup_new_prefix (h2 ++ e3) hf _)
      by (subst hf h7 h6 h4; solve_prefix).
    cbv beta iota.
    erewrite mapM_monotone; [|apply decodeRule_monotone|exact Hd3|];
      [|apply contains_of_prefix; subst hf h7 h6 h4; solve_prefix].
    cbn [mbind option_bind].
    (* idle *)
    unfold decodeIdle.
    rewrite (lookup_new_prefix h6 hf _) by (subst hf h7; solve_prefix).
    cbv beta iota. unfold decodeArray.
    rewrite (lookup_new_prefix (h4 ++ e5) hf _)
      by (subst hf h7 h6; solve_prefix).
    cbv beta iota.
    erewrite mapM_monotone; [|apply decodeEntry_monotone|exact Hd5|];
      [|apply contains_of_prefix; subst hf h7 h6; solve_prefix].
    reflexivity.
Qed.

Lemma reachable_fresh (h ext : list cell) root' l :
  length h <= root' -> freshRefs (length h) ext ->
  reachable (h ++ ext) root' l -> length h <= l.
Proof.
  intros Hroot Hfr. induction 1 as [|l c l' _ IH Hl Hin]; [exact Hroot|].
  rewrite lookup_app_r in Hl by exact IH.
  pose proof (proj1 (Forall_lookup _ _) Hfr _ _ Hl) as Hc.
  exact (proj1 (Forall_forall _ _) Hc _ Hin).
Qed.

Lemma decodeConfig_frame h h2 root c :
  decodeConfig h root = Some c ->
  (forall l, l < length h -> h2 !! l = h !! l) ->
  decodeConfig h2 root = Some c.
Proof.
  intros H Hagree. eapply decodeConfig_monotone; [exact H|].
  intros i x Hi. simpl. rewrite Hagree; [exact Hi|].
  eapply lookup_lt_Some. exact Hi.
Qed.

(** C8. [cloneMotionConfig] is a deep clone.  For every configuration laid
    out in a heap, the clone reads as the same configuration as the
    original (structural equality); every object reachable from the clone
    (the key map and its actions, the rule array, its rules, their
    sequences and actions, the idle object, its entries and their actions)
    is newly allocated, so none is shared with the original; and
    overwriting any object of the clone leaves the original as it was. *)
Theorem cloneMotionConfig_deep_clone h root c :
  decodeConfig h root = Some c ->
  exists h' root',
    cloneMotionConfig h root = Some (h', root') /\ deepClone h root c h' root'.
Proof.
  intros H.
  destruct (cloneMotionConfig_spec _ _ _ H) as (ext & root' & E & Hroot & Hfr & Hd).
  exists (h ++ ext), root'. split; [exact E|].
  assert (Hfresh : forall l, reachable (h ++ ext) root' l -> length h <= l)
    by (intros l; now apply reachable_fresh).
  split; [exact Hd|]. split; [|split; [|split]].
  - eapply decodeConfig_monotone; [exact H | apply contains_prefix].
  - intros l Hl. split; [now apply Hfresh|].
    apply lookup_ge_None_2. now apply Hfresh.
  - intros l v Hl. apply (decodeConfig_frame h); [exact H|].
    intros i Hi. pose proof (Hfresh _ Hl).
    rewrite list_lookup_insert_ne by lia. now apply lookup_app_l.
  - intros h2. now apply decodeConfig_frame.
Qed.

Lemma cloneMotionConfig_deep_clone_witness :
  exists h' root',
    cloneMotionConfig exampleHeap 10 = Some (h', root') /\
    deepClone exampleHeap 10 exampleConfig h' root'.
Proof.
  apply (cloneMotionConfig_deep_clone exampleHeap 10 exampleConfig).
  vm_compute. reflexivity.
Defined.

End CloneHeapFacts.


(* ===================================================================== *)
(** * The motion engine                                                   *)
(* ===================================================================== *)

Module MotionEngineFacts.
Import MotionEngine.

Lemma triggerFallbackTween_triggered w reason random perfNow :
  fallbackTriggered (triggerFallbackTween w reason random perfNow) reason.
Proof.
  unfold fallbackTriggered, triggerFallbackTween.
  destruct (fallbackRafId (state (log w _))) as [id|]; simpl.
  - split; [apply last_snoc|]. eexists _, _. split; [reflexivity|].
    split; [apply last_snoc | reflexivity].
  - split; [apply last_snoc|]. eexists _, _. split; [reflexivity|].
    split; [apply last_snoc | reflexivity].
Qed.

(** [triggerFallbackTween] does not move the model: whatever transform
    the model has when the tween is triggered becomes the tween's
    origin. *)
Lemma triggerFallbackTween_keeps_model w reason random perfNow :
  model (triggerFallbackTween w reason random perfNow) = model w.
Proof.
  unfold triggerFallbackTween.
  now destruct (fallbackRafId (state (log w _))).
Qed.

Lemma resolveBindingMotion_unmapped (m : gmap string jsval) :
  resolveBindingMotion (delete "KeyZ" m) "KeyZ" = None.
Proof.
  unfold resolveBindingMotion. simpl. now rewrite lookup_delete_eq.
Qed.

(** The idle timeout is a whole number of milliseconds between 2000 and
    60000. *)
Lemma resolveIdleTimeout_range (m : gmap string jsval) :
  (2000 <= resolveIdleTimeout m <= 60000)%Q.
Proof.
  unfold resolveIdleTimeout, DEFAULT_IDLE_TIMEOUT_MS.
  destruct (m !! "idleTimeoutMs") as [[| | |v| | | |]|];
    try (split; discriminate).
  unfold round, clamp.
  assert (Hlo : (2000 <= Qmin 60000 (Qmax 2000 v))%Q).
  { apply Q.min_glb; [discriminate | apply Q.le_max_l]. }
  assert (Hhi : (Qmin 60000 (Qmax 2000 v) <= 60000)%Q) by apply Q.le_min_l.
  split.
  - change 2000%Q with (inject_Z (Qfloor (2000 + (1 # 2)))).
    rewrite <- Zle_Qle. apply Qfloor_resp_le. now apply Qplus_le_l.
  - change 60000%Q with (inject_Z (Qfloor (60000 + (1 # 2)))).
    rewrite <- Zle_Qle. apply Qfloor_resp_le. now apply Qplus_le_l.
Qed.

(** C6. An idle action fires only when both gates hold at the periodic
    check: the time since [lastInputAt] is at least [afterMs] and the time
    since [lastIdleAt] is at least [afterMs]; and the check is skipped
    whenever the engine is disposed or already mid-idle-dispatch.  Here
    [afterMs] is the idle timeout of the motion map the engine was handed
    ([resolveIdleTimeout]).  The settings of the engine are that motion
    map and nothing else: no [intervalMs] is part of [EngineState] or of
    [MotionEngineSettings], so of the two cases the claim has for the
    second gate the one without an interval is the one that arises.  The
    converse holds as well: when the four conditions hold the action is
    dispatched, and a check that does not dispatch leaves the world as it
    is. *)
Theorem maybePlayIdle_fires_iff w dateNow pick answer random perfNow :
  let s := state w in
  let afterMs := resolveIdleTimeout (settings s) in
  let r := maybePlayIdle w dateNow pick answer random perfNow in
  (snd r = true <->
     disposed s = false /\ idlePlaying s = false /\
     (afterMs <= dateNow - lastInputAt s)%Q /\
     (afterMs <= dateNow - lastIdleAt s)%Q) /\
  (snd r = false -> fst r = w).
Proof.
  cbv zeta. unfold maybePlayIdle.
  destruct (disposed (state w)); simpl orb; cbv iota.
  { simpl. split; [split|]; try tauto; intros; try discriminate.
    destruct H as [[=] _]. }
  destruct (idlePlaying (state w)); simpl orb; cbv iota.
  { simpl. split; [split|]; try tauto; intros; try discriminate.
    destruct H as (_ & [=] & _). }
  destruct (Qlt_le_dec (dateNow - lastInputAt (state w))
              (resolveIdleTimeout (settings (state w)))) as [Hlt|Hle].
  { simpl. split; [split|]; try tauto; intros; try discriminate.
    destruct H as (_ & _ & H & _). exfalso. eapply Qlt_not_le; eassumption. }
  destruct (Qlt_le_dec (dateNow - lastIdleAt (state w))
              (resolveIdleTimeout (settings (state w)))) as [Hlt'|Hle'].
  { simpl. split; [split|]; try tauto; intros; try discriminate.
    destruct H as (_ & _ & _ & H). exfalso. eapply Qlt_not_le; eassumption. }
  simpl. split; [split|]; try tauto; intros; discriminate.
Qed.

(** C2, on [triggerFallbackTween].  A second fallback tween started while
    the first is at its peak cancels the first one's frame callback but
    does not put the model back: it takes the displaced transform for its
    origin.  When the second tween has ended (no callback waits, no tween
    is recorded) the model rests at the first tween's peak, 12 to the
    right of and 6 above where it was, scaled and tilted. *)
Theorem triggerFallbackTween_supersede_drifts :
  model freshWorld = restTransform /\
  (* one callback waits after each press: the first tween was cancelled *)
  length (rafQueue afterFirstPress) = 1 /\
  length (rafQueue afterSecondPress) = 1 /\
  (* the second tween has ended *)
  rafQueue afterSecondTween = [] /\
  fallbackRafId (state afterSecondTween) = None /\
  (* and the model is not back where it was *)
  (x (model afterSecondTween) == 12)%Q /\
  (y (model afterSecondTween) == -6)%Q /\
  (scaleX (model afterSecondTween) == 108 # 100)%Q /\
  (scaleY (model afterSecondTween) == 94 # 100)%Q /\
  (rotation (model afterSecondTween) == 8 # 100)%Q /\
  ~ (x (model afterSecondTween) == x (model freshWorld))%Q.
Proof. vm_compute. repeat split; intros [=]. Qed.

End MotionEngineFacts.

(* ===================================================================== *)
(** * The tween presets                                                   *)
(* ===================================================================== *)

Module TweenPresetsFacts.
Import TweenPresets.
Local Open Scope R_scope.

Lemma frame_eq (a b : Frame) :
  x a = x b -> y a = y b -> scaleX a = scaleX b -> scaleY a = scaleY b ->
  rotation a = rotation b -> a = b.
Proof. destruct a, b; simpl; intros; subst; reflexivity. Qed.

(** ** [Math.PI] and pi

    Pi is bracketed by the partial sums of an alternating series
    ([Machin.PI_2_3_7_ineq]); the sums are computed over the rationals. *)

Fixpoint qpow (q : Q) (n : nat) : Q :=
  match n with
  | O => 1%Q
  | S k => (q * qpow q k)%Q
  end.

Definition qterm (i : nat) : Q :=
  (qpow (-1) i *
   (2 * (qpow (1 # 3) (2 * i + 1) / inject_Z (Z.of_nat (2 * i + 1))) +
    qpow (1 # 7) (2 * i + 1) / inject_Z (Z.of_nat (2 * i + 1))))%Q.

Fixpoint qsum (n : nat) : Q :=
  match n with
  | O => qterm 0
  | S k => (qsum k + qterm (S k))%Q
  end.

Lemma Q2R_qpow q n : Q2R (qpow q n) = Q2R q ^ n.
Proof.
  induction n as [|n IH]; simpl.
  - unfold Q2R. simpl. lra.
  - now rewrite Qreals.Q2R_mult, IH.
Qed.

Lemma Q2R_of_nat k : Q2R (inject_Z (Z.of_nat k)) = INR k.
Proof. unfold Q2R. simpl. rewrite <- INR_IZR_INZ. lra. Qed.

Lemma Q2R_qterm i : Q2R (qterm i) = tg_alt Machin.PI_2_3_7_tg i.
Proof.
  unfold qterm, tg_alt, Machin.PI_2_3_7_tg, Ratan_seq.
  assert (Hk : ~ (inject_Z (Z.of_nat (2 * i + 1)) == 0)%Q).
  { unfold Qeq. simpl. lia. }
  rewrite Qreals.Q2R_mult, Qreals.Q2R_plus, Qreals.Q2R_mult, !Qreals.Q2R_div,
    !Q2R_qpow, Q2R_of_nat by exact Hk.
  replace (Q2R (-1)) with (-1) by (unfold Q2R; simpl; lra).
  replace (Q2R 2) with 2 by (unfold Q2R; simpl; lra).
  replace (Q2R (1 # 3)) with (/ 3) by (unfold Q2R; simpl; lra).
  replace (Q2R (1 # 7)) with (/ 7) by (unfold Q2R; simpl; lra).
  reflexivity.
Qed.

Lemma Q2R_qsum n :
  Q2R (qsum n) = sum_f_R0 (tg_alt Machin.PI_2_3_7_tg) n.
Proof.
  induction n as [|n IH]; simpl.
  - apply Q2R_qterm.
  - now rewrite Qreals.Q2R_plus, IH, Q2R_qterm.
Qed.

Lemma Math_PI_Q :
  Math_PI = Q2R (884279719003555 # 281474976710656).
Proof. reflexivity. Qed.

(** [Math.PI] is below pi ... *)
Lemma Math_PI_lt_PI : Math_PI < PI.
Proof.
  destruct (Machin.PI_2_3_7_ineq 8) as [Hlo _].
  change (S (2 * 8)) with 17%nat in Hlo. rewrite <- Q2R_qsum in Hlo.
  assert (H : Math_PI < 4 * Q2R (qsum 17)).
  { rewrite Math_PI_Q.
    replace 4 with (Q2R 4) by (unfold Q2R; simpl; lra).
    rewrite <- Qreals.Q2R_mult. apply Qreals.Qlt_Rlt. vm_compute. reflexivity. }
  lra.
Qed.

(** ... by less than 1.3e-16. *)
Lemma PI_minus_Math_PI : PI - Math_PI < 13 / 100000000000000000.
Proof.
  destruct (Machin.PI_2_3_7_ineq 8) as [_ Hhi].
  change (2 * 8)%nat with 16%nat in Hhi. rewrite <- Q2R_qsum in Hhi.
  assert (H : 4 * Q2R (qsum 16) - Math_PI < 13 / 100000000000000000).
  { rewrite Math_PI_Q.
    replace 4 with (Q2R 4) by (unfold Q2R; simpl; lra).
    replace (13 / 100000000000000000)
      with (Q2R (13 # 100000000000000000))
      by (unfold Q2R; simpl; lra).
    rewrite <- Qreals.Q2R_mult, <- Qreals.Q2R_minus.
    apply Qreals.Qlt_Rlt. vm_compute. reflexivity. }
  lra.
Qed.

Lemma Math_PI_pos : 0 < Math_PI.
Proof. unfold Math_PI. lra. Qed.

(** [Math.sin (Math.PI)] is not zero. *)
Lemma sin_Math_PI : 0 < sin Math_PI < 13 / 100000000000000000.
Proof.
  pose proof Math_PI_lt_PI. pose proof PI_minus_Math_PI.
  pose proof Math_PI_pos.
  rewrite <- sin_PI_x. split.
  - apply sin_gt_0; lra.
  - apply Rlt_trans with (PI - Math_PI); [apply sin_lt_x; lra | assumption].
Qed.

Lemma effectiveStrength_range raw : 5 / 100 <= effectiveStrength raw <= 3.
Proof.
  unfold effectiveStrength, clamp, Rmin, Rmax.
  repeat destruct (Rle_dec _ _); lra.
Qed.

Lemma clamp_unit_ge v : 1 <= v -> clamp v 0 1 = 1.
Proof.
  intros H. unfold clamp, Rmin, Rmax.
  repeat destruct (Rle_dec _ _); lra.
Qed.

Lemma getDuration_pos preset : 0 < getDuration preset.
Proof. destruct preset; simpl; lra. Qed.

(** The frame at or after the end of a tween that was not cancelled
    writes the stored origin back and clears the target's entry. *)
Lemma tick_completes active now st :
  existsb (Nat.eqb (tw_id active)) (cancelledTweens st) = false ->
  tw_startedAt active + getDuration (tw_preset active) <= now ->
  target (tick active now st) = tw_origin active /\
  activeTweens (tick active now st) = None.
Proof.
  intros Hc Hnow. unfold tick. rewrite Hc.
  rewrite clamp_unit_ge.
  - destruct (Rlt_dec 1 1) as [Hlt|_]; [lra|]. now split.
  - pose proof (getDuration_pos (tw_preset active)) as Hd.
    apply (Rmult_le_reg_r (getDuration (tw_preset active))); [exact Hd|].
    unfold Rdiv. rewrite Rmult_assoc, Rinv_l by lra. lra.
Qed.

(** C7, as the code has it.  Each preset, as a function of the progress
    [t] and of the strength, gives back exactly the origin's position,
    scale and rotation at [t = 0], for every strength, the clamped ones
    in particular; shake and nod do so at [t = 1] as well, where their
    damping factor [1 - t] is zero.  The offsets of bounce at [t = 1] are
    multiples of [Math.sin (Math.PI)], which is not zero: the frame keeps
    the horizontal position and, with the products and sums taken
    exactly, is within 6.24e-15 of the origin's height, at or above it.
    The exact return at the end of a tween is
    made by [restore ()]: the frame callback that finds the duration
    elapsed writes the stored origin. *)
Theorem applyFrame_endpoints (preset : TweenPreset) (strength : R)
    (origin : Frame) :
  applyFrame preset 0 strength origin = origin /\
  (preset <> bounce -> applyFrame preset 1 strength origin = origin) /\
  (forall rawStrength,
     applyFrame preset 0 (effectiveStrength rawStrength) origin = origin /\
     (preset <> bounce ->
      applyFrame preset 1 (effectiveStrength rawStrength) origin = origin)) /\
  (forall rawStrength,
     let frame := applyFrame bounce 1 (effectiveStrength rawStrength) origin in
     x frame = x origin /\
     y origin - 624 / 100000000000000000 <= y frame <= y origin) /\
  (forall active now st,
     existsb (Nat.eqb (tw_id active)) (cancelledTweens st) = false ->
     tw_startedAt active + getDuration (tw_preset active) <= now ->
     target (tick active now st) = tw_origin active).
Proof.
  assert (H0 : forall s, applyFrame preset 0 s origin = origin).
  { intros s. destruct preset; apply frame_eq; simpl;
      rewrite ?Rmult_0_l, ?sin_0, ?Rabs_R0; try reflexivity;
      unfold Rmax; try destruct (Rle_dec 0 0); ring. }
  assert (H1 : forall s, preset <> bounce ->
                         applyFrame preset 1 s origin = origin).
  { intros s Hp. destruct preset; [contradiction| |];
      apply frame_eq; simpl; try reflexivity; ring. }
  split; [apply H0|]. split; [apply H1|].
  split; [intros r; split; [apply H0 | apply H1]|]. split.
  - intros rawStrength. cbv zeta. simpl. split; [reflexivity|].
    rewrite Rmult_1_l.
    pose proof (effectiveStrength_range rawStrength) as [Hlo Hhi].
    pose proof sin_Math_PI as [Hpos Hsmall].
    set (s := sin Math_PI) in *. set (k := effectiveStrength rawStrength) in *.
    split; nra.
  - intros active now st Hc Hnow. now apply tick_completes.
Qed.

(** C7, counterexample to the claim as stated.  At [t = 1] the bounce
    preset, at strength 1, does not give a target at rest its height
    back: the frame is above the origin, by sixteen times
    [Math.sin (Math.PI)]. *)
Lemma applyFrame_bounce_end_residue :
  y (applyFrame bounce 1 (effectiveStrength 1) restFrame) <> y restFrame /\
  y (applyFrame bounce 1 (effectiveStrength 1) restFrame) < 0.
Proof.
  assert (Hs : effectiveStrength 1 = 1).
  { unfold effectiveStrength, clamp, Rmin, Rmax.
    repeat destruct (Rle_dec _ _); lra. }
  rewrite Hs. simpl. rewrite Rmult_1_l.
  pose proof sin_Math_PI as [Hpos _]. split; lra.
Qed.

(** The tween that [applyTweenPreset] starts over an active one. *)
Definition successor (st : Stage) (first : ActiveTween) (preset : TweenPreset)
    (rawStrength now : R) : ActiveTween :=
  {| tw_id := nextTweenId st; tw_preset := preset;
     tw_strength := effectiveStrength rawStrength;
     tw_origin := tw_origin first; tw_startedAt := now |}.

(** Starting a tween while another one is active on the target puts the
    target back to the first tween's origin before the new origin is
    read: the new tween starts from, and will restore, that same origin;
    the first tween is marked cancelled and its callback no longer
    waits; the new tween is the one recorded for the target. *)
Lemma applyTweenPreset_supersede st first rafId preset rawStrength now :
  activeTweens st = Some (first, rafId) ->
  applyTweenPreset st preset rawStrength now =
  {| target := tw_origin first;
     activeTweens :=
       Some (successor st first preset rawStrength now, nextRafId st);
     cancelledTweens := tw_id first :: cancelledTweens st;
     rafQueue :=
       (List.filter (fun cb => negb (Nat.eqb (fst cb) rafId)) (rafQueue st) ++
        [(nextRafId st, successor st first preset rawStrength now)])%list;
     nextRafId := S (nextRafId st);
     nextTweenId := S (nextTweenId st) |}.
Proof.
  intros H. unfold applyTweenPreset, cancelActiveTween, successor.
  now rewrite H.
Qed.

(** Together: when the second tween ends, the target is at the first
    tween's origin, not at the intermediate transform it had when the
    second tween was started. *)
Lemma applyTweenPreset_supersede_ends_at_origin st first rafId preset
    rawStrength now later :
  activeTweens st = Some (first, rafId) ->
  tw_id first <> nextTweenId st ->
  existsb (Nat.eqb (nextTweenId st)) (cancelledTweens st) = false ->
  now + getDuration preset <= later ->
  let st' := applyTweenPreset st preset rawStrength now in
  let second := successor st first preset rawStrength now in
  target (tick second later st') = tw_origin first /\
  activeTweens (tick second later st') = None.
Proof.
  intros H Hid Hfresh Hlater. cbv zeta.
  rewrite (applyTweenPreset_supersede _ _ _ _ _ _ H).
  apply (tick_completes (successor st first preset rawStrength now)).
  - cbn [cancelledTweens successor tw_id existsb]. rewrite Hfresh.
    apply Nat.eqb_neq in Hid. rewrite Nat.eqb_sym in Hid. now rewrite Hid.
  - exact Hlater.
Qed.

End TweenPresetsFacts.

(* ===================================================================== *)
(** * The combo detector                                                  *)
(* ===================================================================== *)

Module ComboDetectorFacts.
Import ComboDetector.
Local Open Scope list_scope.

Lemma matchRecentFirst_events (events rest : list (string * Q)) :
  matchRecentFirst (events ++ rest) (map fst events) = Some (map snd events).
Proof.
  induction events as [|[input t] events IH]; simpl; [reflexivity|].
  now rewrite String.eqb_refl, IH.
Qed.

Lemma takeLast_app {A} (older events : list A) :
  takeLast (length events) (older ++ events) = events.
Proof.
  unfold takeLast. rewrite length_app.
  replace (length older + length events - length events) with (length older)
    by lia.
  now rewrite drop_app_length.
Qed.

(** The rule whose sequence is the identifiers of [events]. *)
Definition ruleFor (events : list (string * Q)) (id : string) (withinMs : Q)
    (action : InputAction) (cooldownMs : option Q) : ComboRule :=
  {| rule_id := id; rule_sequence := map fst events;
     rule_withinMs := withinMs; rule_action := action;
     rule_cooldownMs := cooldownMs |}.

Lemma ruleMatches_tail older first middle input tLast id withinMs action cd :
  let events := first :: middle ++ [(input, tLast)] in
  ruleMatches (ruleFor events id withinMs action cd) (older ++ events) =
  Qle_bool (tLast - snd first) withinMs.
Proof.
  cbv zeta. unfold ruleMatches, ruleFor. cbn [rule_sequence rule_withinMs].
  rewrite <- map_rev, rev_app_distr, matchRecentFirst_events.
  change (first :: middle ++ [(input, tLast)])
    with ((first :: middle) ++ [(input, tLast)]).
  rewrite rev_app_distr. cbn [rev app map snd].
  rewrite map_app. cbn [map snd].
  now rewrite last_last.
Qed.

(** C5. For a rule and a buffer whose tail is the rule's sequence, the
    rule matches exactly when the time from the first to the last matched
    event is at most [withinMs]; the detector, given the last event, then
    returns the rule and clears the buffer.  A span equal to [withinMs]
    matches, a span of [withinMs + 1] does not. *)
Theorem combo_fires_iff_within older first middle input tLast id withinMs
    action cd :
  let events := first :: middle ++ [(input, tLast)] in
  let rule := ruleFor events id withinMs action cd in
  (ruleMatches rule (older ++ events) = true <->
     (tLast - snd first <= withinMs)%Q) /\
  (onDiscreteInput [rule] (older ++ first :: middle) (input, tLast) =
     (Some rule, []) <-> (tLast - snd first <= withinMs)%Q) /\
  (let atEdge := first :: middle ++ [(input, (snd first + withinMs)%Q)] in
   ruleMatches (ruleFor atEdge id withinMs action cd) (older ++ atEdge) = true) /\
  (let pastEdge := first :: middle ++ [(input, (snd first + withinMs + 1)%Q)] in
   ruleMatches (ruleFor pastEdge id withinMs action cd) (older ++ pastEdge)
   = false).
Proof.
  cbv zeta. split; [|split; [|split]].
  - rewrite (ruleMatches_tail older first middle input tLast). apply Qle_bool_iff.
  - unfold onDiscreteInput.
    replace ((older ++ first :: middle) ++ [(input, tLast)])
      with (older ++ first :: middle ++ [(input, tLast)])
      by (now rewrite <- app_assoc).
    replace (capacity [ruleFor (first :: middle ++ [(input, tLast)]) id
                         withinMs action cd])
      with (length (first :: middle ++ [(input, tLast)])).
    2:{ unfold capacity. cbn [map list_max fold_right ruleFor rule_sequence].
        rewrite Nat.max_0_r. cbn [length]. now rewrite length_map. }
    rewrite takeLast_app. cbn [List.find].
    pose proof (ruleMatches_tail [] first middle input tLast id withinMs
                  action cd) as E.
    cbv zeta in E. cbn [app] in E. rewrite E.
    destruct (Qle_bool (tLast - snd first) withinMs) eqn:Hb.
    + apply Qle_bool_iff in Hb. tauto.
    + split; [discriminate|]. intros Hle. apply Qle_bool_iff in Hle. congruence.
  - rewrite (ruleMatches_tail older first middle input).
    apply Qle_bool_iff. ring_simplify. apply Qle_refl.
  - rewrite (ruleMatches_tail older first middle input).
    destruct (Qle_bool (snd first + withinMs + 1 - snd first) withinMs) eqn:Hb;
      [|reflexivity].
    apply Qle_bool_iff in Hb. exfalso.
    apply (Qlt_irrefl withinMs). eapply Qlt_le_trans; [|exact Hb].
    ring_simplify. rewrite <- (Qplus_0_r withinMs) at 1.
    apply Qplus_lt_r. reflexivity.
Qed.

End ComboDetectorFacts.

(* ===================================================================== *)
(** * The input queue of [PetStage]                                       *)
(* ===================================================================== *)

Module FrameSchedulerFacts.
Import MotionEngine FrameScheduler.
Local Open Scope list_scope.

Lemma takeLast_length {A} n (l : list A) : length (takeLast n l) = min n (length l).
Proof. unfold takeLast. rewrite length_drop. lia. Qed.

Lemma takeLast_snoc {A} (l : list A) p :
  takeLast 120 (l ++ [p]) =
  (if Nat.leb 120 (length (takeLast 120 l)) then tail (takeLast 120 l)
   else takeLast 120 l) ++ [p].
Proof.
  rewrite takeLast_length. unfold takeLast. rewrite length_app. simpl length.
  destruct (Nat.leb 120 (min 120 (length l))) eqn:E.
  - apply Nat.leb_le in E.
    replace (length l + 1 - 120) with (S (length l - 120)) by lia.
    rewrite drop_app_le by lia. f_equal.
    change (tail (drop (length l - 120) l)) with (drop 1 (drop (length l - 120) l)).
    rewrite drop_drop. f_equal. lia.
  - apply Nat.leb_gt in E.
    replace (length l + 1 - 120) with 0 by lia.
    replace (length l - 120) with 0 by lia. reflexivity.
Qed.

(** Of the events [ps], in arrival order: the discrete ones, whose type
    is not ["MouseMove"], and the pointer-move samples. *)
Definition discrete (ps : list MotionEngineInputEvent) : list MotionEngineInputEvent :=
  List.filter (fun p => negb (String.eqb (ev_type p) "MouseMove")) ps.

Definition moves (ps : list MotionEngineInputEvent) : list MotionEngineInputEvent :=
  List.filter (fun p => String.eqb (ev_type p) "MouseMove") ps.

(** The pointer position a sample carries, when it carries one. *)
Definition sampleOf (p : MotionEngineInputEvent) : option (Q * Q) :=
  match ev_x p, ev_y p with
  | Some px, Some py => Some (px, py)
  | _, _ => None
  end.

(** The queue after the events [ps] arrived since the last flush. *)
Lemma arrive_idleQueue n ps :
  let q := arrive (idleQueue n) ps in
  pendingDiscreteInput q = takeLast 120 (discrete ps) /\
  pendingMouseMove q = last (moves ps) /\
  inputFrame q = (match ps with [] => None | _ => Some n end) /\
  nextFrameId q = (match ps with [] => n | _ => S n end).
Proof.
  cbv zeta. induction ps as [|p ps IH] using rev_ind; [now repeat split|].
  unfold arrive in *. rewrite fold_left_app. cbn [fold_left].
  destruct IH as (Hd & Hm & Hf & Hn).
  set (q := fold_left onGlobalInput ps (idleQueue n)) in *.
  unfold discrete, moves in *. rewrite !List.filter_app. cbn [List.filter].
  assert (Hne : match ps ++ [p] with [] => None | _ => Some n end = Some n
                /\ match ps ++ [p] with [] => n | _ => S n end = S n)
    by (now destruct ps).
  destruct Hne as [-> ->].
  unfold onGlobalInput, isMouseMove.
  destruct (String.eqb (ev_type p) "MouseMove") eqn:Ep; cbn [negb].
  - rewrite app_nil_r.
    unfold scheduleInputFrame; cbn [inputFrame pendingDiscreteInput
      pendingMouseMove nextFrameId].
    rewrite last_snoc.
    destruct (inputFrame q) eqn:Eq; cbn [inputFrame pendingDiscreteInput
      pendingMouseMove nextFrameId]; destruct ps; try discriminate;
      repeat split; try assumption; congruence.
  - rewrite app_nil_r, takeLast_snoc, <- Hd.
    unfold scheduleInputFrame; cbn [inputFrame pendingDiscreteInput
      pendingMouseMove nextFrameId].
    destruct (inputFrame q) eqn:Eq; cbn [inputFrame pendingDiscreteInput
      pendingMouseMove nextFrameId]; destruct ps; try discriminate;
      repeat split; try assumption; congruence.
Qed.

Lemma onGlobalInput_pending q p :
  pendingDiscreteInput (onGlobalInput q p) =
  if isMouseMove p then pendingDiscreteInput q
  else (if Nat.leb 120 (length (pendingDiscreteInput q))
        then tail (pendingDiscreteInput q)
        else pendingDiscreteInput q) ++ [p].
Proof.
  unfold onGlobalInput, scheduleInputFrame.
  destruct (isMouseMove p); cbn [inputFrame pendingDiscreteInput];
    now destruct (inputFrame q).
Qed.

Lemma stageStep_bounded q s :
  length (pendingDiscreteInput q) <= 120 ->
  length (pendingDiscreteInput (stageStep q s)) <= 120.
Proof.
  intros H. destruct s as [p|]; cbn [stageStep].
  - rewrite onGlobalInput_pending. destruct (isMouseMove p); [exact H|].
    destruct (Nat.leb 120 (length (pendingDiscreteInput q))) eqn:E;
      rewrite length_app; cbn [length].
    + clear E. destruct (pendingDiscreteInput q) as [|e l];
        cbn [tail length] in *; lia.
    + apply Nat.leb_gt in E. lia.
  - destruct (inputFrame q); [|exact H].
    unfold flushInputInAnimationFrame. cbn [negb].
    destruct (pendingMouseMove q); cbn [fst pendingDiscreteInput length]; lia.
Qed.

(** C9. The discrete queue is bounded and drops the oldest: it never
    holds more than 120 events, whatever arrives and whenever frames
    run; an event that arrives at a full queue takes the place of the
    oldest one; and after the events [ps] have arrived since the last
    flush the queue holds the last 120 discrete events of [ps], in
    arrival order, and no pointer move.  Pointer moves are coalesced: only
    the latest sample is kept.  However many events arrive between two
    frames one flush is requested, and it hands to [handleInput] the
    queued discrete events in arrival order, then the latest pointer-move
    sample if there is one; the position it hands to [handleMouseMove] is
    the one of that latest sample and of no other.  The flush leaves
    nothing pending, so that a frame with no new input flushes nothing. *)
Theorem input_queue_bounded_ordered_coalesced :
  (forall steps,
     length (pendingDiscreteInput (fold_left stageStep steps emptyQueue)) <= 120) /\
  (forall q p,
     ev_type p <> "MouseMove" ->
     length (pendingDiscreteInput q) = 120 ->
     pendingDiscreteInput (onGlobalInput q p) =
     tail (pendingDiscreteInput q) ++ [p]) /\
  (forall n ps,
     let q := arrive (idleQueue n) ps in
     let r := flushInputInAnimationFrame q true in
     pendingDiscreteInput q = takeLast 120 (discrete ps) /\
     pendingMouseMove q = last (moves ps) /\
     inputFrame q = (match ps with [] => None | _ => Some n end) /\
     handled (snd r) = takeLast 120 (discrete ps) ++ option_list (last (moves ps)) /\
     focused (snd r) =
       match last (moves ps) with
       | Some latest => sampleOf latest
       | None => None
       end /\
     fst r = idleQueue (nextFrameId q) /\
     stageStep (fst r) Frame = fst r).
Proof.
  split; [|split].
  - intros steps.
    assert (H : forall q, length (pendingDiscreteInput q) <= 120 ->
              length (pendingDiscreteInput (fold_left stageStep steps q)) <= 120).
    { induction steps as [|s steps IH]; intros q Hq; [exact Hq|].
      simpl. apply IH. now apply stageStep_bounded. }
    apply H. simpl. lia.
  - intros q p Hp Hfull. rewrite onGlobalInput_pending. unfold isMouseMove.
    apply String.eqb_neq in Hp. rewrite Hp, Hfull. reflexivity.
  - intros n ps. cbv zeta.
    destruct (arrive_idleQueue n ps) as (Hd & Hm & Hf & Hn).
    split; [exact Hd|]. split; [exact Hm|]. split; [exact Hf|].
    unfold flushInputInAnimationFrame. cbn [negb].
    rewrite Hd, Hm. unfold sampleOf.
    destruct (last (moves ps)); cbn [snd fst handled focused option_list];
      rewrite ?app_nil_r; repeat split; reflexivity.
Qed.

End FrameSchedulerFacts.

(* ===================================================================== *)
(** * The motion engine: bindings, idle candidates, life cycle            *)
(* ===================================================================== *)

Module MotionEngineProperties.
Import MotionEngine JsFacts.
Local Open Scope list_scope.

Lemma trim_validString raw : isEmpty (trim raw) = false -> validString (trim raw).
Proof. intros H. split; [apply trim_idem | exact H]. Qed.

Lemma resolveCandidates_spec (m : gmap string jsval) candidates :
  match resolveCandidates m candidates with
  | Some s =>
      validString s /\
      exists key raw,
        key ∈ candidates /\ m !! key = Some (JStr raw) /\ s = trim raw
  | None =>
      forall key raw,
        key ∈ candidates -> m !! key = Some (JStr raw) ->
        isEmpty (trim raw) = true
  end.
Proof.
  induction candidates as [|key r IH]; simpl.
  - intros key raw H. inversion H.
  - assert (Hskip :
      (forall raw, m !! key = Some (JStr raw) -> isEmpty (trim raw) = true) ->
      match resolveCandidates m r with
      | Some s =>
          validString s /\
          exists key0 raw,
            key0 ∈ key :: r /\ m !! key0 = Some (JStr raw) /\ s = trim raw
      | None =>
          forall key0 raw,
            key0 ∈ key :: r -> m !! key0 = Some (JStr raw) ->
            isEmpty (trim raw) = true
      end).
    { intros Hk. destruct (resolveCandidates m r) as [s|].
      - destruct IH as (Hs & key0 & raw & Hin & Hm & ->).
        split; [exact Hs|]. exists key0, raw.
        split; [now apply list_elem_of_further | now split].
      - intros key0 raw Hin Hm. apply elem_of_cons in Hin as [->|Hin];
          [now apply Hk | now apply (IH key0)]. }
    destruct (m !! key) as [[| | | | |mapped| |]|] eqn:E;
      try (apply Hskip; intros raw [=]).
    destruct (isEmpty (trim mapped)) eqn:Hm.
    + apply Hskip. now intros raw [= <-].
    + split; [now apply trim_validString|].
      exists key, mapped. split; [apply list_elem_of_here | now split].
Qed.

(** A binding is resolved to the trimmed text of the first non-blank
    string found under the binding's own name or, failing that, under its
    alias; the binding's own entry wins; and the answer is [null] only
    when neither name holds a non-blank string. *)
Theorem resolveBindingMotion_spec (m : gmap string jsval) (binding : string) :
  (forall raw,
     m !! binding = Some (JStr raw) -> isEmpty (trim raw) = false ->
     resolveBindingMotion m binding = Some (trim raw)) /\
  match resolveBindingMotion m binding with
  | Some s =>
      validString s /\
      exists key raw,
        key ∈ binding :: keyAliases binding /\
        m !! key = Some (JStr raw) /\ s = trim raw
  | None =>
      forall key raw,
        key ∈ binding :: keyAliases binding ->
        m !! key = Some (JStr raw) -> isEmpty (trim raw) = true
  end.
Proof.
  split; [|apply resolveCandidates_spec].
  intros raw Hm Hne. unfold resolveBindingMotion. simpl.
  now rewrite Hm, Hne.
Qed.

Lemma keyAliases_cases key :
  keyAliases key = [] \/
  exists other, keyAliases key = [other] /\ keyAliases other = [key].
Proof.
  unfold keyAliases.
  destruct (String.eqb_spec key "ArrowLeft") as [->|]; [right; eauto|].
  destruct (String.eqb_spec key "LeftArrow") as [->|]; [right; eauto|].
  destruct (String.eqb_spec key "ArrowRight") as [->|]; [right; eauto|].
  destruct (String.eqb_spec key "RightArrow") as [->|]; [right; eauto|].
  now left.
Qed.

(** The two spellings of an arrow key are interchangeable: when a key's
    own name holds no usable motion, the key resolves to whatever its
    alias resolves to. *)
Theorem resolveBindingMotion_alias (m : gmap string jsval) key other :
  other ∈ keyAliases key ->
  (forall raw, m !! key = Some (JStr raw) -> isEmpty (trim raw) = true) ->
  resolveBindingMotion m key = resolveBindingMotion m other.
Proof.
  intros Hin Hkey.
  destruct (keyAliases_cases key) as [E|(o & E & E')];
    rewrite E in Hin; [inversion Hin|].
  apply list_elem_of_singleton in Hin as ->.
  unfold resolveBindingMotion. rewrite E, E'. simpl.
  destruct (m !! key) as [[| | | | |mapped| |]|];
    destruct (m !! o) as [[| | | | |mo| |]|]; try reflexivity;
    try (destruct (isEmpty (trim mo)); reflexivity);
    rewrite (Hkey mapped eq_refl); reflexivity.
Qed.

Lemma resolveBindingMotion_alias_witness :
  resolveBindingMotion {[ "LeftArrow" := JStr " tap_left " ]} "ArrowLeft" =
  resolveBindingMotion {[ "LeftArrow" := JStr " tap_left " ]} "LeftArrow".
Proof.
  apply resolveBindingMotion_alias.
  - vm_compute. apply list_elem_of_here.
  - intros raw H. vm_compute in H. discriminate.
Defined.

(** ** Idle candidates *)

(** What [parseIdleCandidates] lets through: a trimmed, non-empty motion
    name and a weight between 0.01 and 100. *)
Definition wfCandidate (c : IdleCandidate) : Prop :=
  validString (motion c) /\ (1 # 100 <= weight c)%Q /\ (weight c <= 100)%Q.

Lemma clamp_range v lo hi :
  (lo <= hi)%Q -> (lo <= clamp v lo hi)%Q /\ (clamp v lo hi <= hi)%Q.
Proof.
  intros H. unfold clamp. split.
  - apply Q.min_glb; [exact H | apply Q.le_max_l].
  - apply Q.le_min_l.
Qed.

Lemma parseIdleCandidate_wf item c :
  parseIdleCandidate item = Some c -> wfCandidate c.
Proof.
  assert (Hone : ((1 # 100) <= 1)%Q /\ (1 <= 100)%Q) by (split; discriminate).
  assert (Hw : forall o : option jsval,
             ((1 # 100) <=
              match o with Some (JNum w) => clamp w (1 # 100) 100 | _ => 1 end)%Q /\
             (match o with Some (JNum w) => clamp w (1 # 100) 100 | _ => 1 end
              <= 100)%Q).
  { intros [[| | |w| | | |]|]; try exact Hone. now apply clamp_range. }
  unfold parseIdleCandidate.
  destruct item as [| | | | |s| |es]; try discriminate.
  - destruct (isEmpty (trim s)) eqn:E; [discriminate|]. intros [= <-].
    split; [now apply trim_validString | exact Hone].
  - set (motionRaw := match assoc "motion" es with
                      | None | Some JUndefined | Some JNull => _
                      | Some v => v
                      end).
    destruct motionRaw as [| | | | |s| |]; try discriminate.
    destruct (isEmpty (trim s)) eqn:E; [discriminate|]. intros [= <-].
    split; [now apply trim_validString | apply Hw].
Qed.

Lemma parseIdleCandidates_Forall (m : gmap string jsval) :
  Forall wfCandidate (parseIdleCandidates m).
Proof.
  unfold parseIdleCandidates.
  destruct (m !! "idle") as [[| | | | | |raw|]|]; try constructor.
  apply Forall_forall. intros c Hc.
  apply list_elem_of_omap in Hc as (item & _ & Hitem).
  exact (parseIdleCandidate_wf _ _ Hitem).
Qed.

(** Every idle candidate the engine reads from a motion map, whatever the
    map holds, has a trimmed, non-empty motion name and a weight between
    0.01 and 100; a text entry has weight 1. *)
Theorem parseIdleCandidates_wf (m : gmap string jsval) :
  Forall wfCandidate (idleMotions m) /\
  (forall raw s, m !! "idle" = Some (JArr raw) -> JStr s ∈ raw ->
     isEmpty (trim s) = false ->
     {| motion := trim s; weight := 1 |} ∈ idleMotions m).
Proof.
  split; [apply parseIdleCandidates_Forall|].
  intros raw s Hm Hin Hs. unfold idleMotions, parseIdleCandidates.
  rewrite Hm. apply list_elem_of_omap. exists (JStr s).
  split; [exact Hin|]. simpl. now rewrite Hs.
Qed.

Lemma totalWeight_ge (cs : list IdleCandidate) acc :
  Forall (fun c => (0 < weight c)%Q) cs ->
  (acc <= fold_left (fun sum item => (sum + weight item)%Q) cs acc)%Q.
Proof.
  intros H. revert acc. induction H as [|c cs Hc _ IH]; intros acc; simpl.
  - apply Qle_refl.
  - eapply Qle_trans; [|apply IH]. Lqa.lra.
Qed.

Lemma drawTicket_elem cs ticket name :
  drawTicket cs ticket = Some name -> name ∈ motion <$> cs.
Proof.
  revert ticket. induction cs as [|c cs IH]; intros ticket; simpl;
    [discriminate|].
  destruct (Qle_bool (ticket - weight c) 0).
  - intros [= <-]. apply list_elem_of_here.
  - intros H. apply list_elem_of_further. exact (IH _ H).
Qed.

Lemma pickWeightedIdleMotion_positive cs random :
  Forall (fun c => (0 < weight c)%Q) cs -> cs <> [] ->
  exists name,
    pickWeightedIdleMotion cs random = Some name /\ name ∈ motion <$> cs.
Proof.
  intros Hpos Hne. destruct cs as [|c cs]; [contradiction|].
  unfold pickWeightedIdleMotion.
  assert (Htot :
    Qle_bool (fold_left (fun sum item => (sum + weight item)%Q) (c :: cs) 0%Q)
      0%Q = false).
  { apply not_true_is_false. intros H. apply Qle_bool_imp_le in H.
    inversion Hpos as [|? ? Hc Hcs]; subst. simpl in H.
    pose proof (totalWeight_ge cs (0 + weight c) Hcs). Lqa.lra. }
  rewrite Htot.
  destruct (drawTicket (c :: cs) _) as [name|] eqn:E.
  - exists name. split; [reflexivity | exact (drawTicket_elem _ _ _ E)].
  - destruct (last (c :: cs)) as [x|] eqn:El.
    + exists (motion x). split; [reflexivity|].
      apply list_elem_of_fmap. exists x.
      split; [reflexivity | exact (last_Some_elem_of _ _ El)].
    + apply last_None in El. discriminate.
Qed.

(** An idle draw over the candidates read from a motion map always
    succeeds when there is a candidate, whatever number the random source
    gives, and names one of the candidates; it answers [null] only when
    there is none. *)
Theorem pickWeightedIdleMotion_parsed (m : gmap string jsval) (random : Q) :
  match pickWeightedIdleMotion (parseIdleCandidates m) random with
  | Some name => name ∈ motion <$> parseIdleCandidates m
  | None => parseIdleCandidates m = []
  end.
Proof.
  destruct (parseIdleCandidates m) as [|c cs] eqn:E; [reflexivity|].
  destruct (pickWeightedIdleMotion_positive (c :: cs) random)
    as (name & -> & Hin); [|discriminate|exact Hin].
  rewrite <- E. eapply Forall_impl; [apply parseIdleCandidates_Forall|].
  intros x (_ & Hlo & _). simpl. Lqa.lra.
Qed.

(** Two candidates with the same motion name and the same weight (as
    numbers). *)
Definition sameCandidate (c c' : IdleCandidate) : Prop :=
  motion c' = motion c /\ (weight c' == weight c)%Q.

Lemma clamp_in_range v lo hi :
  (lo <= v)%Q -> (v <= hi)%Q -> (clamp v lo hi == v)%Q.
Proof.
  intros Hlo Hhi. unfold clamp.
  rewrite (Q.max_r lo v Hlo). now apply Q.min_r.
Qed.

Lemma parseIdleCandidate_toIdleMotionItem c :
  wfCandidate c ->
  exists c', parseIdleCandidate (toIdleMotionItem c) = Some c' /\
             sameCandidate c c'.
Proof.
  intros ((Htrim & Hne) & Hlo & Hhi). unfold toIdleMotionItem.
  destruct (Qeq_bool (weight c) 1) eqn:E.
  - simpl. rewrite Htrim, Hne. eexists. split; [reflexivity|].
    split; [reflexivity|]. simpl. symmetry. now apply Qeq_bool_eq.
  - cbn. rewrite Htrim, Hne. eexists. split; [reflexivity|].
    split; [reflexivity|]. simpl. now apply clamp_in_range.
Qed.

Lemma omap_parseIdleCandidate_toIdleMotionItem cs :
  Forall wfCandidate cs ->
  Forall2 sameCandidate cs
    (omap parseIdleCandidate (toIdleMotionItem <$> cs)).
Proof.
  induction 1 as [|c cs Hc _ IH]; [constructor|].
  destruct (parseIdleCandidate_toIdleMotionItem c Hc) as (c' & E & Hsame).
  rewrite fmap_cons. cbn [omap list_omap]. rewrite E.
  constructor; assumption.
Qed.

(** Writing idle candidates as motion-map items and reading them back
    gives the same candidates: [parseIdleCandidates] undoes
    [toIdleMotionItem], for the well-formed candidates and so for all
    those read from a motion map. *)
Theorem idleMotions_toIdleMotionItem_roundtrip (m : gmap string jsval) :
  (forall cs, Forall wfCandidate cs ->
     Forall2 sameCandidate cs
       (idleMotions (<["idle" := JArr (toIdleMotionItem <$> cs)]> m))) /\
  Forall2 sameCandidate (idleMotions m)
    (idleMotions (<["idle" := JArr (toIdleMotionItem <$> idleMotions m)]> m)).
Proof.
  assert (H : forall cs, Forall wfCandidate cs ->
     Forall2 sameCandidate cs
       (idleMotions (<["idle" := JArr (toIdleMotionItem <$> cs)]> m))).
  { intros cs Hcs. unfold idleMotions at 1, parseIdleCandidates.
    rewrite lookup_insert_eq.
    now apply omap_parseIdleCandidate_toIdleMotionItem. }
  split; [exact H|]. apply H, parseIdleCandidates_Forall.
Qed.

(** ** The bindings of a motion map *)

Lemma bindings_fold_lookup (l : list (string * jsval))
    (acc : gmap string string) k :
  NoDup l.*1 ->
  foldl (fun acc entry =>
           match snd entry with
           | JStr value => writeProp acc (fst entry) value
           | _ => acc
           end) acc l !! k =
  match (list_to_map l : gmap string jsval) !! k with
  | Some (JStr s) => if String.eqb k "__proto__" then acc !! k else Some s
  | _ => acc !! k
  end.
Proof.
  revert acc. induction l as [|[k0 v0] l IH]; intros acc Hnd; simpl.
  - now rewrite lookup_empty.
  - inversion Hnd as [|? ? Hk0 Hnd']; subst. rewrite IH by assumption.
    unfold writeProp.
    destruct (decide (k = k0)) as [->|Hne].
    + rewrite (not_elem_of_list_to_map_1 _ _ Hk0), lookup_insert_eq.
      destruct v0; try reflexivity.
      destruct (String.eqb k0 "__proto__"); [reflexivity|].
      now rewrite lookup_insert_eq.
    + rewrite (lookup_insert_ne _ _ _ _ (not_eq_sym Hne)).
      destruct (list_to_map l !! k) as [[| | | | |s| |]|]; try reflexivity;
        destruct v0; try reflexivity;
        destruct (String.eqb k0 "__proto__"); try reflexivity;
        now rewrite lookup_insert_ne by congruence.
Qed.

Lemma NoDup_fst_filter {A} (P : string * A -> bool) (l : list (string * A)) :
  NoDup l.*1 -> NoDup (List.filter P l).*1.
Proof.
  induction l as [|x l IH]; simpl; intros Hnd; [constructor|].
  inversion Hnd as [|? ? Hx Hnd']; subst.
  destruct (P x); [|now apply IH].
  rewrite fmap_cons. constructor; [|now apply IH].
  intros Hin. apply Hx.
  apply list_elem_of_fmap in Hin as (y & -> & Hy).
  apply list_elem_of_fmap. exists y. split; [reflexivity|].
  apply list_elem_of_In in Hy. apply filter_In in Hy as [Hy _].
  now apply list_elem_of_In.
Qed.

(** [motionMapBindings] keeps exactly the entries of the motion map whose
    value is a string and whose name is neither reserved nor
    [__proto__]: a name is bound to [s] in the result exactly when it is
    none of [idle], [idleTimeoutMs] and [__proto__] and the motion map
    binds it to the string [s].  (A write under [__proto__] adds no
    property to the result.) *)
Theorem motionMapBindings_lookup (m : gmap string jsval) (k s : string) :
  motionMapBindings m !! k = Some s <->
  k <> "idle" /\ k <> "idleTimeoutMs" /\ k <> "__proto__" /\
  m !! k = Some (JStr s).
Proof.
  unfold motionMapBindings.
  set (P := fun entry : string * jsval =>
              negb (existsb (String.eqb (fst entry)) RESERVED_KEYS)).
  assert (Hnd : NoDup (List.filter P (map_to_list m)).*1)
    by apply NoDup_fst_filter, NoDup_fst_map_to_list.
  assert (Hin : forall v,
             (k, v) ∈ List.filter P (map_to_list m) <->
             (k <> "idle" /\ k <> "idleTimeoutMs") /\ m !! k = Some v).
  { intros v. rewrite list_elem_of_In, filter_In, <- list_elem_of_In.
    rewrite elem_of_map_to_list. unfold P, RESERVED_KEYS. simpl.
    destruct (String.eqb_spec k "idle") as [H1|H1];
      destruct (String.eqb_spec k "idleTimeoutMs") as [H2|H2]; simpl;
      intuition congruence. }
  rewrite bindings_fold_lookup, lookup_empty by exact Hnd.
  split.
  - destruct (list_to_map _ !! k) as [[| | | | |s'| |]|] eqn:E;
      try discriminate.
    destruct (String.eqb_spec k "__proto__") as [Hp|Hp]; [discriminate|].
    intros [= ->]. apply elem_of_list_to_map_2, Hin in E. tauto.
  - intros (H1 & H2 & H3 & Hm).
    assert (E : (k, JStr s) ∈ List.filter P (map_to_list m))
      by (apply Hin; tauto).
    apply (elem_of_list_to_map_1 (M := gmap string)) in E; [|exact Hnd].
    rewrite E. apply String.eqb_neq in H3. now rewrite H3.
Qed.

(** ** The life cycle of a fallback tween *)

(** The tween [triggerFallbackTween] starts in the world [w]. *)
Definition tweenOf (w : World) (random perfNow : Q) : Tween :=
  let o := model w in
  let direction := (if Qlt_le_dec (1 # 2) random then 1 else -1)%Q in
  {| origin := o;
     peak := {| scaleX := (scaleX o * (1 + (8 # 100)))%Q;
                scaleY := (scaleY o * (1 - (6 # 100)))%Q;
                rotation := (rotation o + direction * (8 # 100))%Q;
                x := (x o + direction * 12)%Q;
                y := (y o - 6)%Q |};
     startAt := perfNow |}.

Lemma triggerFallbackTween_shape w reason random perfNow :
  let w' := triggerFallbackTween w reason random perfNow in
  model w' = model w /\
  state w' = setFallbackRafId (state w) (Some (nextRafId w)) /\
  registered w' = registered w /\
  rafQueue w' =
    match fallbackRafId (state w) with
    | Some id => List.filter (fun cb => negb (Nat.eqb (fst cb) id)) (rafQueue w)
    | None => rafQueue w
    end ++ [(nextRafId w, tweenOf w random perfNow)] /\
  intervals w' = intervals w /\
  nextTimerId w' = nextTimerId w /\
  console w' = console w ++ ["[motion-engine] fallback tween: " +:+ reason].
Proof.
  unfold triggerFallbackTween, tweenOf. simpl.
  destruct (fallbackRafId (state w)); simpl; repeat split; reflexivity.
Qed.

Lemma engineInv_freshWorld : engineInv freshWorld.
Proof. repeat split; try reflexivity. now left. Qed.

Lemma engineInv_log w line : engineInv w -> engineInv (log w line).
Proof. intros H. exact H. Qed.

Lemma engineInv_triggerFallbackTween w reason random perfNow :
  engineInv w -> registered w = true ->
  engineInv (triggerFallbackTween w reason random perfNow).
Proof.
  intros (Hcb & Htm & _) Hreg.
  destruct (triggerFallbackTween_shape w reason random perfNow)
    as (_ & Hs & Hr & Hq & Hi & Hn & _).
  split; [|split].
  - right. exists (nextRafId w), (tweenOf w random perfNow).
    rewrite Hq, Hs. split; [|reflexivity].
    destruct Hcb as [E|(id & tw & E & Ef)].
    + rewrite E. now destruct (fallbackRafId (state w)).
    + rewrite E, Ef. simpl. now rewrite Nat.eqb_refl.
  - unfold oneTimer in *. rewrite Hn, Hr, Hi, Hs. exact Htm.
  - rewrite Hr, Hreg. discriminate.
Qed.

Lemma engineInv_playMotionOrFallback w motionName reason answer random perfNow :
  engineInv w -> registered w = true ->
  engineInv (playMotionOrFallback w motionName reason answer random perfNow).
Proof.
  intros H Hreg. unfold playMotionOrFallback, playMotionOrFallback_resume.
  destruct motionName as [name|]; [destruct answer|];
    first [exact H | now apply engineInv_triggerFallbackTween].
Qed.

Lemma registered_triggerFallbackTween w reason random perfNow :
  registered (triggerFallbackTween w reason random perfNow) = registered w.
Proof. apply triggerFallbackTween_shape. Qed.

Lemma registered_playMotionOrFallback w motionName reason answer random perfNow :
  registered (playMotionOrFallback w motionName reason answer random perfNow)
  = registered w.
Proof.
  unfold playMotionOrFallback, playMotionOrFallback_resume.
  destruct motionName as [name|]; [destruct answer|];
    try reflexivity; now rewrite registered_triggerFallbackTween.
Qed.

Lemma engineInv_handleInput event w motionMap dateNow answer random perfNow :
  engineInv w ->
  engineInv (handleInput event w motionMap dateNow answer random perfNow) /\
  registered (handleInput event w motionMap dateNow answer random perfNow) = true.
Proof.
  intros (Hcb & (Hn & Htm) & Hq).
  set (w0 := ensureEngineState w motionMap dateNow).
  assert (H0 : engineInv w0 /\ registered w0 = true).
  { unfold w0, ensureEngineState. destruct (registered w) eqn:Hreg.
    - split; [|exact Hreg]. split; [exact Hcb|].
      split; [|simpl; rewrite Hreg; discriminate].
      split; [exact Hn|]. simpl. rewrite Hreg. exact Htm.
    - split; [|reflexivity]. split; [left; simpl; now apply Hq|].
      split; [|discriminate].
      split; simpl; [lia|]. rewrite Htm. split; [reflexivity | exact Hn]. }
  destruct H0 as (H0 & Hr0).
  set (w2 := if isUserInputEvent (ev_type event)
             then setState (setState w0 (setSettings (state w0) motionMap))
                    (setLastInputAt
                       (state (setState w0 (setSettings (state w0) motionMap)))
                       (match ev_timestamp event with
                        | Some t => t
                        | None => dateNow
                        end))
             else setState w0 (setSettings (state w0) motionMap)).
  assert (H2 : engineInv w2 /\ registered w2 = true).
  { destruct H0 as (Hcb0 & (Hn0 & Htm0) & Hq0). rewrite Hr0 in Htm0.
    unfold w2. destruct (isUserInputEvent (ev_type event));
      (split; [|exact Hr0]); (split; [exact Hcb0|]);
      (split; [|exact Hq0]); (split; [exact Hn0|]); simpl;
      rewrite Hr0; exact Htm0. }
  destruct H2 as (H2 & Hr2).
  assert (Htr : forall reason r p,
             registered (triggerFallbackTween w2 reason r p) = true).
  { intros. now rewrite registered_triggerFallbackTween. }
  assert (Hpm : forall name reason a r p,
             registered (playMotionOrFallback w2 name reason a r p) = true).
  { intros. now rewrite registered_playMotionOrFallback. }
  unfold handleInput. fold w0. fold w2.
  destruct (String.eqb (ev_type event) "KeyPress").
  { destruct (trim <$> ev_keyCode event) as [keyCode|];
      [destruct (isEmpty keyCode)|];
      (split; [first [now apply engineInv_triggerFallbackTween
                     |now apply engineInv_playMotionOrFallback]
              |first [apply Htr | apply Hpm]]). }
  destruct (String.eqb (ev_type event) "ButtonPress").
  { split; [now apply engineInv_playMotionOrFallback | apply Hpm]. }
  now split.
Qed.

Lemma animate_disposed tw now w :
  disposed (state w) = true -> animate tw now w = w.
Proof. intros H. unfold animate. now rewrite H. Qed.

Lemma engineInv_runAnimationFrame now w :
  engineInv w -> engineInv (runAnimationFrame now w).
Proof.
  intros (Hcb & (Hn & Htm) & Hq). unfold runAnimationFrame.
  destruct Hcb as [E|(id & tw & E & Ef)]; rewrite E; simpl.
  - split; [now left|]. split; [split; [exact Hn | exact Htm]|]. reflexivity.
  - assert (Hreg : registered w = true).
    { destruct (registered w); [reflexivity|]. now rewrite Hq in E. }
    unfold animate. simpl.
    destruct (disposed (state w)).
    { split; [now left|]. split; [split; [exact Hn | exact Htm]|]. reflexivity. }
    destruct (Qle_bool (now - startAt tw) upDuration).
    { split; [right; eexists _, _; simpl; split; reflexivity|].
      split; [split; [exact Hn | exact Htm]|]. simpl. rewrite Hreg. discriminate. }
    destruct (Qle_bool (now - startAt tw - upDuration) downDuration).
    { split; [right; eexists _, _; simpl; split; reflexivity|].
      split; [split; [exact Hn | exact Htm]|]. simpl. rewrite Hreg. discriminate. }
    split; [now left|]. split; [split; [exact Hn | exact Htm]|]. reflexivity.
Qed.

Lemma engineInv_maybePlayIdle w dateNow pick answer random perfNow :
  engineInv w -> registered w = true ->
  engineInv (fst (maybePlayIdle w dateNow pick answer random perfNow)).
Proof.
  intros H Hreg. unfold maybePlayIdle.
  destruct (disposed (state w) || idlePlaying (state w))%bool; [exact H|].
  destruct (Qlt_le_dec _ _); [exact H|].
  destruct (Qlt_le_dec _ _); [exact H|].
  cbn [fst].
  set (w1 := setState w _).
  assert (H1 : engineInv w1).
  { destruct H as (Hcb & (Hn & Htm) & Hq). rewrite Hreg in Htm.
    split; [exact Hcb|]. split; [|exact Hq]. split; [exact Hn|].
    simpl. rewrite Hreg. exact Htm. }
  pose proof (engineInv_playMotionOrFallback w1 (pickWeightedIdleMotion
    (parseIdleCandidates (settings (state w))) pick) "idle" answer random
    perfNow H1 Hreg) as (Hcb & (Hn & Htm) & Hq).
  split; [exact Hcb|]. split; [|exact Hq]. split; [exact Hn|]. exact Htm.
Qed.

Lemma engineInv_disposeMotionEngine w :
  engineInv w -> engineInv (disposeMotionEngine w).
Proof.
  intros H. unfold disposeMotionEngine.
  destruct (registered w) eqn:Hreg; simpl; [|exact H].
  destruct H as (Hcb & (Hn & Htm) & _). rewrite Hreg in Htm.
  destruct Htm as (Hi & Hpos).
  assert (Hq : match fallbackRafId (state w) with
               | Some id =>
                   List.filter (fun cb => negb (Nat.eqb (fst cb) id)) (rafQueue w)
               | None => rafQueue w
               end = []).
  { destruct Hcb as [E|(id & tw & E & Ef)].
    - rewrite E. now destruct (fallbackRafId (state w)).
    - rewrite E, Ef. simpl. now rewrite Nat.eqb_refl. }
  split; [left; exact Hq|]. split; [|intros _; exact Hq].
  split; [exact Hn|]. simpl.
  destruct (0 <=? idleTimerId (state w))%Z eqn:E0; [|apply Z.leb_gt in E0; lia].
  rewrite Hi. simpl. now rewrite Z.eqb_refl.
Qed.

(** The engine keeps its frame callbacks and its timer under control,
    whatever happens and in whatever order.  Let at most one callback of
    a fallback tween wait, the one [state.fallbackRafId] names, let the
    idle timer of the state run, alone, exactly while the model is
    registered, and let nothing wait for a model that is not registered.
    Then the same holds after an input, after a frame, after an idle
    check, after the runtime's answer to an awaited dispatch has come in
    (while the model is registered), and after a disposal, which leaves
    no callback and no timer.  An answer that comes in after the disposal
    still queues one callback, since the awaited call resumes without a
    test of [state.disposed]; that callback starts no timer, does not
    move the model, and is gone after the next frame. *)
Theorem engine_keeps_one_callback_one_timer (w : World) :
  engineInv w ->
  (forall event motionMap dateNow answer random perfNow,
     engineInv (handleInput event w motionMap dateNow answer random perfNow)) /\
  (forall now, engineInv (runAnimationFrame now w)) /\
  (forall dateNow pick answer random perfNow,
     registered w = true ->
     engineInv (fst (maybePlayIdle w dateNow pick answer random perfNow))) /\
  (forall name reason answer random perfNow,
     registered w = true ->
     engineInv (playMotionOrFallback_resume w name reason answer random perfNow)) /\
  (engineInv (disposeMotionEngine w) /\
   rafQueue (disposeMotionEngine w) = [] /\
   intervals (disposeMotionEngine w) = []) /\
  (forall name reason answer random perfNow now,
     registered w = true ->
     let late :=
       playMotionOrFallback_resume (disposeMotionEngine w) name reason answer
         random perfNow in
     length (rafQueue late) <= 1 /\
     intervals late = [] /\
     model late = model w /\
     model (runAnimationFrame now late) = model w /\
     rafQueue (runAnimationFrame now late) = []).
Proof.
  intros Hinv.
  pose proof (engineInv_disposeMotionEngine w Hinv) as Hdis.
  assert (Hgone : rafQueue (disposeMotionEngine w) = [] /\
                  intervals (disposeMotionEngine w) = []).
  { destruct Hdis as (_ & (_ & Htm) & Hq).
    assert (Hr : registered (disposeMotionEngine w) = false).
    { unfold disposeMotionEngine. destruct (registered w) eqn:E; simpl;
        [reflexivity | exact E]. }
    rewrite Hr in Htm. split; [now apply Hq | exact Htm]. }
  split; [|split; [|split; [|split; [|split]]]].
  - intros. now apply engineInv_handleInput.
  - intros. now apply engineInv_runAnimationFrame.
  - intros. now apply engineInv_maybePlayIdle.
  - intros name reason answer random perfNow Hreg.
    exact (engineInv_playMotionOrFallback w (Some name) reason answer random
             perfNow Hinv Hreg).
  - split; [exact Hdis | exact Hgone].
  - intros name reason answer random perfNow now Hreg. cbv zeta.
    destruct Hgone as (Hq & Hi).
    set (wd := disposeMotionEngine w) in *.
    assert (Hm : model wd = model w).
    { unfold wd, disposeMotionEngine. now rewrite Hreg. }
    assert (Hd : disposed (state wd) = true).
    { unfold wd, disposeMotionEngine. now rewrite Hreg. }
    assert (Hframe : forall w1,
               disposed (state w1) = true ->
               model (runAnimationFrame now w1) = model w1 /\
               rafQueue (runAnimationFrame now w1) = []).
    { intros w1 H1. unfold runAnimationFrame.
      induction (rafQueue w1) as [|cb l IH] using rev_ind; [now split|].
      rewrite fold_left_app. cbn [fold_left].
      destruct IH as (IH1 & IH2).
      rewrite animate_disposed; [now split|].
      clear IH1 IH2. induction l as [|cb' l IHl] using rev_ind; [exact H1|].
      rewrite fold_left_app. cbn [fold_left].
      now rewrite animate_disposed. }
    assert (Htrig : forall w1 r,
               rafQueue w1 = [] -> intervals w1 = [] ->
               disposed (state w1) = true -> model w1 = model w ->
               let w2 := triggerFallbackTween w1 r random perfNow in
               length (rafQueue w2) <= 1 /\ intervals w2 = [] /\
               model w2 = model w /\
               model (runAnimationFrame now w2) = model w /\
               rafQueue (runAnimationFrame now w2) = []).
    { intros w1 r H1 H2 H3 H4. cbv zeta.
      destruct (triggerFallbackTween_shape w1 r random perfNow)
        as (Hm' & Hs' & _ & Hq' & Hi' & _).
      assert (Hd' : disposed (state (triggerFallbackTween w1 r random perfNow))
                    = true) by now rewrite Hs'.
      destruct (Hframe _ Hd') as (F1 & F2).
      rewrite Hq', H1, Hi', H2, F1, Hm', H4.
      repeat split; try exact F2.
      destruct (fallbackRafId (state w1)); simpl; lia. }
    unfold playMotionOrFallback_resume. destruct answer.
    + destruct (Hframe wd Hd) as (F1 & F2).
      rewrite Hq, Hi, F1, Hm. repeat split; try exact F2. simpl. lia.
    + apply (Htrig (log wd _)); assumption.
    + apply (Htrig (log wd _)); assumption.
Qed.

Lemma engine_keeps_one_callback_one_timer_witness :
  engineInv afterFirstPress /\
  rafQueue afterFirstPress <> [] /\
  rafQueue (disposeMotionEngine afterFirstPress) = [].
Proof.
  assert (H : engineInv afterFirstPress).
  { split; [|split].
    - right. eexists _, _. split; reflexivity.
    - split; [reflexivity|]. split; reflexivity.
    - discriminate. }
  split; [exact H|]. split; [discriminate|].
  apply (engine_keeps_one_callback_one_timer afterFirstPress H).
Defined.

(** The tween [tw] is the only one in flight in [w], or it has ended
    and left the model at its origin. *)
Definition inFlight (tw : Tween) (w : World) : Prop :=
  disposed (state w) = false /\
  ((exists id, rafQueue w = [(id, tw)] /\ fallbackRafId (state w) = Some id) \/
   (rafQueue w = [] /\ fallbackRafId (state w) = None /\ model w = origin tw)).

Lemma inFlight_runAnimationFrame tw now w :
  inFlight tw w -> inFlight tw (runAnimationFrame now w).
Proof.
  intros (Hd & [(id & E & Ef)|(E & Ef & Hm)]); unfold runAnimationFrame;
    rewrite E; simpl.
  - unfold animate. simpl. rewrite Hd.
    destruct (Qle_bool (now - startAt tw) upDuration).
    { split; [exact Hd|]. left. eexists. split; reflexivity. }
    destruct (Qle_bool (now - startAt tw - upDuration) downDuration).
    { split; [exact Hd|]. left. eexists. split; reflexivity. }
    split; [exact Hd|]. right. repeat split.
  - split; [exact Hd|]. right. repeat split; assumption.
Qed.

Lemma inFlight_runAnimationFrames tw nows w :
  inFlight tw w -> inFlight tw (runAnimationFrames nows w).
Proof.
  unfold runAnimationFrames. revert w.
  induction nows as [|now nows IH]; intros w H; simpl; [exact H|].
  apply IH, inFlight_runAnimationFrame, H.
Qed.

Lemma inFlight_ends tw now w :
  inFlight tw w -> (upDuration + downDuration < now - startAt tw)%Q ->
  model (runAnimationFrame now w) = origin tw /\
  rafQueue (runAnimationFrame now w) = [] /\
  fallbackRafId (state (runAnimationFrame now w)) = None.
Proof.
  unfold upDuration, downDuration.
  intros (Hd & [(id & E & Ef)|(E & Ef & Hm)]) Hlate; unfold runAnimationFrame;
    rewrite E; simpl; [|repeat split; assumption].
  unfold animate. simpl. rewrite Hd.
  destruct (Qle_bool (now - startAt tw) upDuration) eqn:E1.
  { apply Qle_bool_imp_le in E1. unfold upDuration in E1. Lqa.lra. }
  destruct (Qle_bool (now - startAt tw - upDuration) downDuration) eqn:E2.
  { apply Qle_bool_imp_le in E2. unfold upDuration, downDuration in E2.
    Lqa.lra. }
  repeat split.
Qed.

(** A fallback tween that is not superseded puts the model back exactly
    where it was.  Started when no other callback waits, and whatever
    frames the browser renders in between, the first frame later than
    380 ms (160 up, 220 down) after the start writes the original
    transform back, clears [fallbackRafId] and requests no further
    frame. *)
Theorem fallback_tween_returns_to_origin (w : World) (reason : string)
    (random perfNow : Q) (nows : list Q) (final : Q) :
  rafQueue w = [] -> disposed (state w) = false ->
  (380 < final - perfNow)%Q ->
  let w' := runAnimationFrame final
              (runAnimationFrames nows
                 (triggerFallbackTween w reason random perfNow)) in
  model w' = model w /\ rafQueue w' = [] /\ fallbackRafId (state w') = None.
Proof.
  intros Hq Hd Hlate.
  destruct (triggerFallbackTween_shape w reason random perfNow)
    as (_ & Hs & _ & Hq' & _).
  assert (H : inFlight (tweenOf w random perfNow)
                (triggerFallbackTween w reason random perfNow)).
  { split; [now rewrite Hs|]. left. exists (nextRafId w).
    rewrite Hq', Hs, Hq. split; [|reflexivity].
    now destruct (fallbackRafId (state w)). }
  apply (inFlight_runAnimationFrames _ nows) in H.
  apply (inFlight_ends _ final) in H; [exact H|].
  unfold upDuration, downDuration. simpl. Lqa.lra.
Qed.

Lemma fallback_tween_returns_to_origin_witness :
  let w' := runAnimationFrame 400
              (runAnimationFrames [16; 160; 200]%Q
                 (triggerFallbackTween freshWorld "keypress:KeyZ (no mapping)"
                    (3 # 4) 0)) in
  model w' = model freshWorld /\ rafQueue w' = [] /\
  fallbackRafId (state w') = None.
Proof.
  apply (fallback_tween_returns_to_origin freshWorld
           "keypress:KeyZ (no mapping)" (3 # 4) 0 [16; 160; 200]%Q 400);
    reflexivity.
Defined.

(** ** Disposal *)

Lemma runAnimationFrame_disposed now w :
  disposed (state w) = true ->
  model (runAnimationFrame now w) = model w /\
  state (runAnimationFrame now w) = state w /\
  console (runAnimationFrame now w) = console w.
Proof.
  intros Hd. unfold runAnimationFrame.
  set (w0 := {| model := model w; state := state w;
                registered := registered w; rafQueue := [];
                nextRafId := nextRafId w; intervals := intervals w;
                nextTimerId := nextTimerId w; console := console w |}).
  assert (H : fold_left (fun acc cb => animate (snd cb) now acc) (rafQueue w) w0
              = w0).
  { induction (rafQueue w) as [|cb l IH]; simpl; [reflexivity|].
    now rewrite animate_disposed. }
  rewrite H. repeat split.
Qed.

Lemma runAnimationFrames_disposed nows w :
  disposed (state w) = true ->
  model (runAnimationFrames nows w) = model w /\
  state (runAnimationFrames nows w) = state w /\
  console (runAnimationFrames nows w) = console w.
Proof.
  unfold runAnimationFrames. revert w.
  induction nows as [|now nows IH]; intros w Hd; simpl; [repeat split|].
  destruct (runAnimationFrame_disposed now w Hd) as (Hm & Hs & Hc).
  destruct (IH (runAnimationFrame now w)) as (Hm' & Hs' & Hc');
    [now rewrite Hs|].
  rewrite Hm', Hs', Hc'. repeat split; assumption.
Qed.

(** Disposing of the engine stops it for good.  After
    [disposeMotionEngine] on a registered model, no frame moves the model
    or writes to the console, even if a tween was in mid-flight; the
    callback [fallbackRafId] named and the idle timer are gone; and an
    idle check that still arrives does nothing. *)
Theorem disposeMotionEngine_stops (w : World) (nows : list Q) :
  registered w = true ->
  let w' := disposeMotionEngine w in
  registered w' = false /\
  model (runAnimationFrames nows w') = model w /\
  console (runAnimationFrames nows w') = console w /\
  (forall id, fallbackRafId (state w) = Some id -> id ∉ (rafQueue w').*1) /\
  ((0 <= idleTimerId (state w))%Z -> idleTimerId (state w) ∉ intervals w') /\
  (forall dateNow pick answer random perfNow,
     maybePlayIdle w' dateNow pick answer random perfNow = (w', false)).
Proof.
  intros Hreg. cbv zeta. unfold disposeMotionEngine. rewrite Hreg. simpl.
  split; [reflexivity|].
  set (w' := {| model := model w |}).
  destruct (runAnimationFrames_disposed nows w' eq_refl) as (Hm & _ & Hc).
  split; [exact Hm|]. split; [exact Hc|].
  split; [|split].
  - intros id ->. intros Hin.
    apply list_elem_of_fmap in Hin as ([id' tw] & -> & Hin).
    apply list_elem_of_In, filter_In in Hin as [_ Hin]. simpl in Hin.
    now rewrite Nat.eqb_refl in Hin.
  - intros Hpos. apply Z.leb_le in Hpos. rewrite Hpos. intros Hin.
    apply list_elem_of_In, filter_In in Hin as [_ Hin].
    now rewrite Z.eqb_refl in Hin.
  - reflexivity.
Qed.

Lemma disposeMotionEngine_stops_witness :
  let w := runAnimationFrame 100
             (handleInput (keyPress "KeyZ" 0) freshWorld keyAMap 0 Started
                (3 # 4) 0) in
  let w' := disposeMotionEngine w in
  registered w' = false /\
  model (runAnimationFrames [200; 500]%Q w') = model w /\
  console (runAnimationFrames [200; 500]%Q w') = console w /\
  (forall id, fallbackRafId (state w) = Some id -> id ∉ (rafQueue w').*1) /\
  ((0 <= idleTimerId (state w))%Z -> idleTimerId (state w) ∉ intervals w') /\
  (forall dateNow pick answer random perfNow,
     maybePlayIdle w' dateNow pick answer random perfNow = (w', false)).
Proof.
  apply (disposeMotionEngine_stops
           (runAnimationFrame 100
              (handleInput (keyPress "KeyZ" 0) freshWorld keyAMap 0 Started
                 (3 # 4) 0)) [200; 500]%Q).
  reflexivity.
Defined.

(** ** Idle timing *)

Lemma state_playMotionOrFallback w motionName reason answer random perfNow :
  exists rid,
    state (playMotionOrFallback w motionName reason answer random perfNow)
    = setFallbackRafId (state w) rid.
Proof.
  unfold playMotionOrFallback, playMotionOrFallback_resume.
  assert (Hs : forall s, s = setFallbackRafId s (fallbackRafId s))
    by now intros [].
  destruct motionName as [name|]; [destruct answer|];
    try (exists (fallbackRafId (state w)); apply Hs);
    eexists; exact (proj1 (proj2 (triggerFallbackTween_shape _ _ _ _))).
Qed.

Lemma maybePlayIdle_too_early w dateNow pick answer random perfNow :
  (dateNow - lastInputAt (state w) < resolveIdleTimeout (settings (state w)))%Q \/
  (dateNow - lastIdleAt (state w) < resolveIdleTimeout (settings (state w)))%Q ->
  maybePlayIdle w dateNow pick answer random perfNow = (w, false).
Proof.
  intros H. unfold maybePlayIdle.
  destruct (disposed (state w) || idlePlaying (state w))%bool; [reflexivity|].
  destruct (Qlt_le_dec _ _) as [|H1]; [reflexivity|].
  destruct (Qlt_le_dec _ _) as [|H2]; [reflexivity|].
  exfalso. destruct H as [H|H]; Lqa.lra.
Qed.

Lemma maybePlayIdle_fired w t1 pick answer random perfNow :
  snd (maybePlayIdle w t1 pick answer random perfNow) = true ->
  lastIdleAt (state (fst (maybePlayIdle w t1 pick answer random perfNow))) = t1 /\
  idlePlaying (state (fst (maybePlayIdle w t1 pick answer random perfNow)))
  = false /\
  settings (state (fst (maybePlayIdle w t1 pick answer random perfNow)))
  = settings (state w).
Proof.
  unfold maybePlayIdle.
  destruct (disposed (state w) || idlePlaying (state w))%bool; [discriminate|].
  destruct (Qlt_le_dec _ _); [discriminate|].
  destruct (Qlt_le_dec _ _); [discriminate|].
  intros _. cbn [fst].
  match goal with |- context [playMotionOrFallback ?w1 ?n ?r ?a ?x ?y] =>
    destruct (state_playMotionOrFallback w1 n r a x y) as (rid & Hs);
    set (w2 := playMotionOrFallback w1 n r a x y) in *
  end.
  simpl. rewrite Hs. repeat split.
Qed.

(** Idle actions are spaced by the idle timeout.  When an idle check at
    time [t1] dispatches an idle action, the state records [t1] as
    [lastIdleAt], and no check made less than the idle timeout (at least
    2000 ms) after [t1] dispatches another: it leaves the world as it
    is. *)
Theorem idle_actions_spaced (w : World) (t1 pick : Q) (answer : MotionAnswer)
    (random perfNow : Q) :
  snd (maybePlayIdle w t1 pick answer random perfNow) = true ->
  let w1 := fst (maybePlayIdle w t1 pick answer random perfNow) in
  lastIdleAt (state w1) = t1 /\
  idlePlaying (state w1) = false /\
  forall t2 pick' answer' random' perfNow',
    ((t2 - t1 < resolveIdleTimeout (settings (state w)))%Q \/
     (t2 - t1 < 2000)%Q) ->
    maybePlayIdle w1 t2 pick' answer' random' perfNow' = (w1, false).
Proof.
  intros Hfired. cbv zeta.
  destruct (maybePlayIdle_fired _ _ _ _ _ _ Hfired) as (Hl & Hp & Hs).
  split; [exact Hl|]. split; [exact Hp|].
  intros t2 pick' answer' random' perfNow' Ht.
  apply maybePlayIdle_too_early. right. rewrite Hl, Hs.
  destruct Ht as [Ht|Ht]; [exact Ht|].
  pose proof (MotionEngineFacts.resolveIdleTimeout_range (settings (state w))) as [Hlo _].
  Lqa.lra.
Qed.

Lemma idle_actions_spaced_witness :
  lastIdleAt
    (state (fst (maybePlayIdle idleWorld 1012000 0 Started 0 5000)))
  = 1012000%Q /\
  idlePlaying
    (state (fst (maybePlayIdle idleWorld 1012000 0 Started 0 5000)))
  = false /\
  forall t2 pick' answer' random' perfNow',
    ((t2 - 1012000 < resolveIdleTimeout (settings (state idleWorld)))%Q \/
     (t2 - 1012000 < 2000)%Q) ->
    maybePlayIdle (fst (maybePlayIdle idleWorld 1012000 0 Started 0 5000))
      t2 pick' answer' random' perfNow'
    = (fst (maybePlayIdle idleWorld 1012000 0 Started 0 5000), false).
Proof.
  apply (idle_actions_spaced idleWorld 1012000 0 Started 0 5000).
  reflexivity.
Defined.

(** An input postpones the idle action.  After [handleInput] has seen a
    key, button or pointer event, the state's [lastInputAt] is the
    event's time stamp ([Date.now ()] when it carries none) and, with
    the motion map just handed over, no idle check made less than the
    idle timeout after it dispatches an idle action. *)
Theorem input_postpones_idle (event : MotionEngineInputEvent) (w : World)
    (motionMap : gmap string jsval) (dateNow : Q) (answer : MotionAnswer)
    (random perfNow : Q) :
  isUserInputEvent (ev_type event) = true ->
  let now := match ev_timestamp event with Some t => t | None => dateNow end in
  let w' := handleInput event w motionMap dateNow answer random perfNow in
  lastInputAt (state w') = now /\
  settings (state w') = motionMap /\
  forall t2 pick answer' random' perfNow',
    (t2 - now < resolveIdleTimeout motionMap)%Q ->
    maybePlayIdle w' t2 pick answer' random' perfNow' = (w', false).
Proof.
  intros Huser. cbv zeta.
  assert (H : lastInputAt
                (state (handleInput event w motionMap dateNow answer random
                          perfNow))
              = match ev_timestamp event with Some t => t | None => dateNow end
              /\ settings
                   (state (handleInput event w motionMap dateNow answer random
                             perfNow)) = motionMap).
  { unfold handleInput. rewrite Huser.
    set (w2 := setState _ (setLastInputAt _ _)).
    assert (H2 : lastInputAt (state w2)
                 = match ev_timestamp event with
                   | Some t => t
                   | None => dateNow
                   end /\ settings (state w2) = motionMap) by now split.
    assert (Htr : forall reason r p,
               lastInputAt (state (triggerFallbackTween w2 reason r p))
               = lastInputAt (state w2) /\
               settings (state (triggerFallbackTween w2 reason r p))
               = settings (state w2)).
    { intros. now rewrite (proj1 (proj2
                (triggerFallbackTween_shape w2 reason r p))). }
    assert (Hpm : forall name reason a r p,
               lastInputAt (state (playMotionOrFallback w2 name reason a r p))
               = lastInputAt (state w2) /\
               settings (state (playMotionOrFallback w2 name reason a r p))
               = settings (state w2)).
    { intros.
      destruct (state_playMotionOrFallback w2 name reason a r p) as (rid & ->).
      now split. }
    assert (G : forall w',
               lastInputAt (state w') = lastInputAt (state w2) /\
               settings (state w') = settings (state w2) ->
               lastInputAt (state w')
               = match ev_timestamp event with
                 | Some t => t
                 | None => dateNow
                 end /\ settings (state w') = motionMap).
    { intros w' (-> & ->). exact H2. }
    apply G.
    destruct (String.eqb (ev_type event) "KeyPress").
    { destruct (trim <$> ev_keyCode event) as [keyCode|];
        [destruct (isEmpty keyCode)|]; first [apply Htr | apply Hpm]. }
    destruct (String.eqb (ev_type event) "ButtonPress"); [apply Hpm|].
    now split. }
  destruct H as (Hl & Hs). split; [exact Hl|]. split; [exact Hs|].
  intros t2 pick answer' random' perfNow' Ht.
  apply maybePlayIdle_too_early. left. now rewrite Hl, Hs.
Qed.

Lemma input_postpones_idle_witness :
  lastInputAt (state afterFirstPress) = 0%Q /\
  settings (state afterFirstPress) = keyAMap /\
  forall t2 pick answer' random' perfNow',
    (t2 - 0 < resolveIdleTimeout keyAMap)%Q ->
    maybePlayIdle afterFirstPress t2 pick answer' random' perfNow'
    = (afterFirstPress, false).
Proof.
  apply (input_postpones_idle (keyPress "KeyZ" 0) freshWorld keyAMap 0 Started
           (3 # 4) 0).
  reflexivity.
Defined.

End MotionEngineProperties.

(* ===================================================================== *)
(** * The motion engine: a failed dispatch is seen                        *)
(* ===================================================================== *)

Module DispatchFacts.
Import MotionEngine.
Local Open Scope list_scope.

Lemma clamp_unit c : (0 <= clamp c 0 1)%Q /\ (clamp c 0 1 <= 1)%Q /\
  ((0 < c)%Q -> (0 < clamp c 0 1)%Q) /\ ((1 <= c)%Q -> (clamp c 0 1 == 1)%Q).
Proof.
  unfold clamp.
  destruct (Q.min_spec 1 (Qmax 0 c)) as [[H1 H2]|[H1 H2]];
    destruct (Q.max_spec 0 c) as [[H3 H4]|[H3 H4]];
    rewrite H2; rewrite ?H4 in *; repeat split; intros; try Lqa.lra.
Qed.

Lemma easeOutCubic_pos c : (0 < c)%Q -> (c <= 1)%Q -> (0 < easeOutCubic c)%Q.
Proof.
  intros H0 H1. unfold easeOutCubic. simpl.
  assert (Hu : (0 <= (1 - c) * (1 - c))%Q) by Lqa.nra.
  assert (Hv : ((1 - c) * (1 - c) <= 1)%Q) by Lqa.nra.
  Lqa.nra.
Qed.

Lemma easeOutCubic_one c : (c == 1)%Q -> (easeOutCubic c == 1)%Q.
Proof.
  intros H. unfold easeOutCubic. simpl. rewrite H. reflexivity.
Qed.

(** The frame of a tween that is alone in flight, during its rise. *)
Lemma animate_up tw now w id :
  disposed (state w) = false ->
  rafQueue w = [(id, tw)] ->
  (now - startAt tw <= 160)%Q ->
  let t := easeOutCubic (clamp ((now - startAt tw) / upDuration) 0 1) in
  model (runAnimationFrame now w) =
  {| scaleX := lerp (scaleX (origin tw)) (scaleX (peak tw)) t;
     scaleY := lerp (scaleY (origin tw)) (scaleY (peak tw)) t;
     rotation := lerp (rotation (origin tw)) (rotation (peak tw)) t;
     x := lerp (x (origin tw)) (x (peak tw)) t;
     y := lerp (y (origin tw)) (y (peak tw)) t |}.
Proof.
  intros Hd Hq He. cbv zeta. unfold runAnimationFrame. rewrite Hq. simpl.
  unfold animate. simpl. rewrite Hd.
  apply Qle_bool_iff in He. unfold upDuration at 1. rewrite He. reflexivity.
Qed.

Lemma triggerFallbackTween_visible w reason random perfNow :
  engineLive w ->
  visibleTween (model w) (triggerFallbackTween w reason random perfNow) perfNow.
Proof.
  intros (Hd & Hcb).
  destruct (MotionEngineProperties.triggerFallbackTween_shape w reason random perfNow)
    as (Hm & Hs & _ & Hq & _).
  set (w' := triggerFallbackTween w reason random perfNow) in *.
  set (tw := MotionEngineProperties.tweenOf w random perfNow) in *.
  assert (Hq' : rafQueue w' = [(nextRafId w, tw)]).
  { rewrite Hq. destruct Hcb as [E|(id & tw0 & E & Ef)].
    - rewrite E. now destruct (fallbackRafId (state w)).
    - rewrite E, Ef. simpl. now rewrite Nat.eqb_refl. }
  assert (Hd' : disposed (state w') = false) by now rewrite Hs.
  split; [exact Hm|]. split.
  { exists (nextRafId w), tw. split; [exact Hq'|]. split; [now rewrite Hs | reflexivity]. }
  split; [|split].
  - intros now H0 H1.
    rewrite (animate_up tw now w' _ Hd' Hq') by exact H1. cbn [y].
    change (startAt tw) with perfNow. change (y (origin tw)) with (y (model w)).
    change (y (peak tw)) with (y (model w) - 6)%Q.
    destruct (clamp_unit ((now - perfNow) / upDuration)) as (_ & Hc1 & Hc0 & _).
    assert (Hpos : (0 < (now - perfNow) / upDuration)%Q).
    { unfold upDuration. apply Qlt_shift_div_l; [reflexivity | Lqa.lra]. }
    specialize (Hc0 Hpos).
    pose proof (easeOutCubic_pos _ Hc0 Hc1) as Ht.
    unfold lerp. set (t := easeOutCubic _) in *. Lqa.nra.
  - cbv zeta.
    assert (He : (perfNow + 160 - startAt tw <= 160)%Q)
      by (change (startAt tw) with perfNow; Lqa.lra).
    rewrite (animate_up tw _ w' _ Hd' Hq' He). cbn [x y rotation scaleX scaleY].
    change (startAt tw) with perfNow.
    assert (Ht : (easeOutCubic (clamp ((perfNow + 160 - perfNow) / upDuration) 0 1) == 1)%Q).
    { apply easeOutCubic_one.
      destruct (clamp_unit ((perfNow + 160 - perfNow) / upDuration)) as (_ & _ & _ & H1).
      apply H1. unfold upDuration. apply Qle_shift_div_l; [reflexivity | Lqa.lra]. }
    unfold lerp. set (t := easeOutCubic _) in *.
    unfold tw, MotionEngineProperties.tweenOf. cbn [origin peak x y rotation scaleX scaleY].
    rewrite !Ht.
    destruct (Qlt_le_dec (1 # 2) random); repeat split; try Lqa.lra;
      match goal with
      | |- (Qabs.Qabs ?e == ?v)%Q =>
          first [ assert (E : (e == v)%Q) by ring
                | assert (E : (e == - v)%Q) by ring ];
          rewrite (Qabs.Qabs_wd _ _ E); reflexivity
      end.
  - intros nows final Hlate. cbv zeta.
    assert (H : MotionEngineProperties.inFlight tw w').
    { split; [exact Hd'|]. left. exists (nextRafId w).
      split; [exact Hq' | now rewrite Hs]. }
    apply (MotionEngineProperties.inFlight_runAnimationFrames _ nows) in H.
    apply (MotionEngineProperties.inFlight_ends _ final) in H.
    + destruct H as (H1 & H2 & _). split; [exact H1 | exact H2].
    + change (startAt tw) with perfNow. unfold upDuration, downDuration.
      Lqa.lra.
Qed.

Lemma handleInput_KeyZ w (m : gmap string jsval) timestamp dateNow answer random perfNow :
  handleInput (keyPress "KeyZ" timestamp) w (delete "KeyZ" m) dateNow answer random perfNow
  = triggerFallbackTween
      (setState (ensureEngineState w (delete "KeyZ" m) dateNow)
         (setLastInputAt
            (setSettings (state (ensureEngineState w (delete "KeyZ" m) dateNow))
               (delete "KeyZ" m)) timestamp))
      "keypress:KeyZ (no mapping)" random perfNow.
Proof.
  unfold handleInput.
  cbn [keyPress ev_type ev_keyCode ev_timestamp fmap option_fmap option_map].
  change (String.eqb "KeyPress" "KeyPress") with true. cbv iota.
  change (isEmpty (trim "KeyZ")) with false. cbv iota.
  change (trim "KeyZ") with "KeyZ".
  rewrite MotionEngineFacts.resolveBindingMotion_unmapped.
  reflexivity.
Qed.


Lemma reacts_trigger w reason random perfNow :
  engineLive w ->
  fallbackTriggered (triggerFallbackTween w reason random perfNow) reason /\
  visibleTween (model w) (triggerFallbackTween w reason random perfNow) perfNow.
Proof.
  intros H. split; [apply MotionEngineFacts.triggerFallbackTween_triggered|].
  now apply triggerFallbackTween_visible.
Qed.



End DispatchFacts.

(* ===================================================================== *)
(** * Clamping and rounding                                               *)
(* ===================================================================== *)

Module NumberFacts.
Import MotionEngine.

(** [clamp] returns one of its three arguments. *)
Lemma clamp_cases v lo hi :
  (lo < hi)%Q ->
  (v <= lo /\ clamp v lo hi = lo)%Q \/
  (lo < v /\ v < hi /\ clamp v lo hi = v)%Q \/
  (hi <= v /\ clamp v lo hi = hi)%Q.
Proof.
  intros H. unfold clamp, Qmin, Qmax, GenericMinMax.gmin, GenericMinMax.gmax.
  destruct (Qcompare_spec lo v) as [E|E|E].
  - left. split; [rewrite E; apply Qle_refl|].
    destruct (Qcompare_spec hi lo) as [E'|E'|E']; try reflexivity; Lqa.lra.
  - destruct (Qcompare_spec hi v) as [E'|E'|E'].
    + right; right. split; [rewrite E'; apply Qle_refl | reflexivity].
    + right; right. split; [apply Qlt_le_weak, E' | reflexivity].
    + right; left. repeat split; assumption.
  - left. split; [apply Qlt_le_weak, E|].
    destruct (Qcompare_spec hi lo) as [E'|E'|E']; try reflexivity; Lqa.lra.
Qed.

Lemma clamp_bounds v lo hi :
  (lo < hi)%Q -> (lo <= clamp v lo hi)%Q /\ (clamp v lo hi <= hi)%Q.
Proof.
  intros H.
  destruct (clamp_cases v lo hi H) as [(A & ->)|[(A & B & ->)|(A & ->)]];
    split; Lqa.lra.
Qed.

Lemma clamp_idem v lo hi :
  (lo < hi)%Q -> clamp (clamp v lo hi) lo hi = clamp v lo hi.
Proof.
  intros H.
  destruct (clamp_cases v lo hi H) as [(H1 & ->)|[(H1 & H2 & ->)|(H1 & ->)]].
  - destruct (clamp_cases lo lo hi H) as [(_ & E)|[(A & _)|(A & E)]];
      first [exact E | Lqa.lra].
  - destruct (clamp_cases v lo hi H) as [(A & E)|[(_ & _ & E)|(A & E)]];
      first [exact E | Lqa.lra].
  - destruct (clamp_cases hi lo hi H) as [(A & E)|[(_ & A & _)|(_ & E)]];
      first [exact E | Lqa.lra].
Qed.

Lemma Qfloor_eq x z :
  (inject_Z z <= x)%Q -> (x < inject_Z (z + 1))%Q -> Qfloor x = z.
Proof.
  intros H1 H2.
  pose proof (Qfloor_le x) as F1. pose proof (Qlt_floor x) as F2.
  assert (A : (inject_Z z < inject_Z (Qfloor x + 1))%Q)
    by (eapply Qle_lt_trans; eassumption).
  assert (B : (inject_Z (Qfloor x) < inject_Z (z + 1))%Q)
    by (eapply Qle_lt_trans; eassumption).
  rewrite <- Zlt_Qlt in A, B. lia.
Qed.

(** [Math.round] leaves a whole number as it is, is monotone, and gives
    the same result on equal numbers. *)
Lemma round_inject_Z z : round (inject_Z z) = inject_Z z.
Proof.
  unfold round. f_equal. apply Qfloor_eq.
  - Lqa.lra.
  - rewrite inject_Z_plus. change (inject_Z 1) with 1%Q. Lqa.lra.
Qed.

Lemma round_round_id q : round (round q) = round q.
Proof. unfold round at 2 3. apply round_inject_Z. Qed.

Lemma round_le x y : (x <= y)%Q -> (round x <= round y)%Q.
Proof.
  intros H. unfold round. rewrite <- Zle_Qle. apply Qfloor_resp_le. Lqa.lra.
Qed.

Lemma round_comp x y : (x == y)%Q -> round x = round y.
Proof.
  intros H. unfold round. f_equal. apply Qfloor_comp. now rewrite H.
Qed.

Lemma round_clamp_bounds v lo hi :
  (inject_Z lo < inject_Z hi)%Q ->
  exists z, round (clamp v (inject_Z lo) (inject_Z hi)) = inject_Z z /\
            (lo <= z <= hi)%Z.
Proof.
  intros H. exists (Qfloor (clamp v (inject_Z lo) (inject_Z hi) + (1 # 2))).
  split; [reflexivity|].
  destruct (clamp_bounds v _ _ H) as [Hlo Hhi].
  apply round_le in Hlo, Hhi. rewrite round_inject_Z in Hlo, Hhi.
  unfold round in Hlo, Hhi. rewrite <- Zle_Qle in Hlo, Hhi. lia.
Qed.

Lemma round_clamp_inject_Z z lo hi :
  (inject_Z lo < inject_Z hi)%Q -> (lo <= z <= hi)%Z ->
  round (clamp (inject_Z z) (inject_Z lo) (inject_Z hi)) = inject_Z z.
Proof.
  intros H [Hlo Hhi]. rewrite <- (round_inject_Z z) at 2.
  apply round_comp. rewrite Zle_Qle in Hlo, Hhi.
  destruct (clamp_cases (inject_Z z) _ _ H) as [(A & ->)|[(A & B & ->)|(A & ->)]];
    Lqa.lra.
Qed.

Lemma round_clamp_fix v lo hi :
  (inject_Z lo < inject_Z hi)%Q ->
  round (clamp (round (clamp v (inject_Z lo) (inject_Z hi)))
           (inject_Z lo) (inject_Z hi))
  = round (clamp v (inject_Z lo) (inject_Z hi)).
Proof.
  intros H. destruct (round_clamp_bounds v lo hi H) as (z & -> & Hz).
  now apply round_clamp_inject_Z.
Qed.

End NumberFacts.

(* ===================================================================== *)
(** * The stored settings                                                 *)
(* ===================================================================== *)

Module SettingsFacts.
Import Settings JsFacts NumberFacts.
Local Open Scope list_scope.

(** ** The idle list *)

(** The items [normalizeIdleList] writes: a trimmed non-empty motion
    name, bare or in an object, with a weight that clamping to
    [0.01, 100] leaves as it is. *)
Definition normalIdleItem (item : jsval) : Prop :=
  (exists s, item = JStr s /\ validString s) \/
  (exists s, item = JObj [("motion", JStr s)] /\ validString s) \/
  (exists s w, item = JObj [("motion", JStr s); ("weight", JNum w)] /\
               validString s /\ clamp w (1 # 100) 100 = w).

Definition normalIdleList (items : list jsval) : Prop :=
  items <> [] /\ Forall normalIdleItem items.

Lemma weight_lt : (1 # 100 < 100)%Q.
Proof. reflexivity. Qed.

Lemma clamp_weight_nonzero w : Qeq_bool (clamp w (1 # 100) 100) 0 = false.
Proof.
  apply not_true_is_false. intros H. apply Qeq_bool_eq in H.
  destruct (clamp_bounds w _ _ weight_lt) as [Hlo _]. Lqa.lra.
Qed.

Lemma validString_trim s : isEmpty (trim s) = false -> validString (trim s).
Proof. intros H. split; [apply trim_idem | exact H]. Qed.

Lemma normalizeIdleItem_normal item v :
  normalizeIdleItem item = Some v -> normalIdleItem v.
Proof.
  unfold normalizeIdleItem.
  destruct item as [| | | | |s|items|es]; try discriminate.
  - destruct (isEmpty (trim s)) eqn:E; [discriminate|]. intros [= <-].
    left. eexists. split; [reflexivity | now apply validString_trim].
  - destruct (if nullish (ownProp (JObj es) "motion")
              then ownProp (JObj es) "name"
              else ownProp (JObj es) "motion") as [| | | | |s| |];
      try discriminate.
    destruct (isEmpty (trim s)) eqn:E; [discriminate|].
    destruct (ownProp (JObj es) "weight") as [| | |w| | | |];
      try (intros [= <-]; right; left; eexists;
           split; [reflexivity | now apply validString_trim]).
    rewrite clamp_weight_nonzero. intros [= <-]. right; right.
    eexists _, _. split; [reflexivity|].
    split; [now apply validString_trim | apply clamp_idem, weight_lt].
Qed.

Lemma normalizeIdleItem_fix v :
  normalIdleItem v -> normalizeIdleItem v = Some v.
Proof.
  intros [(s & -> & Ht & Hne)|[(s & -> & Ht & Hne)|(s & w & -> & (Ht & Hne) & Hw)]].
  - simpl. now rewrite Ht, Hne.
  - cbn. now rewrite Ht, Hne.
  - cbn. rewrite Ht, Hne, Hw.
    rewrite <- Hw, clamp_weight_nonzero. reflexivity.
Qed.

Lemma omap_normalizeIdleItem_normal items :
  Forall normalIdleItem (omap normalizeIdleItem items).
Proof.
  apply Forall_forall. intros v Hv.
  apply list_elem_of_omap in Hv as (item & _ & Hitem).
  exact (normalizeIdleItem_normal _ _ Hitem).
Qed.

Lemma omap_normalizeIdleItem_fix items :
  Forall normalIdleItem items -> omap normalizeIdleItem items = items.
Proof.
  induction 1 as [|v items Hv _ IH]; [reflexivity|].
  cbn [omap list_omap]. rewrite (normalizeIdleItem_fix _ Hv).
  f_equal. exact IH.
Qed.

Lemma fallback_idle :
  match DEFAULT_MOTION_MAP !! "idle" with
  | Some (JArr items) => List.map cloneIdleMotionItem items
  | _ => []
  end = [JStr "idle_1"; JStr "idle_2"].
Proof. reflexivity. Qed.

Lemma normalIdleList_fallback : normalIdleList [JStr "idle_1"; JStr "idle_2"].
Proof.
  split; [discriminate|].
  assert (H : forall s, validString s -> normalIdleItem (JStr s))
    by (intros s Hs; left; now exists s).
  apply List.Forall_cons; [apply H; split; reflexivity|].
  apply List.Forall_cons; [apply H; split; reflexivity|].
  apply List.Forall_nil.
Qed.

Lemma normalizeIdleList_normal raw : normalIdleList (normalizeIdleList raw).
Proof.
  unfold normalizeIdleList. rewrite fallback_idle.
  destruct raw as [| | | | | |items|]; try apply normalIdleList_fallback.
  destruct (omap normalizeIdleItem items) as [|v l] eqn:E; simpl;
    [apply normalIdleList_fallback|].
  split; [discriminate|]. rewrite <- E. apply omap_normalizeIdleItem_normal.
Qed.

Lemma normalizeIdleList_fix items :
  normalIdleList items -> normalizeIdleList (JArr items) = items.
Proof.
  intros (Hne & Hall). unfold normalizeIdleList.
  rewrite (omap_normalizeIdleItem_fix _ Hall).
  destruct items; [contradiction | reflexivity].
Qed.

(** ** The motion map *)

Definition reserved (k : string) : Prop := k = "idle" \/ k = "idleTimeoutMs".

(** A binding: a trimmed non-empty name bound to a trimmed non-empty
    motion name. *)
Definition normalBinding (k : string) (v : jsval) : Prop :=
  validString k /\ exists s, v = JStr s /\ validString s.

(** An idle timeout that clamping to [2000, 60000] and rounding leave as
    it is. *)
Definition normalTimeout (t : Q) : Prop :=
  MotionEngine.round (clamp t 2000 60000) = t.

(** The motion map binds something. *)
Definition hasBinding (m : gmap string jsval) : Prop :=
  exists k s, ~ reserved k /\ m !! k = Some (JStr s).

(** What [normalizeMotionMap] returns: an idle list, an idle timeout and
    bindings, none of them under the name [__proto__]. *)
Definition coreMotionMap (m : gmap string jsval) : Prop :=
  (exists items, m !! "idle" = Some (JArr items) /\ normalIdleList items) /\
  (exists t, m !! "idleTimeoutMs" = Some (JNum t) /\ normalTimeout t) /\
  (forall k v, m !! k = Some v -> ~ reserved k -> normalBinding k v) /\
  m !! "__proto__" = None.

(** A motion map that normalising leaves as it is: it binds something. *)
Definition normalMotionMap (m : gmap string jsval) : Prop :=
  coreMotionMap m /\ hasBinding m.

(** No property of the object is named [__proto__], surrounding white
    space apart. *)
Definition noProtoKey (raw : jsval) : Prop :=
  Forall (fun entry => trim (fst entry) <> "__proto__") (ownEntries raw).

(** The invariant of the loop of [normalizeMotionMap]. *)
Definition loopInv (st : MapLoop) : Prop :=
  loop_map st !! "idleTimeoutMs" = None /\
  (forall v, loop_map st !! "idle" = Some v ->
     exists items, v = JArr items /\ normalIdleList items) /\
  (forall k v, loop_map st !! k = Some v -> ~ reserved k -> normalBinding k v) /\
  loop_map st !! "__proto__" = None /\
  (forall t, loop_idleTimeoutMs st = Some t -> normalTimeout t).

(** [hasBinding] tells the truth: it does as long as no binding was
    written under [__proto__]. *)
Definition loopBound (st : MapLoop) : Prop :=
  loop_hasBinding st = true -> hasBinding (loop_map st).

Lemma timeout_lt : (inject_Z 2000 < inject_Z 60000)%Q.
Proof. reflexivity. Qed.

Lemma normalTimeout_round_clamp v :
  normalTimeout (MotionEngine.round (clamp v 2000 60000)).
Proof. exact (round_clamp_fix v 2000 60000 timeout_lt). Qed.

Lemma normalizeBindingMotion_valid value motion :
  normalizeBindingMotion value = Some motion -> validString motion.
Proof.
  unfold normalizeBindingMotion.
  destruct value as [| | | | |s|items|es]; try discriminate.
  - destruct (isEmpty (trim s)) eqn:E; [discriminate|]. intros [= <-].
    now apply validString_trim.
  - destruct (ownProp (JObj es) "group") as [| | | | |g| |]; try discriminate.
    destruct (isEmpty (trim g)) eqn:E; [discriminate|]. intros [= <-].
    now apply validString_trim.
Qed.

Lemma normalizeBindingMotion_fix s :
  validString s -> normalizeBindingMotion (JStr s) = Some s.
Proof. intros (Ht & Hne). simpl. now rewrite Ht, Hne. Qed.

Lemma writeProp_proto {A} (m : gmap string A) k v :
  m !! "__proto__" = None -> writeProp m k v !! "__proto__" = None.
Proof.
  intros H. unfold writeProp.
  destruct (String.eqb_spec k "__proto__") as [->|Hne]; [exact H|].
  now rewrite lookup_insert_ne.
Qed.

Lemma writeProp_other {A} (m : gmap string A) k v :
  k <> "__proto__" -> writeProp m k v = <[k := v]> m.
Proof.
  intros H. unfold writeProp. apply String.eqb_neq in H. now rewrite H.
Qed.

(** Reading after a write. *)
Lemma writeProp_lookup {A} (m : gmap string A) k v k' :
  writeProp m k v !! k' =
  if decide (k = "__proto__") then m !! k'
  else if decide (k' = k) then Some v else m !! k'.
Proof.
  unfold writeProp.
  destruct (String.eqb_spec k "__proto__") as [->|Hne].
  - now destruct (decide _).
  - destruct (decide (k = "__proto__")); [contradiction|].
    destruct (decide (k' = k)) as [->|Hk]; [apply lookup_insert_eq|].
    now rewrite lookup_insert_ne by congruence.
Qed.

Lemma loopInv_step st entry :
  loopInv st -> loopInv (normalizeMotionMapEntry st entry).
Proof.
  intros Hinv. pose proof Hinv as (Hto & Hidle & Hbind & Hproto & Htime).
  unfold normalizeMotionMapEntry.
  destruct (isEmpty (trim (fst entry))) eqn:Hempty;
    [exact Hinv|].
  destruct (String.eqb_spec (trim (fst entry)) "idle") as [Ek|Nidle].
  { split; [|split; [|split; [|split]]]; simpl.
    - now rewrite lookup_insert_ne.
    - rewrite lookup_insert_eq. intros v [= <-].
      eexists. split; [reflexivity | apply normalizeIdleList_normal].
    - intros k v Hk Hres. rewrite lookup_insert_ne in Hk;
        [now apply Hbind|]. intros <-. apply Hres. now left.
    - now rewrite lookup_insert_ne.
    - exact Htime. }
  destruct (String.eqb_spec (trim (fst entry)) "idleTimeoutMs") as [Ek|Ntime].
  { destruct (snd entry); try exact Hinv.
    split; [|split; [|split; [|split]]]; simpl; try assumption.
    intros t [= <-]. apply normalTimeout_round_clamp. }
  destruct (normalizeBindingMotion (snd entry)) as [motion|] eqn:Em;
    [|exact Hinv].
  pose proof (normalizeBindingMotion_valid _ _ Em) as Hm.
  split; [|split; [|split; [|split]]]; cbn [loop_map loop_idleTimeoutMs].
  - rewrite writeProp_lookup. destruct (decide _); [exact Hto|].
    destruct (decide _) as [E|_]; [now rewrite <- E in Ntime | exact Hto].
  - intros v. rewrite writeProp_lookup. destruct (decide _); [apply Hidle|].
    destruct (decide _) as [E|_]; [now rewrite <- E in Nidle | apply Hidle].
  - intros k v. rewrite writeProp_lookup.
    destruct (decide _); [apply Hbind|].
    destruct (decide (k = trim (fst entry))) as [->|_]; [|apply Hbind].
    intros [= <-] _. split; [now apply validString_trim|]. now exists motion.
  - now apply writeProp_proto.
  - exact Htime.
Qed.

Lemma loopBound_step st entry :
  trim (fst entry) <> "__proto__" ->
  loopBound st -> loopBound (normalizeMotionMapEntry st entry).
Proof.
  intros Hproto Hb. unfold normalizeMotionMapEntry.
  destruct (isEmpty (trim (fst entry))) eqn:Hempty; [exact Hb|].
  destruct (String.eqb_spec (trim (fst entry)) "idle") as [Ek|Nidle].
  { intros H. destruct (Hb H) as (k & s & Hres & Hk).
    exists k, s. split; [exact Hres|]. cbn [loop_map].
    rewrite lookup_insert_ne; [exact Hk|]. intros <-. apply Hres. now left. }
  destruct (String.eqb_spec (trim (fst entry)) "idleTimeoutMs") as [Ek|Ntime].
  { now destruct (snd entry). }
  destruct (normalizeBindingMotion (snd entry)) as [motion|] eqn:Em;
    [|exact Hb].
  intros _. exists (trim (fst entry)), motion.
  split; [intros [?|?]; contradiction|]. cbn [loop_map].
  rewrite writeProp_other by exact Hproto. apply lookup_insert_eq.
Qed.

Lemma loopInv_fold entries st :
  loopInv st -> loopInv (foldl normalizeMotionMapEntry st entries).
Proof.
  revert st. induction entries as [|e entries IH]; intros st H; simpl;
    [exact H|].
  apply IH, loopInv_step, H.
Qed.

Lemma loopBound_fold entries st :
  Forall (fun entry => trim (fst entry) <> "__proto__") entries ->
  loopBound st -> loopBound (foldl normalizeMotionMapEntry st entries).
Proof.
  intros Hall. revert st.
  induction Hall as [|e entries He _ IH]; intros st H; simpl; [exact H|].
  apply IH, loopBound_step; assumption.
Qed.

Lemma loopInv_init :
  loopInv {| loop_map := ∅; loop_hasBinding := false;
             loop_idleTimeoutMs := None |}.
Proof.
  split; [apply lookup_empty|]. split; [|split; [|split]]; simpl.
  - intros v. rewrite lookup_empty. discriminate.
  - intros k v. rewrite lookup_empty. discriminate.
  - apply lookup_empty.
  - discriminate.
Qed.

Lemma loopBound_init :
  loopBound {| loop_map := ∅; loop_hasBinding := false;
               loop_idleTimeoutMs := None |}.
Proof. intros H. discriminate H. Qed.

(** Writing entries into a map one after the other. *)
Lemma fold_insert_lookup {A} (l : list (string * A)) (m : gmap string A) k :
  NoDup l.*1 ->
  foldl (fun map entry => <[fst entry := snd entry]> map) m l !! k =
  match (list_to_map l : gmap string A) !! k with
  | Some v => Some v
  | None => m !! k
  end.
Proof.
  revert m. induction l as [|[k0 v0] l IH]; intros m Hnd; simpl.
  - now rewrite lookup_empty.
  - inversion Hnd as [|? ? Hk0 Hnd']; subst. rewrite IH by assumption.
    destruct (decide (k = k0)) as [->|Hne].
    + rewrite (not_elem_of_list_to_map_1 _ _ Hk0).
      now rewrite !lookup_insert_eq.
    + rewrite !lookup_insert_ne by congruence. reflexivity.
Qed.

(** Entries none of which is named [__proto__] are written as they
    are. *)
Lemma fold_writeProp {A} (l : list (string * A)) (m : gmap string A) :
  Forall (fun entry => fst entry <> "__proto__") l ->
  foldl (fun map entry => writeProp map (fst entry) (snd entry)) m l =
  foldl (fun map entry => <[fst entry := snd entry]> map) m l.
Proof.
  intros Hall. revert m.
  induction Hall as [|e l He _ IH]; intros m; simpl; [reflexivity|].
  now rewrite (writeProp_other _ _ _ He), IH.
Qed.

(** The entries [normalizeMotionMap] falls back to when the input binds
    nothing. *)
Lemma DEFAULT_MOTION_MAP_lookup k v :
  DEFAULT_MOTION_MAP !! k = Some v ->
  (k = "idle" /\ v = JArr [JStr "idle_1"; JStr "idle_2"]) \/
  (k = "idleTimeoutMs" /\ v = JNum 8000) \/
  (~ reserved k /\ k <> "__proto__" /\ normalBinding k v).
Proof.
  unfold DEFAULT_MOTION_MAP, DEFAULT_IDLE_TIMEOUT_MS. intros H.
  repeat (apply lookup_insert_Some in H as [[<- <-]|[_ H]];
          [first [ left; split; reflexivity
                 | right; left; split; reflexivity
                 | right; right; split;
                   [intros [?|?]; discriminate
                   |split; [discriminate
                   |split; [split; reflexivity
                           |eexists; split; [reflexivity | split; reflexivity]]]]]
          |]).
  rewrite lookup_empty in H. discriminate.
Qed.

Lemma defaultBindingEntries_spec k v :
  (k, v) ∈ defaultBindingEntries ->
  ~ reserved k /\ k <> "__proto__" /\ normalBinding k v.
Proof.
  unfold defaultBindingEntries.
  rewrite list_elem_of_In, filter_In, <- list_elem_of_In, elem_of_map_to_list.
  intros (H & Hf).
  destruct (DEFAULT_MOTION_MAP_lookup _ _ H) as [(-> & ->)|[(-> & ->)|Hb]];
    [discriminate | discriminate | exact Hb].
Qed.

Lemma defaultBindingEntries_NoDup : NoDup defaultBindingEntries.*1.
Proof.
  apply MotionEngineProperties.NoDup_fst_filter, NoDup_fst_map_to_list.
Qed.

Lemma defaultBindingEntries_noProto :
  Forall (fun entry : string * jsval => fst entry <> "__proto__")
    defaultBindingEntries.
Proof.
  apply Forall_forall. intros [k v] H.
  now apply defaultBindingEntries_spec in H.
Qed.

Lemma defaultBindingEntries_KeyA :
  (list_to_map defaultBindingEntries : gmap string jsval) !! "KeyA"
  = Some (JStr "tap_left").
Proof. vm_compute. reflexivity. Qed.

(** What [normalizeMotionMap] does after its loop. *)
Definition finish (st : MapLoop) (rawIdle rawTimeout : jsval)
    : gmap string jsval :=
  let map1 :=
    if loop_hasBinding st then loop_map st
    else foldl (fun map entry => writeProp map (fst entry) (snd entry))
           (loop_map st) defaultBindingEntries in
  let idleRaw :=
    match map1 !! "idle" with
    | Some v => if nullish v then rawIdle else v
    | None => rawIdle
    end in
  let map2 := <["idle" := JArr (normalizeIdleList idleRaw)]> map1 in
  match loop_idleTimeoutMs st with
  | Some idleTimeoutMs => <["idleTimeoutMs" := JNum idleTimeoutMs]> map2
  | None =>
      match rawTimeout with
      | JNum v =>
          <["idleTimeoutMs" :=
              JNum (MotionEngine.round (clamp v 2000 60000))]> map2
      | _ =>
          <["idleTimeoutMs" :=
              match DEFAULT_MOTION_MAP !! "idleTimeoutMs" with
              | Some (JNum v) => JNum v
              | Some JNonFinite => JNonFinite
              | _ => JNum DEFAULT_IDLE_TIMEOUT_MS
              end]> map2
      end
  end.

Lemma normalizeMotionMap_unfold raw :
  normalizeMotionMap raw =
  match raw with
  | JObj _ | JArr _ =>
      finish (foldl normalizeMotionMapEntry
                {| loop_map := ∅; loop_hasBinding := false;
                   loop_idleTimeoutMs := None |} (ownEntries raw))
        (ownProp raw "idle") (ownProp raw "idleTimeoutMs")
  | _ => cloneMotionMap DEFAULT_MOTION_MAP
  end.
Proof. destruct raw; reflexivity. Qed.

Lemma normalTimeout_default : normalTimeout 8000.
Proof. vm_compute. reflexivity. Qed.

Lemma default_timeout :
  match DEFAULT_MOTION_MAP !! "idleTimeoutMs" with
  | Some (JNum v) => JNum v
  | Some JNonFinite => JNonFinite
  | _ => JNum DEFAULT_IDLE_TIMEOUT_MS
  end = JNum 8000.
Proof. reflexivity. Qed.

(** The map on which [finish] writes the idle list and the timeout. *)
Definition boundMap (st : MapLoop) : gmap string jsval :=
  if loop_hasBinding st then loop_map st
  else foldl (fun map entry => writeProp map (fst entry) (snd entry))
         (loop_map st) defaultBindingEntries.

Lemma boundMap_bindings st :
  loopInv st ->
  (forall k v, boundMap st !! k = Some v -> ~ reserved k -> normalBinding k v) /\
  boundMap st !! "__proto__" = None /\
  (loopBound st -> hasBinding (boundMap st)).
Proof.
  intros (Hto & Hidle & Hbind & Hproto & Htime). unfold boundMap.
  destruct (loop_hasBinding st) eqn:Hhas.
  - split; [exact Hbind|]. split; [exact Hproto|]. intros H. now apply H.
  - rewrite fold_writeProp by apply defaultBindingEntries_noProto.
    split; [|split].
    + intros k v. rewrite fold_insert_lookup
        by apply defaultBindingEntries_NoDup.
      destruct (list_to_map defaultBindingEntries !! k) as [v'|] eqn:E.
      * intros [= <-] _. apply elem_of_list_to_map_2 in E.
        now apply defaultBindingEntries_spec in E.
      * apply Hbind.
    + rewrite fold_insert_lookup by apply defaultBindingEntries_NoDup.
      destruct (list_to_map defaultBindingEntries !! "__proto__") as [v'|] eqn:E;
        [|exact Hproto].
      apply elem_of_list_to_map_2, defaultBindingEntries_spec in E.
      now destruct E as (_ & E & _).
    + intros _. exists "KeyA", "tap_left". split; [intros [?|?]; discriminate|].
      rewrite fold_insert_lookup by apply defaultBindingEntries_NoDup.
      now rewrite defaultBindingEntries_KeyA.
Qed.

Lemma finish_lookup st rawIdle rawTimeout k :
  k <> "idle" -> k <> "idleTimeoutMs" ->
  finish st rawIdle rawTimeout !! k = boundMap st !! k.
Proof.
  intros H1 H2. unfold finish. fold (boundMap st).
  destruct (loop_idleTimeoutMs st); [|destruct rawTimeout];
    now rewrite !lookup_insert_ne by congruence.
Qed.

Lemma finish_core st rawIdle rawTimeout :
  loopInv st ->
  coreMotionMap (finish st rawIdle rawTimeout) /\
  (loopBound st -> hasBinding (finish st rawIdle rawTimeout)).
Proof.
  intros Hinv. destruct (boundMap_bindings st Hinv) as (Hb1 & Hp1 & Hh1).
  pose proof Hinv as (Hto & Hidle & Hbind & Hproto & Htime).
  split.
  - split; [|split; [|split]].
    + unfold finish. fold (boundMap st).
      set (items := normalizeIdleList _).
      exists items. split; [|apply normalizeIdleList_normal].
      destruct (loop_idleTimeoutMs st); [|destruct rawTimeout];
        rewrite lookup_insert_ne by discriminate; apply lookup_insert_eq.
    + unfold finish. fold (boundMap st).
      destruct (loop_idleTimeoutMs st) as [t|] eqn:Et.
      { exists t. split; [apply lookup_insert_eq | now apply Htime]. }
      rewrite default_timeout.
      destruct rawTimeout;
        try (exists 8000%Q; split;
             [apply lookup_insert_eq | apply normalTimeout_default]).
      eexists. split; [apply lookup_insert_eq | apply normalTimeout_round_clamp].
    + intros k v Hk Hres. rewrite finish_lookup in Hk
        by (intros ->; apply Hres; first [now left | now right]).
      now apply Hb1.
    + rewrite finish_lookup by discriminate. exact Hp1.
  - intros Hb. destruct (Hh1 Hb) as (k & s & Hres & Hk).
    exists k, s. split; [exact Hres|].
    rewrite finish_lookup
      by (intros ->; apply Hres; first [now left | now right]).
    exact Hk.
Qed.

Lemma cloneMotionMap_default : cloneMotionMap DEFAULT_MOTION_MAP = DEFAULT_MOTION_MAP.
Proof. vm_compute. reflexivity. Qed.

Lemma normalMotionMap_default : normalMotionMap DEFAULT_MOTION_MAP.
Proof.
  split; [split; [|split; [|split]]|].
  - eexists. split; [reflexivity | apply normalIdleList_fallback].
  - eexists. split; [reflexivity | apply normalTimeout_default].
  - intros k v H Hres.
    destruct (DEFAULT_MOTION_MAP_lookup _ _ H) as [(-> & _)|[(-> & _)|(_ & _ & Hb)]];
      [exfalso; apply Hres; now left | exfalso; apply Hres; now right
      |exact Hb].
  - reflexivity.
  - exists "KeyA", "tap_left". split; [intros [?|?]; discriminate | reflexivity].
Qed.

Lemma normalizeMotionMap_core raw : coreMotionMap (normalizeMotionMap raw).
Proof.
  rewrite normalizeMotionMap_unfold.
  destruct raw;
    try (rewrite cloneMotionMap_default; apply normalMotionMap_default);
    apply finish_core, loopInv_fold, loopInv_init.
Qed.

Lemma normalizeMotionMap_hasBinding raw :
  noProtoKey raw -> hasBinding (normalizeMotionMap raw).
Proof.
  intros Hraw. rewrite normalizeMotionMap_unfold.
  destruct raw;
    try (rewrite cloneMotionMap_default; apply normalMotionMap_default);
    (apply finish_core; [apply loopInv_fold, loopInv_init|]);
    apply loopBound_fold; first [exact Hraw | apply loopBound_init].
Qed.

(** Whatever [normalizeMotionMap] is given (a malformed object, an
    array, [null], a number), the motion map it returns has a non-empty
    idle list of well-formed items and an idle timeout that is a whole
    number of milliseconds between 2000 and 60000; every binding has a
    trimmed non-empty name and motion, and none is named [__proto__].
    It has at least one binding when no property of the input is named
    [__proto__]: a binding under that name is counted, but a write under
    it adds no property. *)
Theorem normalizeMotionMap_shape (raw : jsval) :
  let m := normalizeMotionMap raw in
  (exists items,
     m !! "idle" = Some (JArr items) /\ items <> [] /\
     Forall normalIdleItem items) /\
  (exists z,
     m !! "idleTimeoutMs" = Some (JNum (inject_Z z)) /\
     (2000 <= z <= 60000)%Z) /\
  (forall k v,
     m !! k = Some v -> k <> "idle" -> k <> "idleTimeoutMs" ->
     validString k /\ exists s, v = JStr s /\ validString s) /\
  m !! "__proto__" = None /\
  (Forall (fun entry => trim (fst entry) <> "__proto__") (ownEntries raw) ->
   exists k s, k <> "idle" /\ k <> "idleTimeoutMs" /\ m !! k = Some (JStr s)).
Proof.
  cbv zeta.
  destruct (normalizeMotionMap_core raw)
    as ((items & Hi & Hne & Hall) & (t & Ht & Hnt) & Hb & Hp).
  split; [|split; [|split; [|split]]].
  - exists items. repeat split; assumption.
  - destruct (round_clamp_bounds t 2000 60000 timeout_lt) as (z & Ez & Hz).
    exists z. split; [|exact Hz]. rewrite Ht. do 2 f_equal.
    rewrite <- Ez. symmetry. exact Hnt.
  - intros k' v Hk' H1 H2. apply Hb; [exact Hk'|]. intros [?|?]; contradiction.
  - exact Hp.
  - intros Hraw.
    destruct (normalizeMotionMap_hasBinding raw Hraw) as (k & s & Hr & Hk).
    exists k, s. repeat split; try assumption; intros ->; apply Hr;
      [now left | now right].
Qed.

Lemma parseIdleCandidate_normal v :
  normalIdleItem v -> is_Some (MotionEngine.parseIdleCandidate v).
Proof.
  intros [(s & -> & Ht & Hne)|[(s & -> & Ht & Hne)|(s & w & -> & (Ht & Hne) & Hw)]];
    cbn; rewrite Ht, Hne; eauto.
Qed.

Lemma omap_length_is_Some {A B} (f : A -> option B) l :
  Forall (fun x => is_Some (f x)) l -> length (omap f l) = length l.
Proof.
  induction 1 as [|x l [y Hy] _ IH]; [reflexivity|].
  cbn [omap list_omap]. rewrite Hy. simpl. now rewrite IH.
Qed.

(** The engine reads a normalised motion map exactly as it is stored:
    its idle timeout is the stored [idleTimeoutMs], every item of the
    stored idle list is an idle candidate (so an idle draw always finds
    a motion), and every stored binding resolves to its own motion. *)
Theorem engine_reads_normalized_map (raw : jsval) :
  let m := normalizeMotionMap raw in
  m !! "idleTimeoutMs" = Some (JNum (MotionEngine.resolveIdleTimeout m)) /\
  (exists items,
     m !! "idle" = Some (JArr items) /\
     length (MotionEngine.parseIdleCandidates m) = length items /\
     MotionEngine.parseIdleCandidates m <> []) /\
  (forall random,
     is_Some (MotionEngine.pickWeightedIdleMotion
                (MotionEngine.parseIdleCandidates m) random)) /\
  (forall k s,
     k <> "idle" -> k <> "idleTimeoutMs" -> m !! k = Some (JStr s) ->
     MotionEngine.resolveBindingMotion m k = Some s).
Proof.
  cbv zeta.
  destruct (normalizeMotionMap_core raw)
    as ((items & Hi & Hne & Hall) & (t & Ht & Hnt) & Hb & _).
  assert (Hlen : length (MotionEngine.parseIdleCandidates (normalizeMotionMap raw))
                 = length items).
  { unfold MotionEngine.parseIdleCandidates. rewrite Hi.
    apply omap_length_is_Some.
    eapply Forall_impl; [exact Hall|]. apply parseIdleCandidate_normal. }
  assert (Hcands : MotionEngine.parseIdleCandidates (normalizeMotionMap raw) <> []).
  { intros E. rewrite E in Hlen. destruct items; [contradiction|discriminate]. }
  split; [|split; [|split]].
  - unfold MotionEngine.resolveIdleTimeout. rewrite Ht. do 2 f_equal.
    symmetry. exact Hnt.
  - exists items. repeat split; assumption.
  - intros random.
    destruct (MotionEngineProperties.pickWeightedIdleMotion_positive
                (MotionEngine.parseIdleCandidates (normalizeMotionMap raw))
                random) as (name & -> & _); [|exact Hcands|eauto].
    eapply Forall_impl;
      [apply MotionEngineProperties.parseIdleCandidates_Forall|].
    intros x (_ & Hlo & _). simpl. Lqa.lra.
  - intros k s H1 H2 Hk.
    destruct (Hb k (JStr s) Hk) as (_ & s' & [= <-] & Ht' & Hne');
      [intros [?|?]; contradiction|].
    unfold MotionEngine.resolveBindingMotion. simpl.
    now rewrite Hk, Ht', Hne'.
Qed.

(** ** Normalising a normal motion map *)

(** One iteration of the loop on an entry of a normalised motion map:
    the entry is copied as it is. *)
Lemma normalizeMotionMapEntry_normal m st k v :
  coreMotionMap m -> m !! k = Some v ->
  normalizeMotionMapEntry st (k, v) =
  if decide (k = "idleTimeoutMs") then
    {| loop_map := loop_map st;
       loop_hasBinding := loop_hasBinding st;
       loop_idleTimeoutMs :=
         match v with JNum t => Some t | _ => loop_idleTimeoutMs st end |}
  else
    {| loop_map := <[k := v]> (loop_map st);
       loop_hasBinding :=
         if decide (k = "idle") then loop_hasBinding st else true;
       loop_idleTimeoutMs := loop_idleTimeoutMs st |}.
Proof.
  intros ((items & Hi & Hitems) & (t & Ht & Hnt) & Hb & Hp) Hk.
  unfold normalizeMotionMapEntry. cbn [fst snd].
  destruct (decide (k = "idleTimeoutMs")) as [->|Ntime].
  { rewrite Ht in Hk. injection Hk as <-.
    change (isEmpty (trim "idleTimeoutMs")) with false.
    change (String.eqb (trim "idleTimeoutMs") "idle") with false.
    change (String.eqb (trim "idleTimeoutMs") "idleTimeoutMs") with true.
    cbv iota. now rewrite Hnt. }
  destruct (decide (k = "idle")) as [->|Nidle].
  { rewrite Hi in Hk. injection Hk as <-.
    change (isEmpty (trim "idle")) with false.
    change (String.eqb (trim "idle") "idle") with true.
    change (trim "idle") with "idle".
    cbv iota. now rewrite (normalizeIdleList_fix _ Hitems). }
  destruct (Hb k v Hk) as ((Htrim & Hne) & s & -> & Hs);
    [intros [?|?]; contradiction|].
  rewrite Htrim, Hne.
  destruct (String.eqb_spec k "idle") as [?|_]; [contradiction|].
  destruct (String.eqb_spec k "idleTimeoutMs") as [?|_]; [contradiction|].
  rewrite (normalizeBindingMotion_fix _ Hs).
  rewrite writeProp_other; [reflexivity|].
  intros ->. rewrite Hp in Hk. discriminate.
Qed.

Lemma loop_on_normal m l :
  coreMotionMap m -> NoDup l.*1 ->
  (forall k v, (k, v) ∈ l -> m !! k = Some v) ->
  forall st,
    let st' := foldl normalizeMotionMapEntry st l in
    (forall k,
       loop_map st' !! k =
       if decide (k = "idleTimeoutMs") then loop_map st !! k
       else match (list_to_map l : gmap string jsval) !! k with
            | Some v => Some v
            | None => loop_map st !! k
            end) /\
    ((loop_hasBinding st = true \/
      exists k v, (k, v) ∈ l /\ ~ reserved k) ->
     loop_hasBinding st' = true) /\
    loop_idleTimeoutMs st' =
      match (list_to_map l : gmap string jsval) !! "idleTimeoutMs" with
      | Some (JNum t) => Some t
      | Some _ => loop_idleTimeoutMs st
      | None => loop_idleTimeoutMs st
      end.
Proof.
  intros Hm. induction l as [|[k0 v0] l IH]; intros Hnd Hin st.
  - cbv zeta. simpl. split; [|split].
    + intros k. rewrite lookup_empty. now destruct (decide _).
    + intros [H|(k & v & H & _)]; [exact H | inversion H].
    + now rewrite lookup_empty.
  - inversion Hnd as [|? ? Hk0 Hnd']; subst.
    assert (Hin' : forall k v, (k, v) ∈ l -> m !! k = Some v)
      by (intros k v H; apply Hin; now apply list_elem_of_further).
    pose proof (Hin k0 v0 (list_elem_of_here _ _)) as H0.
    specialize (IH Hnd' Hin' (normalizeMotionMapEntry st (k0, v0))).
    cbv zeta in *. simpl foldl. destruct IH as (IHm & IHh & IHt).
    rewrite (normalizeMotionMapEntry_normal m st k0 v0 Hm H0) in *.
    assert (Hnone : (list_to_map l : gmap string jsval) !! k0 = None)
      by now apply not_elem_of_list_to_map_1.
    split; [|split].
    + intros k. rewrite IHm. simpl list_to_map.
      destruct (decide (k = "idleTimeoutMs")) as [->|Nk].
      * destruct (decide (k0 = "idleTimeoutMs")); simpl;
          [reflexivity | now rewrite lookup_insert_ne].
      * destruct (decide (k = k0)) as [->|Hne].
        -- rewrite Hnone, lookup_insert_eq.
           destruct (decide (k0 = "idleTimeoutMs")); [contradiction|].
           simpl. apply lookup_insert_eq.
        -- rewrite (lookup_insert_ne _ _ _ _ (not_eq_sym Hne)).
           destruct (list_to_map l !! k); [reflexivity|].
           destruct (decide (k0 = "idleTimeoutMs")); [reflexivity|].
           simpl. now rewrite lookup_insert_ne by congruence.
    + intros H. apply IHh.
      destruct H as [H|(k & v & H & Hres)].
      * left. destruct (decide (k0 = "idleTimeoutMs")); simpl; [exact H|].
        now destruct (decide (k0 = "idle")).
      * apply elem_of_cons in H as [[= -> ->]|H]; [|right; eauto].
        left. destruct (decide (k0 = "idleTimeoutMs")) as [->|_];
          [exfalso; apply Hres; now right|]. simpl.
        destruct (decide (k0 = "idle")) as [->|_];
          [exfalso; apply Hres; now left | reflexivity].
    + rewrite IHt. simpl list_to_map.
      destruct (decide (k0 = "idleTimeoutMs")) as [->|Nk0].
      * rewrite Hnone, lookup_insert_eq. simpl. now destruct v0.
      * rewrite lookup_insert_ne by exact Nk0. simpl. reflexivity.
Qed.

Lemma normalizeMotionMap_fix m entries :
  normalMotionMap m -> enumerates entries m ->
  normalizeMotionMap (JObj entries) = m.
Proof.
  intros (Hm & (kb & sb & Hrb & Hkb)) (Hnd & Hl).
  pose proof Hm as ((items & Hi & Hitems) & (t & Ht & Hnt) & Hb & Hp).
  assert (Hin : forall k v, (k, v) ∈ entries -> m !! k = Some v).
  { intros k v H. rewrite <- Hl. now apply elem_of_list_to_map_1. }
  rewrite normalizeMotionMap_unfold. cbn [ownEntries].
  destruct (loop_on_normal m entries Hm Hnd Hin
              {| loop_map := ∅; loop_hasBinding := false;
                 loop_idleTimeoutMs := None |}) as (Hmap & Hhas & Htime).
  cbv zeta in *. set (st := foldl _ _ _) in *.
  rewrite Hl in Hmap, Htime. rewrite Ht in Htime. cbn [loop_map] in Hmap.
  unfold finish. rewrite Hhas, Htime.
  2:{ right. exists kb, (JStr sb). split; [|exact Hrb].
      rewrite <- Hl in Hkb. now apply elem_of_list_to_map_2. }
  assert (Hidle : loop_map st !! "idle" = Some (JArr items)).
  { rewrite Hmap. destruct (decide _); [discriminate|]. now rewrite Hi. }
  rewrite Hidle. cbn [nullish]. rewrite (normalizeIdleList_fix _ Hitems).
  apply map_eq. intros k.
  destruct (decide (k = "idleTimeoutMs")) as [->|Nk];
    [now rewrite lookup_insert_eq|].
  rewrite lookup_insert_ne by congruence.
  destruct (decide (k = "idle")) as [->|Ni]; [now rewrite lookup_insert_eq|].
  rewrite lookup_insert_ne by congruence. rewrite Hmap.
  destruct (decide _); [contradiction|]. rewrite lookup_empty.
  now destruct (m !! k).
Qed.

(** The motion map normalised from an object with one binding. *)
Definition oneBinding : jsval := JObj [("KeyA", JStr "tap")].

(** Normalising is idempotent on a motion map that came out with a
    binding, which is what saving and loading the settings relies on:
    handed such a motion map, as an object whose properties come in any
    order, [normalizeMotionMap] returns the same motion map.  (A motion
    map comes out with a binding unless the input had a property named
    [__proto__].) *)
Theorem normalizeMotionMap_idempotent (raw : jsval) :
  let m := normalizeMotionMap raw in
  (exists k s, k <> "idle" /\ k <> "idleTimeoutMs" /\ m !! k = Some (JStr s)) ->
  (forall entries,
     enumerates entries m -> normalizeMotionMap (JObj entries) = m) /\
  normalizeMotionMap (JObj (map_to_list m)) = m.
Proof.
  cbv zeta. intros (k & s & H1 & H2 & Hk).
  assert (H : forall entries,
             enumerates entries (normalizeMotionMap raw) ->
             normalizeMotionMap (JObj entries) = normalizeMotionMap raw).
  { intros entries. apply normalizeMotionMap_fix.
    split; [apply normalizeMotionMap_core|].
    exists k, s. split; [intros [?|?]; contradiction | exact Hk]. }
  split; [exact H|]. apply H. split.
  - apply NoDup_fst_map_to_list.
  - apply list_to_map_to_list.
Qed.

Lemma normalizeMotionMap_idempotent_witness :
  normalizeMotionMap oneBinding !! "KeyA" = Some (JStr "tap") /\
  normalizeMotionMap
    (JObj (map_to_list (normalizeMotionMap oneBinding)))
  = normalizeMotionMap oneBinding.
Proof.
  assert (H : normalizeMotionMap oneBinding !! "KeyA" = Some (JStr "tap"))
    by (vm_compute; reflexivity).
  split; [exact H|].
  apply (normalizeMotionMap_idempotent oneBinding).
  exists "KeyA", "tap". split; [discriminate|]. split; [discriminate | exact H].
Defined.

(** ** The pet settings *)

Lemma scale_lt : (2 # 10 < 3)%Q.
Proof. reflexivity. Qed.

Lemma pos_lt : (-600 < 600)%Q.
Proof. reflexivity. Qed.

(** Settings as normalisation returns them. *)
Definition normalPetSettings (s : PetSettings) : Prop :=
  validString (modelPath s) /\
  clamp (scale s) (2 # 10) 3 = scale s /\
  clamp (pos_x s) (-600) 600 = pos_x s /\
  clamp (pos_y s) (-600) 600 = pos_y s /\
  coreMotionMap (motionMap s).

Lemma normalizePetSettings_normal raw : normalPetSettings (normalizePetSettings raw).
Proof.
  unfold normalPetSettings, normalizePetSettings. cbn [modelPath scale pos_x pos_y motionMap].
  split; [|split; [|split; [|split]]].
  - destruct (optProp raw "modelPath") as [| | | | |s| |];
      try (split; reflexivity).
    destruct (isEmpty (trim s)) eqn:E; [split; reflexivity|].
    now apply validString_trim.
  - destruct (optProp raw "scale"); try reflexivity. apply clamp_idem, scale_lt.
  - destruct (optProp (optProp raw "pos") "x"); try reflexivity.
    apply clamp_idem, pos_lt.
  - destruct (optProp (optProp raw "pos") "y"); try reflexivity.
    apply clamp_idem, pos_lt.
  - apply normalizeMotionMap_core.
Qed.

(** Normalised settings are within their ranges, whatever was stored or
    typed: a trimmed non-empty model path, a scale between 0.2 and 3, a
    position within 600 of the origin on both axes. *)
Theorem normalizePetSettings_ranges (raw : jsval) :
  let s := normalizePetSettings raw in
  validString (modelPath s) /\
  (2 # 10 <= scale s)%Q /\ (scale s <= 3)%Q /\
  (-600 <= pos_x s)%Q /\ (pos_x s <= 600)%Q /\
  (-600 <= pos_y s)%Q /\ (pos_y s <= 600)%Q /\
  (isUndefined (optProp raw "scale") = true -> scale s = 1%Q) /\
  (optProp raw "pos" = JUndefined -> pos_x s = 0%Q /\ pos_y s = 0%Q).
Proof.
  cbv zeta.
  destruct (normalizePetSettings_normal raw) as (Hp & Hs & Hx & Hy & _).
  split; [exact Hp|].
  pose proof (clamp_bounds (scale (normalizePetSettings raw)) _ _ scale_lt) as [A B].
  pose proof (clamp_bounds (pos_x (normalizePetSettings raw)) _ _ pos_lt) as [C D].
  pose proof (clamp_bounds (pos_y (normalizePetSettings raw)) _ _ pos_lt) as [E F].
  rewrite Hs in A, B. rewrite Hx in C, D. rewrite Hy in E, F.
  repeat (split; [assumption|]). split.
  - unfold normalizePetSettings. cbn [scale].
    destruct (optProp raw "scale"); try discriminate. reflexivity.
  - intros H. unfold normalizePetSettings. cbn [pos_x pos_y]. rewrite H.
    split; reflexivity.
Qed.

Lemma normalizePetSettings_fix s entries :
  normalPetSettings s -> hasBinding (motionMap s) ->
  enumerates entries (motionMap s) ->
  normalizePetSettings (petSettingsToJs s entries) = s.
Proof.
  intros ((Ht & Hne) & Hs & Hx & Hy & Hm) Hb He. destruct s as [mp sc px py mm].
  cbn [modelPath scale pos_x pos_y motionMap] in *.
  unfold normalizePetSettings.
  change (optProp (petSettingsToJs (mkPetSettings mp sc px py mm) entries)
            "modelPath") with (JStr mp).
  change (optProp (petSettingsToJs (mkPetSettings mp sc px py mm) entries)
            "scale") with (JNum sc).
  change (optProp (optProp (petSettingsToJs (mkPetSettings mp sc px py mm)
                              entries) "pos") "x") with (JNum px).
  change (optProp (optProp (petSettingsToJs (mkPetSettings mp sc px py mm)
                              entries) "pos") "y") with (JNum py).
  change (optProp (petSettingsToJs (mkPetSettings mp sc px py mm) entries)
            "motionMap") with (JObj entries).
  cbv iota beta.
  rewrite Ht, Hne, Hs, Hx, Hy,
    (normalizeMotionMap_fix mm entries (conj Hm Hb) He).
  reflexivity.
Qed.

(** Saving and loading settings is stable when the motion map came out
    with a binding: normalising the object that such normalised settings
    are at run time (the properties of the motion map in any order)
    gives the same settings again.  (The motion map comes out with a
    binding unless the stored one had a property named [__proto__].) *)
Theorem normalizePetSettings_idempotent (raw : jsval) :
  let s := normalizePetSettings raw in
  (exists k v,
     k <> "idle" /\ k <> "idleTimeoutMs" /\ motionMap s !! k = Some (JStr v)) ->
  (forall entries,
     enumerates entries (motionMap s) ->
     normalizePetSettings (petSettingsToJs s entries) = s) /\
  normalizePetSettings (petSettingsToJs s (map_to_list (motionMap s))) = s.
Proof.
  cbv zeta. intros (k & v & H1 & H2 & Hk).
  assert (H : forall entries,
             enumerates entries (motionMap (normalizePetSettings raw)) ->
             normalizePetSettings
               (petSettingsToJs (normalizePetSettings raw) entries)
             = normalizePetSettings raw).
  { intros entries. apply normalizePetSettings_fix;
      [apply normalizePetSettings_normal|].
    exists k, v. split; [intros [?|?]; contradiction | exact Hk]. }
  split; [exact H|]. apply H. split.
  - apply NoDup_fst_map_to_list.
  - apply list_to_map_to_list.
Qed.

Lemma normalizePetSettings_idempotent_witness :
  motionMap (normalizePetSettings (JObj [("motionMap", oneBinding)])) !! "KeyA"
  = Some (JStr "tap") /\
  normalizePetSettings
    (petSettingsToJs (normalizePetSettings (JObj [("motionMap", oneBinding)]))
       (map_to_list
          (motionMap (normalizePetSettings (JObj [("motionMap", oneBinding)])))))
  = normalizePetSettings (JObj [("motionMap", oneBinding)]).
Proof.
  assert (H : motionMap (normalizePetSettings (JObj [("motionMap", oneBinding)]))
              !! "KeyA" = Some (JStr "tap"))
    by (vm_compute; reflexivity).
  split; [exact H|].
  apply (normalizePetSettings_idempotent (JObj [("motionMap", oneBinding)])).
  exists "KeyA", "tap". split; [discriminate|]. split; [discriminate | exact H].
Defined.

(** ** Display profiles *)

Definition normalProfile (p : DisplayProfile) : Prop :=
  MotionEngine.round (windowX p) = windowX p /\
  MotionEngine.round (windowY p) = windowY p /\
  clamp (profile_scale p) (2 # 10) 3 = profile_scale p.

Lemma round_round q : MotionEngine.round (MotionEngine.round q) = MotionEngine.round q.
Proof. unfold MotionEngine.round at 2 3. apply round_inject_Z. Qed.

(** The profiles [normalizeDisplayProfiles] returns: each one normal,
    none under the name [__proto__]. *)
Definition normalProfiles (profiles : gmap string DisplayProfile) : Prop :=
  map_Forall (fun _ p => normalProfile p) profiles /\
  profiles !! "__proto__" = None.

Lemma normalizeDisplayProfile_normal profiles entry :
  normalProfiles profiles ->
  normalProfiles (normalizeDisplayProfile profiles entry).
Proof.
  intros H. unfold normalizeDisplayProfile.
  destruct (snd entry) as [| | | | | |items|es]; try exact H.
  destruct (ownProp (JObj es) "windowX"); try exact H.
  destruct (ownProp (JObj es) "windowY"); try exact H.
  destruct H as (H & Hp). split; [|now apply writeProp_proto].
  unfold writeProp. destruct (String.eqb (fst entry) "__proto__"); [exact H|].
  apply map_Forall_insert_2; [|exact H].
  split; [apply round_round|]. split; [apply round_round|]. cbn [profile_scale].
  destruct (ownProp (JObj es) "scale"); try reflexivity.
  apply clamp_idem, scale_lt.
Qed.

Lemma normalProfiles_empty : normalProfiles ∅.
Proof. split; [apply map_Forall_empty | apply lookup_empty]. Qed.

Lemma normalizeDisplayProfiles_normal raw :
  normalProfiles (normalizeDisplayProfiles raw).
Proof.
  assert (H : forall entries profiles,
             normalProfiles profiles ->
             normalProfiles (foldl normalizeDisplayProfile profiles entries)).
  { induction entries as [|e entries IH]; intros profiles Hp; simpl;
      [exact Hp|]. apply IH, normalizeDisplayProfile_normal, Hp. }
  unfold normalizeDisplayProfiles.
  destruct raw; try apply normalProfiles_empty; apply H, normalProfiles_empty.
Qed.

Lemma normalizeDisplayProfile_fix profiles k p :
  normalProfile p -> k <> "__proto__" ->
  normalizeDisplayProfile profiles (k, displayProfileToJs p) = <[k := p]> profiles.
Proof.
  intros (Hx & Hy & Hs) Hk. destruct p as [wx wy sc]. cbn in *.
  rewrite Hx, Hy, Hs. now apply writeProp_other.
Qed.

Lemma normalizeDisplayProfiles_fix (m : gmap string DisplayProfile) entries :
  normalProfiles m -> enumerates entries m ->
  normalizeDisplayProfiles
    (JObj (List.map (fun e => (fst e, displayProfileToJs (snd e))) entries)) = m.
Proof.
  intros (Hm & Hp) (Hnd & Hl). unfold normalizeDisplayProfiles. cbn [ownEntries].
  assert (Hall : Forall (fun e => normalProfile (snd e) /\ fst e <> "__proto__")
                   entries).
  { apply Forall_forall. intros [k p] Hin.
    assert (Hk : m !! k = Some p)
      by (rewrite <- Hl; now apply elem_of_list_to_map_1).
    split; [apply (Hm k), Hk|]. cbn [fst]. intros ->.
    rewrite Hp in Hk. discriminate. }
  assert (H : forall acc,
             foldl normalizeDisplayProfile acc
               (List.map (fun e => (fst e, displayProfileToJs (snd e))) entries)
             = foldl (fun map entry => <[fst entry := snd entry]> map) acc
                 entries).
  { clear Hnd Hl. induction Hall as [|[k p] l (Hn & Hk) _ IH]; intros acc;
      simpl; [reflexivity|].
    now rewrite (normalizeDisplayProfile_fix _ _ _ Hn Hk), IH. }
  rewrite H. apply map_eq. intros k.
  rewrite fold_insert_lookup by exact Hnd. rewrite Hl, lookup_empty.
  now destruct (m !! k).
Qed.

(** Every display profile that survives normalisation has whole-number
    window coordinates and a scale between 0.2 and 3; and normalising
    the stored window preferences again (the profiles in any order)
    changes nothing. *)
Theorem normalizeWindowInteractionPrefs_stable (raw : jsval) :
  let prefs := normalizeWindowInteractionPrefs raw in
  (forall k p,
     displayProfiles prefs !! k = Some p ->
     (exists zx zy, windowX p = inject_Z zx /\ windowY p = inject_Z zy) /\
     (2 # 10 <= profile_scale p)%Q /\ (profile_scale p <= 3)%Q) /\
  (forall entries,
     enumerates entries (displayProfiles prefs) ->
     normalizeWindowInteractionPrefs (windowInteractionPrefsToJs prefs entries)
     = prefs) /\
  normalizeWindowInteractionPrefs
    (windowInteractionPrefsToJs prefs (map_to_list (displayProfiles prefs)))
  = prefs.
Proof.
  cbv zeta.
  pose proof (normalizeDisplayProfiles_normal (optProp raw "displayProfiles"))
    as Hn.
  assert (H : forall entries,
     enumerates entries
       (displayProfiles (normalizeWindowInteractionPrefs raw)) ->
     normalizeWindowInteractionPrefs
       (windowInteractionPrefsToJs (normalizeWindowInteractionPrefs raw)
          entries)
     = normalizeWindowInteractionPrefs raw).
  { intros entries He. unfold normalizeWindowInteractionPrefs at 1.
    change (optProp (windowInteractionPrefsToJs ?p entries) "locked")
      with (JBool (locked p)).
    change (optProp (windowInteractionPrefsToJs ?p entries) "snapEnabled")
      with (JBool (snapEnabled p)).
    change (optProp (windowInteractionPrefsToJs ?p entries) "displayProfiles")
      with (JObj (List.map (fun e => (fst e, displayProfileToJs (snd e)))
                    entries)).
    cbv iota beta.
    rewrite (normalizeDisplayProfiles_fix _ entries Hn He).
    reflexivity. }
  split; [|split; [exact H|]].
  - intros k p Hk. destruct (proj1 Hn k p Hk) as (Hx & Hy & Hs).
    split.
    + exists (Qfloor (windowX p + (1 # 2))), (Qfloor (windowY p + (1 # 2))).
      split; symmetry; assumption.
    + pose proof (clamp_bounds (profile_scale p) _ _ scale_lt) as [A B].
      rewrite Hs in A, B. split; assumption.
  - apply H. split.
    + apply NoDup_fst_map_to_list.
    + apply list_to_map_to_list.
Qed.

End SettingsFacts.

(* ===================================================================== *)
(** * Window placement                                                    *)
(* ===================================================================== *)

Module WindowInteractionFacts.
Import WindowInteraction NumberFacts.

(** What [clamp] is, as a number, whichever way the bounds are ordered. *)
Lemma clamp_spec v lo hi :
  (hi < lo /\ clamp v lo hi == hi)%Q \/
  (lo <= hi /\ v <= lo /\ clamp v lo hi == lo)%Q \/
  (lo <= hi /\ lo <= v /\ v <= hi /\ clamp v lo hi == v)%Q \/
  (lo <= hi /\ hi <= v /\ clamp v lo hi == hi)%Q.
Proof.
  unfold clamp.
  destruct (Q.max_spec lo v) as [(A & E)|(A & E)];
    destruct (Q.min_spec hi (Qmax lo v)) as [(B & F)|(B & F)];
    set (mx := Qmax lo v) in *; set (mn := Qmin hi mx) in *;
    destruct (Qlt_le_dec hi lo) as [C|C];
    first [ left; split; [exact C | Lqa.lra]
          | right; left; repeat split; Lqa.lra
          | right; right; left; repeat split; Lqa.lra
          | right; right; right; repeat split; Lqa.lra ].
Qed.

Lemma round_floor q :
  (MotionEngine.round q <= q + (1 # 2))%Q /\
  (q - (1 # 2) < MotionEngine.round q)%Q.
Proof.
  unfold MotionEngine.round.
  pose proof (Qfloor_le (q + (1 # 2))) as F1.
  pose proof (Qlt_floor (q + (1 # 2))) as F2.
  rewrite inject_Z_plus in F2. change (inject_Z 1) with 1%Q in F2.
  set (r := inject_Z (Qfloor (q + (1 # 2)))) in *. split; Lqa.lra.
Qed.

(** A rounded number that lies beyond a bound rounds to what the bound
    rounds to, when it came from a number within the bound. *)
Lemma round_clamp_round v lo hi :
  MotionEngine.round (clamp (MotionEngine.round (clamp v lo hi)) lo hi)
  = MotionEngine.round (clamp v lo hi).
Proof.
  set (c := clamp v lo hi).
  assert (Hc : (hi < lo /\ c == hi)%Q \/ (lo <= hi /\ lo <= c /\ c <= hi)%Q).
  { unfold c. destruct (clamp_spec v lo hi)
      as [(A & E)|[(A & B & E)|[(A & B & C & E)|(A & B & E)]]];
      [left; split; assumption | right | right | right];
      repeat split; Lqa.lra. }
  unfold MotionEngine.round at 1 3. f_equal.
  set (z := Qfloor (c + (1 # 2))).
  pose proof (Qfloor_le (c + (1 # 2))) as F1.
  pose proof (Qlt_floor (c + (1 # 2))) as F2. fold z in F1, F2.
  assert (Er : MotionEngine.round c = inject_Z z) by reflexivity.
  rewrite Er. clear Er.
  apply Qfloor_eq; rewrite ?inject_Z_plus in *;
    change (inject_Z 1) with 1%Q in *;
    set (r := inject_Z z) in *;
    destruct (clamp_spec r lo hi)
      as [(A & E)|[(A & B & E)|[(A & B & C & E)|(A & B & E)]]];
    set (c2 := clamp r lo hi) in *;
    destruct Hc as [(D & G)|(D & G & K)]; Lqa.lra.
Qed.

(** A whole number (of physical pixels). *)
Definition whole (q : Q) : Prop := exists z, (q == inject_Z z)%Q.

Lemma round_whole q : whole q -> (MotionEngine.round q == q)%Q.
Proof.
  intros (z & E). rewrite (round_comp _ _ E), round_inject_Z. now symmetry.
Qed.

Lemma clamp_axis_within v lo hi :
  (lo <= hi)%Q ->
  (MotionEngine.round lo <= MotionEngine.round (clamp v lo hi))%Q /\
  (MotionEngine.round (clamp v lo hi) <= MotionEngine.round hi)%Q.
Proof.
  intros H. split; apply round_le;
    destruct (clamp_spec v lo hi)
      as [(A & E)|[(A & B & E)|[(A & B & C & E)|(A & B & E)]]];
    set (c := clamp v lo hi) in *; Lqa.lra.
Qed.

(** When the window fits in the work area of the monitor, the clamped
    position lies between the rounded bounds of the work area on both
    axes, so inside the work area itself when the bounds are whole
    numbers of pixels. *)
Theorem clampPositionToMonitor_within (position : WindowPosition)
    (monitor : Monitor) (windowSize : PhysicalSize) :
  let b := workAreaBounds monitor windowSize in
  let p := clampPositionToMonitor position monitor windowSize in
  (left b <= right b)%Q -> (top b <= bottom b)%Q ->
  (MotionEngine.round (left b) <= x p)%Q /\
  (x p <= MotionEngine.round (right b))%Q /\
  (MotionEngine.round (top b) <= y p)%Q /\
  (y p <= MotionEngine.round (bottom b))%Q /\
  (whole (left b) -> whole (right b) -> (left b <= x p)%Q /\ (x p <= right b)%Q) /\
  (whole (top b) -> whole (bottom b) -> (top b <= y p)%Q /\ (y p <= bottom b)%Q).
Proof.
  cbv zeta. intros Hx Hy. unfold clampPositionToMonitor. cbn [x y].
  set (b := workAreaBounds monitor windowSize) in *.
  destruct (clamp_axis_within (x position) _ _ Hx) as [A B].
  destruct (clamp_axis_within (y position) _ _ Hy) as [C D].
  repeat (split; [assumption|]). split.
  - intros Hl Hr. apply round_whole in Hl, Hr. rewrite Hl in A. rewrite Hr in B.
    now split.
  - intros Ht Hb. apply round_whole in Ht, Hb. rewrite Ht in C. rewrite Hb in D.
    now split.
Qed.

Lemma clampPositionToMonitor_within_witness :
  let monitor := {| workArea_x := 0; workArea_y := 25;
                    workArea_width := 1920; workArea_height := 1055 |} in
  let windowSize := {| width := 400; height := 600 |} in
  let b := workAreaBounds monitor windowSize in
  let p := clampPositionToMonitor {| x := 1800; y := -40 |} monitor windowSize in
  (MotionEngine.round (left b) <= x p)%Q /\
  (x p <= MotionEngine.round (right b))%Q /\
  (MotionEngine.round (top b) <= y p)%Q /\
  (y p <= MotionEngine.round (bottom b))%Q /\
  (whole (left b) -> whole (right b) -> (left b <= x p)%Q /\ (x p <= right b)%Q) /\
  (whole (top b) -> whole (bottom b) -> (top b <= y p)%Q /\ (y p <= bottom b)%Q).
Proof.
  apply (clampPositionToMonitor_within {| x := 1800; y := -40 |}
           {| workArea_x := 0; workArea_y := 25;
              workArea_width := 1920; workArea_height := 1055 |}
           {| width := 400; height := 600 |}); vm_compute; discriminate.
Defined.

(** Clamping is idempotent, whatever the monitor and the window size: a
    clamped position is not moved by clamping it again, so the handler
    of window moves does not chase its own corrections.  And a window is
    never placed beyond the rounded right and bottom bounds, even when it
    does not fit in the work area. *)
Theorem clampPositionToMonitor_idempotent (position : WindowPosition)
    (monitor : Monitor) (windowSize : PhysicalSize) :
  let b := workAreaBounds monitor windowSize in
  let p := clampPositionToMonitor position monitor windowSize in
  clampPositionToMonitor p monitor windowSize = p /\
  positionsEqual (clampPositionToMonitor p monitor windowSize) p = true /\
  (x p <= MotionEngine.round (right b))%Q /\
  (y p <= MotionEngine.round (bottom b))%Q.
Proof.
  cbv zeta.
  assert (E : clampPositionToMonitor
                (clampPositionToMonitor position monitor windowSize)
                monitor windowSize
              = clampPositionToMonitor position monitor windowSize).
  { unfold clampPositionToMonitor. cbn [x y]. now rewrite !round_clamp_round. }
  split; [exact E|]. split.
  - rewrite E. unfold positionsEqual. now rewrite !Qeq_bool_refl.
  - unfold clampPositionToMonitor. cbn [x y].
    split; apply round_le, Q.le_min_l.
Qed.

Lemma snapAxis_spec value lo hi threshold :
  (snd (snapAxis value lo hi threshold) = false ->
   fst (snapAxis value lo hi threshold) = value) /\
  (snd (snapAxis value lo hi threshold) = true ->
   (0 < threshold)%Q /\
   (fst (snapAxis value lo hi threshold) = lo \/
    fst (snapAxis value lo hi threshold) = hi)) /\
  (Qabs.Qabs (fst (snapAxis value lo hi threshold) - value)
   <= Qmax 0 threshold)%Q.
Proof.
  unfold snapAxis.
  pose proof (Q.le_max_l 0 threshold) as M0.
  pose proof (Q.le_max_r 0 threshold) as M1.
  destruct (Qlt_le_dec (Qabs.Qabs (value - lo)) threshold) as [A|A].
  { cbn [fst snd]. split; [discriminate|]. split.
    - intros _. split; [|now left].
      eapply Qle_lt_trans; [apply Qabs.Qabs_nonneg | exact A].
    - rewrite Qabs.Qabs_Qminus. eapply Qle_trans; [|exact M1].
      now apply Qlt_le_weak. }
  destruct (Qlt_le_dec (Qabs.Qabs (hi - value)) threshold) as [B|B].
  { cbn [fst snd]. split; [discriminate|]. split.
    - intros _. split; [|now right].
      eapply Qle_lt_trans; [apply Qabs.Qabs_nonneg | exact B].
    - eapply Qle_trans; [|exact M1]. now apply Qlt_le_weak. }
  cbn [fst snd]. split; [reflexivity|]. split; [discriminate|].
  eapply Qle_trans; [|exact M0].
  apply Qabs.Qabs_Qle_condition. split; Lqa.lra.
Qed.

Lemma round_near q : (Qabs.Qabs (MotionEngine.round q - q) <= 1 # 2)%Q.
Proof.
  destruct (round_floor q) as [A B].
  apply Qabs.Qabs_Qle_condition. set (r := MotionEngine.round q) in *.
  split; Lqa.lra.
Qed.

(** Snapping moves the window on each axis by less than the threshold
    (and by at most half a pixel of rounding); when nothing snaps, the
    position returned is the given one, rounded; and it reports
    [snapped] only when the threshold is positive. *)
Theorem snapPositionToEdges_near (position : WindowPosition)
    (monitor : Monitor) (windowSize : PhysicalSize) (threshold : Q) :
  let r := snapPositionToEdges position monitor windowSize threshold in
  (snapped r = false ->
   WindowInteraction.position r
   = {| x := MotionEngine.round (x position);
        y := MotionEngine.round (y position) |}) /\
  (snapped r = true -> (0 < threshold)%Q) /\
  (Qabs.Qabs (x (WindowInteraction.position r) - x position)
   <= Qmax 0 threshold + (1 # 2))%Q /\
  (Qabs.Qabs (y (WindowInteraction.position r) - y position)
   <= Qmax 0 threshold + (1 # 2))%Q.
Proof.
  cbv zeta. unfold snapPositionToEdges.
  set (b := workAreaBounds monitor windowSize).
  cbn [snapped WindowInteraction.position x y].
  destruct (snapAxis_spec (x position) (left b) (right b) threshold)
    as (Fx & Tx & Dx).
  destruct (snapAxis_spec (y position) (top b) (bottom b) threshold)
    as (Fy & Ty & Dy).
  set (sx := snapAxis (x position) (left b) (right b) threshold) in *.
  set (sy := snapAxis (y position) (top b) (bottom b) threshold) in *.
  assert (G : forall s v,
             (Qabs.Qabs (s - v) <= Qmax 0 threshold)%Q ->
             (Qabs.Qabs (MotionEngine.round s - v)
              <= Qmax 0 threshold + (1 # 2))%Q).
  { intros s v H. pose proof (round_near s) as R.
    apply Qabs.Qabs_Qle_condition in H, R. apply Qabs.Qabs_Qle_condition.
    set (rs := MotionEngine.round s) in *. set (m := Qmax 0 threshold) in *.
    split; Lqa.lra. }
  split; [|split; [|split]].
  - intros H. apply orb_false_iff in H as [Hx Hy].
    now rewrite (Fx Hx), (Fy Hy).
  - intros H. apply orb_true_iff in H as [H|H];
      [apply (Tx H) | apply (Ty H)].
  - now apply G.
  - now apply G.
Qed.

(** Snapping does not push a clamped window out of the work area: when
    the bounds are whole numbers of pixels and the window fits, snapping
    the clamped position gives a position that clamping leaves as it
    is. *)
Theorem snap_after_clamp_within (position : WindowPosition)
    (monitor : Monitor) (windowSize : PhysicalSize) (threshold : Q) :
  let b := workAreaBounds monitor windowSize in
  let clamped := clampPositionToMonitor position monitor windowSize in
  let r := snapPositionToEdges clamped monitor windowSize threshold in
  whole (left b) -> whole (right b) -> whole (top b) -> whole (bottom b) ->
  (left b <= right b)%Q -> (top b <= bottom b)%Q ->
  clampPositionToMonitor (WindowInteraction.position r) monitor windowSize
  = WindowInteraction.position r.
Proof.
  cbv zeta. intros Wl Wr Wt Wb Hx Hy.
  unfold snapPositionToEdges, clampPositionToMonitor.
  set (b := workAreaBounds monitor windowSize) in *.
  cbn [WindowInteraction.position x y].
  assert (G : forall v lo hi threshold,
             whole lo -> whole hi -> (lo <= hi)%Q ->
             MotionEngine.round
               (clamp (MotionEngine.round
                         (fst (snapAxis (MotionEngine.round (clamp v lo hi))
                                 lo hi threshold))) lo hi)
             = MotionEngine.round
                 (fst (snapAxis (MotionEngine.round (clamp v lo hi))
                         lo hi threshold))).
  { intros v lo hi th Wlo Whi Hle.
    destruct (snapAxis_spec (MotionEngine.round (clamp v lo hi)) lo hi th)
      as (F & T & _).
    destruct (snd (snapAxis (MotionEngine.round (clamp v lo hi)) lo hi th));
      [destruct (T eq_refl) as (_ & [E|E]) | rewrite (F eq_refl)].
    - rewrite E. pose proof (round_whole _ Wlo) as R.
      apply round_comp.
      destruct (clamp_spec (MotionEngine.round lo) lo hi)
        as [(A & K)|[(A & B & K)|[(A & B & C & K)|(A & B & K)]]];
        set (c := clamp (MotionEngine.round lo) lo hi) in *;
        set (rl := MotionEngine.round lo) in *; Lqa.lra.
    - rewrite E. pose proof (round_whole _ Whi) as R.
      apply round_comp.
      destruct (clamp_spec (MotionEngine.round hi) lo hi)
        as [(A & K)|[(A & B & K)|[(A & B & C & K)|(A & B & K)]]];
        set (c := clamp (MotionEngine.round hi) lo hi) in *;
        set (rh := MotionEngine.round hi) in *; Lqa.lra.
    - rewrite NumberFacts.round_round_id. apply round_clamp_round. }
  now rewrite !G.
Qed.

Lemma snap_after_clamp_within_witness :
  clampPositionToMonitor
    (WindowInteraction.position
       (snapPositionToEdges
          (clampPositionToMonitor {| x := 1510; y := -40 |}
             {| workArea_x := 0; workArea_y := 25;
                workArea_width := 1920; workArea_height := 1055 |}
             {| width := 400; height := 600 |})
          {| workArea_x := 0; workArea_y := 25;
             workArea_width := 1920; workArea_height := 1055 |}
          {| width := 400; height := 600 |} 16))
    {| workArea_x := 0; workArea_y := 25;
       workArea_width := 1920; workArea_height := 1055 |}
    {| width := 400; height := 600 |}
  = WindowInteraction.position
      (snapPositionToEdges
         (clampPositionToMonitor {| x := 1510; y := -40 |}
            {| workArea_x := 0; workArea_y := 25;
               workArea_width := 1920; workArea_height := 1055 |}
            {| width := 400; height := 600 |})
         {| workArea_x := 0; workArea_y := 25;
            workArea_width := 1920; workArea_height := 1055 |}
         {| width := 400; height := 600 |} 16).
Proof.
  apply (snap_after_clamp_within {| x := 1510; y := -40 |}
           {| workArea_x := 0; workArea_y := 25;
              workArea_width := 1920; workArea_height := 1055 |}
           {| width := 400; height := 600 |} 16);
    first [ now exists 0%Z | now exists 1520%Z | now exists 25%Z
          | now exists 480%Z | vm_compute; discriminate ].
Defined.

End WindowInteractionFacts.

(* ===================================================================== *)
(** * The pointer focus and the model root                                *)
(* ===================================================================== *)

Module PetStageFacts.
Import PetStage NumberFacts.

Lemma unit_lt : (-1 < 1)%Q.
Proof. reflexivity. Qed.

(** The point the model is told to look at is never further from the
    pointer (in window coordinates) than 20 pixels horizontally and 16
    vertically, wherever the pointer is and whatever the size of the
    renderer, zero included. *)
Theorem handleMouseMove_near (x y screenX screenY rendererWidth rendererHeight : Q) :
  let focus := handleMouseMove x y screenX screenY rendererWidth rendererHeight in
  (Qabs.Qabs (fst focus - (x - screenX)) <= 20)%Q /\
  (Qabs.Qabs (snd focus - (y - screenY)) <= 16)%Q.
Proof.
  cbv zeta. unfold handleMouseMove. cbn [fst snd].
  split; apply Qabs.Qabs_Qle_condition.
  - destruct (clamp_bounds
                ((x - screenX) / Qmax rendererWidth 1 * 2 - 1) _ _ unit_lt)
      as [A B].
    set (n := clamp _ _ _) in *. split; Lqa.lra.
  - destruct (clamp_bounds
                ((y - screenY) / Qmax rendererHeight 1 * 2 - 1) _ _ unit_lt)
      as [A B].
    set (n := clamp _ _ _) in *. split; Lqa.lra.
Qed.

End PetStageFacts.

Module SettingsPanelFacts.
Import SettingsPanel.
Local Open Scope Z_scope.

Lemma lastIndexOf_range c s :
  -1 <= lastIndexOf c s < Z.of_nat (String.length s).
Proof.
  induction s as [|a s IH]; simpl lastIndexOf; simpl String.length; [lia|].
  destruct (0 <=? lastIndexOf c s) eqn:E; [lia|].
  destruct (Ascii.eqb a c); lia.
Qed.

Lemma lastIndexOf_app c s t :
  lastIndexOf c (s +:+ t) =
  if 0 <=? lastIndexOf c t
  then Z.of_nat (String.length s) + lastIndexOf c t
  else lastIndexOf c s.
Proof.
  induction s as [|a s IH].
  - change ("" +:+ t) with t. change (String.length "") with 0%nat.
    destruct (0 <=? lastIndexOf c t) eqn:E; [lia|].
    apply Z.leb_gt in E. pose proof (lastIndexOf_range c t).
    change (lastIndexOf c "") with (-1). lia.
  - change (String a s +:+ t) with (String a (s +:+ t)).
    simpl lastIndexOf. rewrite IH. simpl String.length.
    destruct (0 <=? lastIndexOf c t) eqn:E.
    + apply Z.leb_le in E.
      replace (0 <=? Z.of_nat (String.length s) + lastIndexOf c t) with true
        by (symmetry; apply Z.leb_le; lia).
      lia.
    + reflexivity.
Qed.

Lemma substring_prefix s t :
  String.substring 0 (String.length s) (s +:+ t) = s.
Proof.
  induction s as [|a s IH].
  - change ("" +:+ t) with t. simpl. now destruct t.
  - change (String a s +:+ t) with (String a (s +:+ t)). simpl. now rewrite IH.
Qed.

(** A file name: no separator in it. *)
Definition noSeparator (s : string) : Prop :=
  lastIndexOf "/" s = -1 /\ lastIndexOf "\" s = -1.

Lemma dirname_join sep dir file :
  sep = "/"%char \/ sep = "\"%char ->
  dir <> EmptyString -> noSeparator file ->
  dirname (dir +:+ String sep file) = dir.
Proof.
  intros Hsep Hdir (Hf1 & Hf2). unfold dirname.
  assert (Hlen : 0 < Z.of_nat (String.length dir))
    by (destruct dir; [contradiction | simpl; lia]).
  assert (Hmax : Z.max (lastIndexOf "/" (dir +:+ String sep file))
                   (lastIndexOf "\" (dir +:+ String sep file))
                 = Z.of_nat (String.length dir)).
  { rewrite !lastIndexOf_app. simpl lastIndexOf. rewrite Hf1, Hf2.
    pose proof (lastIndexOf_range "/" dir).
    pose proof (lastIndexOf_range "\" dir).
    destruct Hsep as [-> | ->]; simpl; lia. }
  rewrite Hmax.
  replace (0 <? Z.of_nat (String.length dir)) with true
    by (symmetry; apply Z.ltb_lt; lia).
  rewrite Nat2Z.id. apply substring_prefix.
Qed.

(** [dirname] undoes joining a directory and a file name with either
    separator; a path with no separator, or whose only separator is its
    first character, is returned as it is. *)
Theorem dirname_spec (dir file : string) :
  (dir <> EmptyString -> noSeparator file ->
   dirname (dir +:+ String "/" file) = dir /\
   dirname (dir +:+ String "\" file) = dir) /\
  (noSeparator file -> dirname file = file) /\
  (noSeparator file -> dirname (String "/" file) = String "/" file).
Proof.
  split; [|split].
  - intros Hdir Hfile.
    split; apply dirname_join; auto.
  - intros (H1 & H2). unfold dirname. now rewrite H1, H2.
  - intros (H1 & H2). unfold dirname. simpl lastIndexOf. now rewrite H1, H2.
Qed.

End SettingsPanelFacts.

(* ===================================================================== *)
(** * The validator: what it accepts, and loading                         *)
(* ===================================================================== *)

Module ValidatorProperties.
Import ValidatorFacts Loader.
Local Open Scope list_scope.

(** The validator accepts exactly the well-formed configurations: the
    value of every accepted input is well formed, and every well-formed
    configuration, handed over as an object, is accepted as it is. *)
Theorem validateMotionConfig_accepts_exactly_wf (c : MotionConfig) :
  (exists raw,
     validateMotionConfig raw =
     Ret {| ok := true; errors := []; value := Some c |}) <->
  wfConfig c.
Proof.
  split.
  - intros (raw & E).
    destruct (validateMotionConfig_cases raw)
      as [(errs & _ & E')|(c' & Hwf & E')]; rewrite E' in E.
    + discriminate.
    + now injection E as <-.
  - intros Hwf. exists (configToJs c).
    now apply validateMotionConfig_configToJs.
Qed.

Lemma asIntegerInRange_bounds q lo hi :
  asIntegerInRange (JNum q) lo hi = Some q ->
  isInteger q = true /\ (lo <= q)%Q /\ (q <= hi)%Q.
Proof.
  simpl. destruct (isInteger q); [|discriminate]. simpl.
  unfold inRange. destruct (Qle_bool lo q) eqn:A; [|discriminate].
  destruct (Qle_bool q hi) eqn:B; [|discriminate]. intros _.
  split; [reflexivity|]. split; now apply Qle_bool_imp_le.
Qed.

Lemma asNumberInRange_bounds q lo hi :
  asNumberInRange (JNum q) lo hi = Some q -> (lo <= q)%Q /\ (q <= hi)%Q.
Proof.
  simpl. unfold inRange. destruct (Qle_bool lo q) eqn:A; [|discriminate].
  destruct (Qle_bool q hi) eqn:B; [|discriminate]. intros _.
  split; now apply Qle_bool_imp_le.
Qed.

(** What a caller can rely on in a configuration the validator let
    through: a non-empty key map under trimmed non-empty names; combo
    rules with distinct ids, at least two inputs, a whole [withinMs]
    between 1 and 10000 and an action that is not itself a combo; a
    non-empty list of idle actions, none a combo, with weights between
    0.01 and 100; and a whole [afterMs] between 500 and 600000. *)
Theorem validated_config_invariants (raw : jsval)
    (result : MotionConfigValidationResult) (c : MotionConfig) :
  validateMotionConfig raw = Ret result -> value result = Some c ->
  keyMap c <> ∅ /\
  (forall k a, keyMap c !! k = Some a -> trim k = k /\ isEmpty k = false) /\
  NoDup (List.map rule_id (comboRules c)) /\
  Forall (fun r =>
            2 <= length (rule_sequence r) /\
            isInteger (rule_withinMs r) = true /\
            (1 <= rule_withinMs r)%Q /\ (rule_withinMs r <= 10000)%Q /\
            isCombo (rule_action r) = false)
         (comboRules c) /\
  idle_actions (idle c) <> [] /\
  Forall (fun e =>
            isCombo (entry_action e) = false /\
            match entry_weight e with
            | Some w => (1 # 100 <= w)%Q /\ (w <= 100)%Q
            | None => True
            end)
         (idle_actions (idle c)) /\
  isInteger (idle_afterMs (idle c)) = true /\
  (500 <= idle_afterMs (idle c))%Q /\ (idle_afterMs (idle c) <= 600000)%Q.
Proof.
  intros E Hv.
  destruct (validateMotionConfig_cases raw)
    as [(errs & _ & E')|(c' & Hwf & E')]; rewrite E' in E;
    injection E as <-; simpl in Hv; [discriminate|]. injection Hv as ->.
  destruct Hwf as ((Hne & Hkm) & (Hrules & Hnd) & (Hafter & _ & Hacts & Hentries)).
  split; [exact Hne|]. split; [|split; [exact Hnd|split; [|split; [exact Hacts|split]]]].
  - intros k a Hk. exact (proj1 (proj1 (Hkm k a Hk))).
  - eapply Forall_impl; [exact Hrules|].
    intros r (_ & Hlen & _ & Hw & Hact & _).
    destruct (asIntegerInRange_bounds _ _ _ Hw) as (Hi & Hlo & Hhi).
    repeat (split; [assumption|]). now apply wfAction_false_not_combo.
  - eapply Forall_impl; [exact Hentries|].
    intros e (Hact & Hw). split; [now apply wfAction_false_not_combo|].
    destruct (entry_weight e) as [w|]; [|exact I].
    exact (asNumberInRange_bounds _ _ _ Hw).
  - exact (asIntegerInRange_bounds _ _ _ Hafter).
Qed.

Lemma validated_config_invariants_witness :
  keyMap defaultMotionConfig <> ∅ /\
  (forall k a, keyMap defaultMotionConfig !! k = Some a ->
     trim k = k /\ isEmpty k = false) /\
  NoDup (List.map rule_id (comboRules defaultMotionConfig)) /\
  Forall (fun r =>
            2 <= length (rule_sequence r) /\
            isInteger (rule_withinMs r) = true /\
            (1 <= rule_withinMs r)%Q /\ (rule_withinMs r <= 10000)%Q /\
            isCombo (rule_action r) = false)
         (comboRules defaultMotionConfig) /\
  idle_actions (idle defaultMotionConfig) <> [] /\
  Forall (fun e =>
            isCombo (entry_action e) = false /\
            match entry_weight e with
            | Some w => (1 # 100 <= w)%Q /\ (w <= 100)%Q
            | None => True
            end)
         (idle_actions (idle defaultMotionConfig)) /\
  isInteger (idle_afterMs (idle defaultMotionConfig)) = true /\
  (500 <= idle_afterMs (idle defaultMotionConfig))%Q /\
  (idle_afterMs (idle defaultMotionConfig) <= 600000)%Q.
Proof.
  apply (validated_config_invariants (configToJs defaultMotionConfig)
           {| ok := true; errors := [];
              value := Some defaultMotionConfig |} defaultMotionConfig).
  - vm_compute. reflexivity.
  - reflexivity.
Defined.

(** Loading a configuration never fails and never yields a malformed
    configuration: whatever the network answers, the loader resolves to
    a well-formed configuration.  It is the validated body when the
    response is ok and its body is JSON that validates; it is the
    built-in default when the body does not validate, when the body is
    not JSON, on an HTTP error and when the request is rejected. *)
Theorem loadMotionConfigFromUrl_total (answer : FetchAnswer) :
  (exists c, loadMotionConfigFromUrl answer = Ret c /\ wfConfig c) /\
  (forall status raw c,
     answer = Response true status (Some raw) ->
     validateMotionConfig raw =
     Ret {| ok := true; errors := []; value := Some c |} ->
     loadMotionConfigFromUrl answer = Ret c) /\
  (forall status raw errs,
     answer = Response true status (Some raw) ->
     validateMotionConfig raw =
     Ret {| ok := false; errors := errs; value := None |} ->
     loadMotionConfigFromUrl answer = Ret defaultMotionConfig) /\
  (answer = FetchRejected \/
   (exists status json, answer = Response false status json) \/
   (exists status, answer = Response true status None) ->
   loadMotionConfigFromUrl answer = Ret defaultMotionConfig).
Proof.
  split; [|split; [|split]].
  - assert (Hd : exists c,
               Ret (cloneMotionConfig defaultMotionConfig) = Ret c /\
               wfConfig c).
    { exists defaultMotionConfig. rewrite cloneMotionConfig_id.
      split; [reflexivity | apply wfConfig_default]. }
    destruct answer as [|[|] status [raw|]]; try exact Hd.
    unfold loadMotionConfigFromUrl, resolveMotionConfig.
    destruct (validateMotionConfig_cases raw)
      as [(errs & _ & E)|(c & Hwf & E)]; rewrite E; simpl; [exact Hd|].
    exists c. split; [reflexivity | exact Hwf].
  - intros status raw c -> E.
    unfold loadMotionConfigFromUrl, resolveMotionConfig. now rewrite E.
  - intros status raw errs -> E.
    unfold loadMotionConfigFromUrl, resolveMotionConfig. rewrite E. simpl.
    now rewrite cloneMotionConfig_id.
  - intros [->|[(status & json & ->)|(status & ->)]]; simpl;
      now rewrite cloneMotionConfig_id.
Qed.

End ValidatorProperties.

(* ===================================================================== *)
(** * The tween presets over time                                         *)
(* ===================================================================== *)

Module TweenPresetsProperties.
Import TweenPresets TweenPresetsFacts.
Local Open Scope R_scope.

(** The invariant of a target that was at rest at [origin]: either no
    tween is active, nothing waits and the target is at [origin]; or one
    tween is active, started no later than [bound], its callback is the
    only one waiting, it is not cancelled, and what it will restore is
    [origin]. *)
Definition stageInv (origin : Frame) (bound : R) (st : Stage) : Prop :=
  Forall (fun i => (i < nextTweenId st)%nat) (cancelledTweens st) /\
  ((activeTweens st = None /\ rafQueue st = [] /\ target st = origin) \/
   (exists a id,
      activeTweens st = Some (a, id) /\ rafQueue st = [(id, a)] /\
      tw_origin a = origin /\ (tw_id a < nextTweenId st)%nat /\
      existsb (Nat.eqb (tw_id a)) (cancelledTweens st) = false /\
      tw_startedAt a <= bound)).

Lemma fresh_not_cancelled n l :
  Forall (fun i => (i < n)%nat) l -> existsb (Nat.eqb n) l = false.
Proof.
  induction 1 as [|i l Hi _ IH]; simpl; [reflexivity|].
  rewrite IH, orb_false_r. apply Nat.eqb_neq. lia.
Qed.

Lemma stageInv_atRest origin bound : stageInv origin bound (atRest origin).
Proof. split; [constructor|]. left. repeat split. Qed.

Lemma stageInv_apply origin bound st preset rawStrength now :
  now <= bound -> stageInv origin bound st ->
  stageInv origin bound (applyTweenPreset st preset rawStrength now).
Proof.
  intros Hnow (Hc & [(Ha & Hq & Ht)|(a & id & Ha & Hq & Ho & Hid & Hnc & Hs)]).
  - unfold applyTweenPreset, cancelActiveTween. rewrite Ha. simpl.
    split.
    + eapply Forall_impl; [exact Hc|]. simpl. intros; lia.
    + right. eexists _, _. rewrite Hq. simpl.
      split; [reflexivity|]. split; [reflexivity|]. split; [exact Ht|].
      split; [simpl; lia|].
      split; [simpl; now apply fresh_not_cancelled | exact Hnow].
  - rewrite (applyTweenPreset_supersede _ _ _ _ _ _ Ha). simpl.
    assert (Hc' : Forall (fun i => (i < nextTweenId st)%nat)
                    (tw_id a :: cancelledTweens st))
      by (constructor; assumption).
    split.
    + eapply Forall_impl; [exact Hc'|]. simpl. intros; lia.
    + right. eexists _, _. rewrite Hq. simpl. rewrite Nat.eqb_refl. simpl.
      split; [reflexivity|]. split; [reflexivity|]. split; [exact Ho|].
      split; [simpl; lia|]. split; [|exact Hnow].
      exact (fresh_not_cancelled _ _ Hc').
Qed.

Lemma stageInv_frame origin bound st now :
  stageInv origin bound st -> stageInv origin bound (runAnimationFrame now st).
Proof.
  intros (Hc & [(Ha & Hq & Ht)|(a & id & Ha & Hq & Ho & Hid & Hnc & Hs)]);
    unfold runAnimationFrame; rewrite Hq; simpl.
  - split; [exact Hc|]. left. repeat split; assumption.
  - unfold tick. simpl. rewrite Hnc.
    destruct (Rlt_dec _ 1); simpl.
    + split; [exact Hc|]. right. exists a, (nextRafId st).
      rewrite Ha, Nat.eqb_refl. repeat split; assumption.
    + split; [exact Hc|]. left. repeat split. exact Ho.
Qed.

Lemma stageInv_run origin bound events st :
  Forall (fun e => match e with
                   | Apply _ _ now => now <= bound
                   | FrameAt _ => True
                   end) events ->
  stageInv origin bound st -> stageInv origin bound (stageRun events st).
Proof.
  unfold stageRun. intros H. revert st.
  induction H as [|e events He _ IH]; intros st Hst; simpl; [exact Hst|].
  apply IH. destruct e; simpl.
  - now apply stageInv_apply.
  - now apply stageInv_frame.
Qed.

(** The latest time a tween of [events] is started at, or [floor]. *)
Fixpoint lastStart (floor : R) (events : list StageEvent) : R :=
  match events with
  | [] => floor
  | Apply _ _ now :: r => Rmax now (lastStart floor r)
  | FrameAt _ :: r => lastStart floor r
  end.

Lemma lastStart_bound floor events :
  Forall (fun e => match e with
                   | Apply _ _ now => now <= lastStart floor events
                   | FrameAt _ => True
                   end) events.
Proof.
  induction events as [|e events IH]; [constructor|].
  constructor.
  - destruct e; simpl; [apply Rmax_l | exact I].
  - eapply Forall_impl; [exact IH|]. intros [p s n|n]; simpl; [|trivial].
    intros H. destruct e; simpl; [|exact H].
    eapply Rle_trans; [exact H | apply Rmax_r].
Qed.

(** Preset tweens always give the target back.  On a target that was at
    rest, after any sequence of preset tweens (superseding one another
    or not) and rendered frames: at most one frame callback waits;
    whenever no tween is active the target has exactly its original
    transform; and the tween that is active, if any, restores that same
    original transform, not an intermediate one. *)
Theorem preset_tweens_restore_origin (origin : Frame)
    (events : list StageEvent) :
  let st := stageRun events (atRest origin) in
  (length (rafQueue st) <= 1)%nat /\
  (activeTweens st = None -> target st = origin /\ rafQueue st = []) /\
  (forall a id,
     activeTweens st = Some (a, id) ->
     tw_origin a = origin /\ rafQueue st = [(id, a)] /\
     existsb (Nat.eqb (tw_id a)) (cancelledTweens st) = false).
Proof.
  cbv zeta.
  destruct (stageInv_run origin (lastStart 0 events) events (atRest origin)
              (lastStart_bound 0 events) (stageInv_atRest _ _))
    as (_ & [(Ha & Hq & Ht)|(a & id & Ha & Hq & Ho & _ & Hnc & _)]).
  - rewrite Hq, Ha. split; [simpl; lia|]. split; [now split | discriminate].
  - rewrite Hq, Ha. split; [simpl; lia|]. split; [discriminate|].
    intros a' id' [= <- <-]. repeat split; assumption.
Qed.

Lemma getDuration_le preset : getDuration preset <= 340.
Proof. destruct preset; simpl; lra. Qed.

Lemma tick_completes_queue active now st :
  existsb (Nat.eqb (tw_id active)) (cancelledTweens st) = false ->
  tw_startedAt active + getDuration (tw_preset active) <= now ->
  rafQueue (tick active now st) = rafQueue st.
Proof.
  intros Hc Hnow. unfold tick. rewrite Hc.
  rewrite clamp_unit_ge.
  - destruct (Rlt_dec 1 1) as [Hlt|_]; [lra | reflexivity].
  - pose proof (getDuration_pos (tw_preset active)) as Hd.
    apply (Rmult_le_reg_r (getDuration (tw_preset active))); [exact Hd|].
    unfold Rdiv. rewrite Rmult_assoc, Rinv_l by lra. lra.
Qed.

(** And they end: the first frame rendered 340 ms or more after the last
    tween was started leaves the target at its original transform, with
    no tween active and no callback waiting. *)
Theorem preset_tweens_end_at_origin (origin : Frame)
    (events : list StageEvent) (final : R) :
  Forall (fun e => match e with
                   | Apply _ _ now => now + 340 <= final
                   | FrameAt _ => True
                   end) events ->
  let st := runAnimationFrame final (stageRun events (atRest origin)) in
  target st = origin /\ activeTweens st = None /\ rafQueue st = [].
Proof.
  intros Hev. cbv zeta.
  assert (Hb : Forall (fun e => match e with
                                | Apply _ _ now => now <= final - 340
                                | FrameAt _ => True
                                end) events).
  { eapply Forall_impl; [exact Hev|]. intros [p s n|n]; simpl; [lra|trivial]. }
  destruct (stageInv_run origin (final - 340) events (atRest origin) Hb
              (stageInv_atRest _ _))
    as (_ & [(Ha & Hq & Ht)|(a & id & Ha & Hq & Ho & _ & Hnc & Hs)]);
    unfold runAnimationFrame; rewrite Hq; simpl.
  - repeat split; assumption.
  - set (st0 := {| target := _ |}).
    destruct (tick_completes a final st0) as (Ht & Hn).
    + exact Hnc.
    + pose proof (getDuration_le (tw_preset a)). lra.
    + split; [now rewrite Ht|]. split; [exact Hn|].
      rewrite tick_completes_queue; [reflexivity | exact Hnc|].
      pose proof (getDuration_le (tw_preset a)). lra.
Qed.

Lemma preset_tweens_end_at_origin_witness :
  let origin := {| x := 0; y := 0; scaleX := 1; scaleY := 1; rotation := 0 |} in
  let st := runAnimationFrame 600
              (stageRun [Apply bounce 1 0; FrameAt 100; Apply shake 2 120;
                         FrameAt 200] (atRest origin)) in
  target st = origin /\ activeTweens st = None /\ rafQueue st = [].
Proof.
  apply (preset_tweens_end_at_origin
           {| x := 0; y := 0; scaleX := 1; scaleY := 1; rotation := 0 |}
           [Apply bounce 1 0; FrameAt 100; Apply shake 2 120; FrameAt 200] 600).
  repeat constructor; simpl; lra.
Defined.

(** The bounce preset only lifts: for a progress between 0 and 1 and
    whatever strength is asked for, the frame keeps the horizontal
    position, never goes below the origin, and rises by at most 48 (16
    times the largest strength, 3). *)
Theorem bounce_envelope (t rawStrength : R) (origin : Frame) :
  0 <= t <= 1 ->
  let frame := applyFrame bounce t (effectiveStrength rawStrength) origin in
  x frame = x origin /\
  y origin - 48 <= y frame <= y origin.
Proof.
  intros Ht. cbv zeta. simpl. split; [reflexivity|].
  pose proof (effectiveStrength_range rawStrength) as [Hlo Hhi].
  assert (Hs : 0 <= sin (t * Math_PI) <= 1).
  { split; [|apply SIN_bound].
    pose proof TweenPresetsFacts.Math_PI_lt_PI.
    pose proof TweenPresetsFacts.Math_PI_pos.
    apply sin_ge_0; nra. }
  set (s := sin (t * Math_PI)) in *. set (k := effectiveStrength rawStrength) in *.
  split; nra.
Qed.

Lemma bounce_envelope_witness :
  x (applyFrame bounce (1 / 2) (effectiveStrength 10)
       {| x := 0; y := 0; scaleX := 1; scaleY := 1; rotation := 0 |}) = 0 /\
  0 - 48 <=
    y (applyFrame bounce (1 / 2) (effectiveStrength 10)
         {| x := 0; y := 0; scaleX := 1; scaleY := 1; rotation := 0 |}) <= 0.
Proof.
  apply (bounce_envelope (1 / 2) 10
           {| x := 0; y := 0; scaleX := 1; scaleY := 1; rotation := 0 |}).
  lra.
Defined.

End TweenPresetsProperties.

(* ===================================================================== *)
(** * The input queue: scheduling                                         *)
(* ===================================================================== *)

Module FrameSchedulerProperties.
Import MotionEngine FrameScheduler.
Local Open Scope list_scope.

Definition scheduled (q : InputQueue) : Prop :=
  (inputFrame q = None <->
   pendingDiscreteInput q = [] /\ pendingMouseMove q = None) /\
  (forall id, inputFrame q = Some id -> id < nextFrameId q).

Lemma scheduled_scheduleInputFrame q :
  (forall id, inputFrame q = Some id -> id < nextFrameId q) ->
  pendingDiscreteInput q <> [] \/ pendingMouseMove q <> None ->
  scheduled (scheduleInputFrame q).
Proof.
  intros Hid Hp. unfold scheduleInputFrame.
  destruct (inputFrame q) as [id|] eqn:E.
  - split; [|now rewrite E].
    rewrite E. split; [discriminate|]. intros [H1 H2].
    destruct Hp; contradiction.
  - split; simpl.
    + split; [discriminate|]. intros [H1 H2]. destruct Hp; contradiction.
    + intros id [= <-]. lia.
Qed.

Lemma scheduled_stageStep q s : scheduled q -> scheduled (stageStep q s).
Proof.
  intros Hq. pose proof Hq as (Hiff & Hid).
  destruct s as [p|]; cbn [stageStep].
  - unfold onGlobalInput. destruct (isMouseMove p);
      apply scheduled_scheduleInputFrame; simpl; try exact Hid.
    + right. discriminate.
    + left. intros E. apply app_eq_nil in E as [_ E]. discriminate.
  - destruct (inputFrame q) as [id|] eqn:E; [|exact Hq].
    unfold flushInputInAnimationFrame. cbn [negb].
    destruct (pendingMouseMove q); cbn [fst]; (split; simpl;
      [split; [now split | reflexivity] | discriminate]).
Qed.

(** No input is left waiting without a flush, and no flush is requested
    for nothing: over any sequence of arrivals and rendered frames, a
    flush is scheduled exactly when a discrete event or a pointer sample
    is pending, and the frame it waits for has not been rendered yet. *)
Theorem input_frame_scheduled_iff_pending (steps : list StageStep) :
  let q := fold_left stageStep steps emptyQueue in
  (inputFrame q = None <->
   pendingDiscreteInput q = [] /\ pendingMouseMove q = None) /\
  (forall id, inputFrame q = Some id -> id < nextFrameId q).
Proof.
  cbv zeta.
  assert (H : forall q, scheduled q -> scheduled (fold_left stageStep steps q)).
  { induction steps as [|s steps IH]; intros q Hq; simpl; [exact Hq|].
    apply IH, scheduled_stageStep, Hq. }
  apply H. split; simpl; [|discriminate].
  split; [now split | reflexivity].
Qed.

End FrameSchedulerProperties.

(* ===================================================================== *)
(** * Listing the motions and expressions of a model                      *)
(* ===================================================================== *)

Module ModelAdapterFacts.
Import ModelAdapter JsFacts.
Local Open Scope list_scope.

(** A set of names: no name twice, every name trimmed and non-empty. *)
Definition names (target : list string) : Prop :=
  NoDup target /\ Forall validString target.

(** A step of a collector: it keeps what was collected and keeps the set
    a set of names. *)
Definition collector {A} (f : list string -> A -> list string) : Prop :=
  forall target a,
    (names target -> names (f target a)) /\ target ⊆ f target a.

Lemma collector_id (target : list string) :
  (names target -> names target) /\ target ⊆ target.
Proof. split; [tauto | intros x Hx; exact Hx]. Qed.

Lemma collector_seq (t1 t2 t3 : list string) :
  (names t1 -> names t2) /\ t1 ⊆ t2 ->
  (names t2 -> names t3) /\ t2 ⊆ t3 ->
  (names t1 -> names t3) /\ t1 ⊆ t3.
Proof.
  intros (H1 & H2) (H3 & H4).
  split; [tauto | intros x Hx; apply H4, H2, Hx].
Qed.

Lemma add_spec target name :
  (validString name -> names target -> names (add target name)) /\
  target ⊆ add target name /\ name ∈ add target name.
Proof.
  unfold add. destruct (bool_decide (name ∈ target)) eqn:E.
  - apply bool_decide_eq_true in E.
    split; [tauto | split; [intros x Hx; exact Hx | exact E]].
  - apply bool_decide_eq_false in E. split; [|split].
    + intros Hn (Hnd & Hall). split.
      * apply NoDup_app. split; [exact Hnd | split; [|apply NoDup_singleton]].
        intros x Hx Hx'. apply list_elem_of_singleton in Hx'. now subst.
      * apply Forall_app. split; [exact Hall | now constructor].
    + intros x Hx. apply elem_of_app. now left.
    + apply elem_of_app. right. apply list_elem_of_singleton. reflexivity.
Qed.

Lemma collector_addName : collector addName.
Proof.
  intros target value. unfold addName.
  destruct value as [| | | | |s| |]; try apply collector_id.
  destruct (isEmpty (trim s)) eqn:E; [apply collector_id|].
  destruct (add_spec target (trim s)) as (H1 & H2 & _).
  split; [apply H1; split; [apply trim_idem | exact E] | exact H2].
Qed.

Lemma collector_fold {A} (f : list string -> A -> list string) :
  collector f -> collector (fun target (l : list A) => fold_left f l target).
Proof.
  intros Hf target l. revert target.
  induction l as [|a l IH]; intros target; simpl;
    [split; [tauto | intros x Hx; exact Hx]|].
  destruct (Hf target a) as (H1 & H2). destruct (IH (f target a)) as (H3 & H4).
  split; [tauto | intros x Hx; apply H4, H2, Hx].
Qed.

Lemma collector_addNameFromEntry : collector addNameFromEntry.
Proof.
  intros target entry. unfold addNameFromEntry.
  destruct (negb (isObject entry)); [apply collector_id|].
  cbv zeta.
  do 5 (eapply collector_seq; [|apply collector_addName]).
  apply collector_addName.
Qed.

Lemma collector_recordKey :
  collector (fun target key =>
               if isEmpty (trim key) then target
               else if isDigits (trim key) then target
               else add target (trim key)).
Proof.
  intros t key. destruct (isEmpty (trim key)) eqn:E; [apply collector_id|].
  destruct (isDigits (trim key)); [apply collector_id|].
  destruct (add_spec t (trim key)) as (H1 & H2 & _).
  split; [apply H1; split; [apply trim_idem | exact E] | exact H2].
Qed.

Lemma collector_collectRecordKeys : collector collectRecordKeys.
Proof.
  intros target value. unfold collectRecordKeys.
  destruct value as [| | | | | | |es]; try apply collector_id.
  apply (collector_fold _ collector_recordKey).
Qed.

Lemma collector_collectMotionsFromCandidate :
  collector collectMotionsFromCandidate.
Proof.
  intros target candidate. unfold collectMotionsFromCandidate.
  destruct candidate as [| | | | | |items|es]; try apply collector_id.
  - apply (collector_fold addNameFromEntry collector_addNameFromEntry).
  - cbv zeta.
    eapply collector_seq; [apply collector_collectRecordKeys|].
    apply (collector_fold
             (fun target value =>
                match value with
                | JArr items => fold_left addNameFromEntry items target
                | _ => target
                end)).
    intros t v. destruct v; try apply collector_id.
    apply (collector_fold addNameFromEntry collector_addNameFromEntry).
Qed.

Lemma collector_collectExpressionsFromCandidate :
  collector collectExpressionsFromCandidate.
Proof.
  intros target candidate. unfold collectExpressionsFromCandidate.
  destruct candidate as [| | | | | |items|es]; try apply collector_id.
  - apply (collector_fold
             (fun target item =>
                match item with
                | JStr _ => addName target item
                | _ => addNameFromEntry target item
                end)).
    intros t item. destruct item;
      first [apply collector_addName | apply collector_addNameFromEntry].
  - cbv zeta.
    eapply collector_seq; [apply collector_collectRecordKeys|].
    apply (collector_fold
             (fun target value =>
                match value with
                | JArr items => fold_left addNameFromEntry items target
                | JObj _ => addNameFromEntry target value
                | _ => target
                end)).
    intros t v. destruct v; try apply collector_id.
    + apply (collector_fold addNameFromEntry collector_addNameFromEntry).
    + apply collector_addNameFromEntry.
Qed.

Lemma insertSorted_perm cmp x sorted : insertSorted cmp x sorted ≡ₚ x :: sorted.
Proof.
  induction sorted as [|y rest IH]; simpl; [reflexivity|].
  destruct (cmp x y); try reflexivity; rewrite IH; apply Permutation_swap.
Qed.

Lemma uniqueSorted_perm cmp l : uniqueSorted cmp l ≡ₚ l.
Proof.
  unfold uniqueSorted.
  assert (H : forall acc, fold_left (fun sorted x => insertSorted cmp x sorted) l acc
                          ≡ₚ acc ++ l).
  { induction l as [|x l IH]; intros acc; simpl; [now rewrite app_nil_r|].
    rewrite IH, insertSorted_perm. simpl. apply Permutation_middle. }
  now rewrite H.
Qed.

Lemma names_nil : names [].
Proof. split; constructor. Qed.

Lemma names_perm l l' : l ≡ₚ l' -> names l' -> names l.
Proof.
  intros Hp (Hnd & Hall). split; [now rewrite Hp | now rewrite Hp].
Qed.

(** Whatever the model holds and whatever the order of the locale, the
    lists of motions and of expressions name nothing twice, and every
    name in them is trimmed and non-empty. *)
Theorem listed_names_distinct_and_trimmed
    (localeCompare : string -> string -> comparison) (model : jsval) :
  NoDup (listMotions localeCompare model) /\
  Forall validString (listMotions localeCompare model) /\
  NoDup (listExpressions localeCompare model) /\
  Forall validString (listExpressions localeCompare model).
Proof.
  assert (Hm : names (listMotions localeCompare model)).
  { unfold listMotions. eapply names_perm; [apply uniqueSorted_perm|].
    apply (collector_fold _ collector_collectMotionsFromCandidate), names_nil. }
  assert (He : names (listExpressions localeCompare model)).
  { unfold listExpressions. eapply names_perm; [apply uniqueSorted_perm|].
    apply (collector_fold _ collector_collectExpressionsFromCandidate),
      names_nil. }
  destruct Hm, He. repeat split; assumption.
Qed.

Lemma collectRecordKeys_key target es key :
  key ∈ List.map fst es ->
  isEmpty (trim key) = false -> isDigits (trim key) = false ->
  trim key ∈ collectRecordKeys target (JObj es).
Proof.
  unfold collectRecordKeys. generalize (List.map fst es) as keys.
  intros keys. revert target.
  induction keys as [|k keys IH]; intros target Hin He Hd; [inversion Hin|].
  simpl. apply elem_of_cons in Hin as [<-|Hin].
  - rewrite He, Hd.
    destruct (add_spec target (trim key)) as (_ & _ & H).
    revert H. generalize (add target (trim key)). intros t Ht.
    destruct (collector_fold _ collector_recordKey t keys) as (_ & Hsub).
    now apply Hsub.
  - now apply IH.
Qed.

(** Every motion group of the model's settings is listed: a key of
    [internalModel.settings.motions] that is not blank and not a number
    appears, trimmed, among the motions. *)
Theorem listMotions_lists_settings_groups
    (localeCompare : string -> string -> comparison)
    (model : jsval) (groups : list (string * jsval)) (key : string) :
  readPath model ["internalModel"; "settings"; "motions"] = JObj groups ->
  key ∈ List.map fst groups ->
  isEmpty (trim key) = false ->
  isDigits (trim key) = false ->
  trim key ∈ listMotions localeCompare model.
Proof.
  intros Hpath Hin He Hd. unfold listMotions.
  rewrite uniqueSorted_perm. cbv zeta. rewrite Hpath.
  change (fold_left collectMotionsFromCandidate (JObj groups :: ?l) [])
    with (fold_left collectMotionsFromCandidate l
            (collectMotionsFromCandidate [] (JObj groups))).
  match goal with
  | |- _ ∈ fold_left _ ?l ?t =>
      destruct (collector_fold _ collector_collectMotionsFromCandidate t l)
        as (_ & Hsub)
  end.
  apply Hsub. unfold collectMotionsFromCandidate. cbv zeta.
  match goal with
  | |- _ ∈ fold_left ?f ?l ?t =>
      assert (Hc : collector f);
      [|destruct (collector_fold f Hc t l) as (_ & Hsub'); apply Hsub']
  end.
  { intros t v. destruct v; try apply collector_id.
    apply (collector_fold addNameFromEntry collector_addNameFromEntry). }
  now apply collectRecordKeys_key.
Qed.

Lemma listMotions_lists_settings_groups_witness :
  isDigits (trim " Tap ") = false /\
  "Tap" ∈ listMotions String.compare
    (JObj [("internalModel",
            JObj [("settings",
                   JObj [("motions",
                          JObj [("Idle", JArr []); (" Tap ", JArr [])])])])]).
Proof.
  split; [reflexivity|].
  apply (listMotions_lists_settings_groups String.compare _
           [("Idle", JArr []); (" Tap ", JArr [])] " Tap ").
  - reflexivity.
  - apply list_elem_of_further, list_elem_of_here.
  - reflexivity.
  - reflexivity.
Defined.

End ModelAdapterFacts.
